(** * stress-fiemap: a shallow embedding of stress-ng's FIEMAP stressor

    The development follows [stress-fiemap.c]: the shared bogo counters
    ([stress_fiemap_count]), the fragmentation driver
    ([stress_fiemap_writer]), the extent query worker
    ([stress_fiemap_ioctl]), the fork helper ([stress_fiemap_spawn]) and
    the supervisor ([stress_fiemap]).

    The program is a sequence of system calls.  Each process is modelled
    as a computation in a small state-and-trace monad: the state holds
    what the C code can observe ([errno], the shared counter array), the
    trace records every call the process makes, and the answers of the
    kernel, of the random number generator and of the surrounding harness
    come from an oracle indexed by a logical clock.  Unbounded [do ...
    while] loops take fuel. *)

From Stdlib Require Import ZArith Lia Sorted.
From stdpp Require Import base list.

Local Open Scope Z_scope.

(** ** Machine integers (LP64: [unsigned long], [size_t], [uint64_t] and
       [off_t] are 64 bits wide, [int] and [__u32] are 32 bits wide) *)

Definition wrap64 (z : Z) : Z := z mod 2 ^ 64.
Definition wrap32 (z : Z) : Z := z mod 2 ^ 32.

(** [~x] at type [unsigned long]. *)
Definition not64 (z : Z) : Z := wrap64 (Z.lnot z).

(** The cast [(off_t)offset] of a [uint64_t]. *)
Definition to_off_t (z : Z) : Z := if z <? 2 ^ 63 then z else z - 2 ^ 64.

(** [a % b] on [uint64_t]; a zero divisor is undefined behaviour. *)
Definition umod64 (a b : Z) : option Z :=
  if b =? 0 then None else Some (a mod b).

(** ** Constants of the translation unit and of the C library *)

Definition MAX_FIEMAP_PROCS : nat := 4.
Definition COUNT_MAX : Z := 128.

Definition EINTR : Z := 4.
Definition EAGAIN : Z := 11.
Definition ENOSPC : Z := 28.
Definition EOPNOTSUPP : Z := 95.

(** [sizeof(struct fiemap)] and [sizeof(struct fiemap_extent)] of
    <linux/fiemap.h>. *)
Definition SIZEOF_FIEMAP : Z := 32.
Definition SIZEOF_FIEMAP_EXTENT : Z := 56.

(** The exit statuses a stressor hands back to the harness. *)
Inductive exit_code : Type :=
  | EXIT_SUCCESS
  | EXIT_FAILURE
  | EXIT_NO_RESOURCE
  | EXIT_NOT_IMPLEMENTED.

Inductive proc_state : Type :=
  | STRESS_STATE_RUN
  | STRESS_STATE_DEINIT.

(** ** Data *)

(** Header of [struct fiemap]; the extent records behind it are written
    by the kernel and never read by the stressor. *)
Record fiemap : Type := mk_fiemap {
  fm_start : Z;
  fm_length : Z;
  fm_flags : Z;
  fm_mapped_extents : Z;
  fm_extent_count : Z
}.

(** The fields of [stress_args_t] the stressor reads. *)
Record stress_args : Type := mk_args {
  instance : Z;
  num_instances : Z
}.

(** Result of a system call: the returned value, and the value [errno]
    holds afterwards when the call failed (returned a negative value). *)
Record sysret : Type := mk_sysret {
  rv : Z;
  err : Z
}.

(** The call site of a FIEMAP ioctl. *)
Inductive site : Type :=
  | Probe       (* stress_fiemap, before any worker exists *)
  | Discovery   (* stress_fiemap_ioctl, first call of a cycle *)
  | Populate.   (* stress_fiemap_ioctl, second call of a cycle *)

Inductive event : Type :=
  | EvMmap (ok : bool)
  | EvMemsetCounters
  | EvMunmap
  | EvTempDirMk (ret : Z)
  | EvTempDirRm
  | EvOpen (r : sysret)
  | EvUnlink
  | EvClose (fd : Z)
  | EvIoctl (s : site) (fd : Z) (req : fiemap) (r : sysret) (mapped : Z)
  | EvProcState (st : proc_state)
  | EvKeepStressing (b : bool)
  | EvFork (pid : Z)
  | EvSetpgid (pid : Z)
  | EvChildSetup
  | EvKill (pid : Z)
  | EvWaitpid (pid : Z)
  | EvLseek (fd off : Z) (r : sysret)
  | EvWrite (fd : Z) (r : sysret)
  | EvUsleep (usec : Z)
  | EvFallocate (fd off len : Z) (r : sysret)
  | EvRemoteIncr (i : nat)   (* the owner of slot [i] incremented it *)
  | EvLoad (i : nat) (v : Z)
  | EvStore (i : nat) (v : Z)
  | EvSetCounter (v : Z)
  | EvCalloc (ok : bool)
  | EvRealloc (size : Z) (ok : bool)
  | EvMemsetExtents (size : Z)
  | EvFree
  | EvFdatasync (fd : Z)
  | EvPrFail
  | EvPrErr
  | EvPrInfSkip.

(** What a process can observe and change. *)
Record world : Type := mk_world {
  clock : nat;            (* number of oracle questions asked so far *)
  errno : Z;
  counters : list Z       (* the MAP_SHARED array of uint64_t *)
}.

(** Answers of everything outside the translation unit, by clock tick. *)
Record oracle : Type := mk_oracle {
  o_mwc64 : nat -> Z;
  o_mwc32 : nat -> Z;
  o_keep_stressing : nat -> bool;
  o_mmap : nat -> bool;
  o_temp_dir_mk : nat -> Z;
  o_open : nat -> sysret;
  o_ioctl : nat -> fiemap -> sysret * Z;
  o_fork : nat -> Z;
  o_lseek : nat -> sysret;
  o_write : nat -> sysret;
  o_fallocate : nat -> sysret;
  o_calloc : nat -> bool;
  o_realloc : nat -> bool;
  (* slots incremented by their owners since the previous load *)
  o_interference : nat -> list nat
}.

(** ** The monad *)

Inductive ub : Type :=
  | DivisionByZero
  | BadSlot.       (* access outside the mapped counter array *)

Inductive res (A : Type) : Type :=
  | Ret (a : A) (w : world) (t : list event)           (* normal return *)
  | Exit (rc : exit_code) (w : world) (t : list event) (* the process called _exit *)
  | Undef (why : ub) (w : world) (t : list event)      (* undefined behaviour *)
  | OutOfFuel (w : world) (t : list event).
Arguments Ret {A} a w t.
Arguments Exit {A} rc w t.
Arguments Undef {A} why w t.
Arguments OutOfFuel {A} w t.

Definition M (A : Type) : Type := world -> res A.

Definition prefix_trace {A} (t0 : list event) (r : res A) : res A :=
  match r with
  | Ret a w t => Ret a w (t0 ++ t)
  | Exit rc w t => Exit rc w (t0 ++ t)
  | Undef why w t => Undef why w (t0 ++ t)
  | OutOfFuel w t => OutOfFuel w (t0 ++ t)
  end.

Definition ret {A} (a : A) : M A := fun w => Ret a w [].

Definition bind {A B} (m : M A) (f : A -> M B) : M B := fun w =>
  match m w with
  | Ret a w1 t1 => prefix_trace t1 (f a w1)
  | Exit rc w1 t1 => Exit rc w1 t1
  | Undef why w1 t1 => Undef why w1 t1
  | OutOfFuel w1 t1 => OutOfFuel w1 t1
  end.

#[global] Instance M_ret : MRet M := @ret.
#[global] Instance M_bind : MBind M := fun A B f m => bind m f.

Definition trace_of {A} (r : res A) : list event :=
  match r with
  | Ret _ _ t | Exit _ _ t | Undef _ _ t | OutOfFuel _ t => t
  end.

Definition emit (e : event) : M unit := fun w => Ret tt w [e].
Definition emit_all (t : list event) : M unit := fun w => Ret tt w t.
Definition undefined {A} (why : ub) : M A := fun w => Undef why w [].
Definition out_of_fuel {A} : M A := fun w => OutOfFuel w [].
Definition _exit {A} (rc : exit_code) : M A := fun w => Exit rc w [].

(** Ask the oracle one question; the clock advances. *)
Definition ask {A} (q : nat -> A) : M A := fun w =>
  Ret (q (clock w)) (mk_world (S (clock w)) (errno w) (counters w)) [].

Definition get_errno : M Z := fun w => Ret (errno w) w [].
Definition set_errno (e : Z) : M unit := fun w =>
  Ret tt (mk_world (clock w) e (counters w)) [].
Definition set_counters (m : list Z) : M unit := fun w =>
  Ret tt (mk_world (clock w) (errno w) m) [].
Definition get_counters : M (list Z) := fun w => Ret (counters w) w [].

(** A system call: record it, and leave the error code in [errno] when it
    failed. *)
Definition syscall (r : sysret) (e : event) : M Z :=
  emit e;;
  (if rv r <? 0 then set_errno (err r) else mret tt);;
  mret (rv r).

(** ** The shared counter array *)

(** The increment of a [uint64_t] counter. *)
Definition incr64 (v : Z) : Z := wrap64 (v + 1).

(** Increments done by other processes, each on the slot it owns. *)
Fixpoint interfere (burst : list nat) (m : list Z) : list Z :=
  match burst with
  | [] => m
  | i :: burst' => interfere burst' (alter incr64 i m)
  end.

(** The array as [mmap] and [memset] leave it. *)
Definition zero_counters : list Z := replicate MAX_FIEMAP_PROCS 0.

(** Run-time configuration read by [stress_fiemap]:
    [stress_get_setting("fiemap-bytes", ...)] and the two bits of
    [g_opt_flags]. *)
Record settings : Type := mk_settings {
  fiemap_bytes_setting : option Z;
  opt_flags_maximize : bool;
  opt_flags_minimize : bool
}.

Section Program.

(** Constants and helpers that [stress-ng.h] declares. *)
Variable MIN_FIEMAP_SIZE : Z.
Variable MAX_FIEMAP_SIZE : Z.
Variable DEFAULT_FIEMAP_SIZE : Z.
Variable MAXIMIZED_FILE_SIZE : Z.
Variable exit_status : Z -> exit_code.
(** Whether [FALLOC_FL_PUNCH_HOLE] and [FALLOC_FL_KEEP_SIZE] are
    defined. *)
Variable HAVE_PUNCH_HOLE : bool.

Variable o : oracle.

(** *** Primitive calls *)

Definition keep_stressing : M bool :=
  b ← ask (o_keep_stressing o);
  emit (EvKeepStressing b);;
  mret b.

Definition stress_mwc64 : M Z := r ← ask (o_mwc64 o); mret (wrap64 r).
Definition stress_mwc32 : M Z := r ← ask (o_mwc32 o); mret (wrap32 r).

Definition set_counter (v : Z) : M unit := emit (EvSetCounter v).
Definition pr_fail : M unit := emit EvPrFail.
Definition pr_err : M unit := emit EvPrErr.
Definition pr_inf_skip : M unit := emit EvPrInfSkip.
Definition stress_set_proc_state (st : proc_state) : M unit :=
  emit (EvProcState st).
Definition shim_usleep (usec : Z) : M unit := emit (EvUsleep usec).
Definition close (fd : Z) : M unit := emit (EvClose fd).

(** Read [counters[i]]: whatever the owners of the slots did in the
    meantime is visible. *)
Definition load (i : nat) : M Z :=
  burst ← ask (o_interference o);
  emit_all (EvRemoteIncr <$> burst);;
  m ← get_counters;
  set_counters (interfere burst m);;
  match interfere burst m !! i with
  | Some v => emit (EvLoad i v);; mret v
  | None => undefined BadSlot
  end.

(** Write [counters[i]]. *)
Definition store (i : nat) (v : Z) : M unit :=
  m ← get_counters;
  match m !! i with
  | Some _ => set_counters (<[i := v]> m);; emit (EvStore i v)
  | None => undefined BadSlot
  end.

Definition lseek (fd off : Z) : M Z :=
  r ← ask (o_lseek o); syscall r (EvLseek fd off r).

Definition write (fd : Z) : M Z :=
  r ← ask (o_write o); syscall r (EvWrite fd r).

Definition shim_fallocate (fd off len : Z) : M Z :=
  r ← ask (o_fallocate o); syscall r (EvFallocate fd off len r).

(** [ioctl(fd, FS_IOC_FIEMAP, fiemap)]: on success the kernel stores
    the number of extents in [fm_mapped_extents]. *)
Definition ioctl_fiemap (s : site) (fd : Z) (req : fiemap) : M (Z * fiemap) :=
  a ← ask (o_ioctl o);
  let r := fst (a req) in
  let mapped := wrap32 (snd (a req)) in
  x ← syscall r (EvIoctl s fd req r mapped);
  if x <? 0 then mret (x, req)
  else mret (x, mk_fiemap (fm_start req) (fm_length req) (fm_flags req)
                          mapped (fm_extent_count req)).

(** *** stress_fiemap_count *)

(** [for (counter = 0, i = 0; i < MAX_FIEMAP_PROCS; i++)
       counter += counters[i];] with [k] iterations left. *)
Fixpoint count_loop (k : nat) (i : nat) (counter : Z) : M Z :=
  match k with
  | O => mret counter
  | S k' => v ← load i; count_loop k' (S i) (wrap64 (counter + v))
  end.

Definition stress_fiemap_count : M bool :=
  counter ← count_loop MAX_FIEMAP_PROCS 0%nat 0;
  set_counter counter;;
  keep_stressing.

(** *** stress_fiemap_writer *)

(** How one pass through the body of the [do ... while] ends.  Both
    [continue] and falling off the end of the body reach the loop
    condition. *)
Inductive ctl : Type :=
  | CBreak                          (* break *)
  | CCondition (punch_hole : bool)  (* continue, or end of the body *)
  | CTidy.                          (* goto tidy *)

Definition writer_punch (fd len : Z) (punch_hole : bool) : M ctl :=
  if negb punch_hole then mret (CCondition punch_hole) else
  shim_usleep 1000;;
  r ← stress_mwc64;
  match umod64 r len with
  | None => undefined DivisionByZero
  | Some offset =>
    x ← shim_fallocate fd (to_off_t offset) 8192;
    en ← get_errno;
    if (x <? 0) && (en =? ENOSPC) then mret (CCondition punch_hole) else
    let punch_hole' :=
      if (x <? 0) && (en =? EOPNOTSUPP) then false else punch_hole in
    shim_usleep 1000;;
    k ← stress_fiemap_count;
    if negb k then mret CBreak else mret (CCondition punch_hole')
  end.

(** How the write of the probe byte ends. *)
Inductive write_outcome : Type :=
  | WriteRetry     (* continue *)
  | WriteProceed   (* the statements after the write follow *)
  | WriteFatal.    (* goto tidy *)

Definition writer_write (fd : Z) : M write_outcome :=
  x ← write fd;
  en ← get_errno;
  if (x <? 0) && (en =? ENOSPC) then mret WriteRetry else
  if (x <? 0) && negb (en =? EAGAIN) && negb (en =? EINTR) then
    pr_fail;; mret WriteFatal
  else mret WriteProceed.

Definition writer_after_write (fd len : Z) (punch_hole : bool)
    (wo : write_outcome) : M ctl :=
  match wo with
  | WriteRetry => mret (CCondition punch_hole)
  | WriteFatal => mret CTidy
  | WriteProceed =>
    stress_fiemap_count ≫= λ k : bool,
    if negb k then mret CBreak else
    if HAVE_PUNCH_HOLE then writer_punch fd len punch_hole
    else mret (CCondition punch_hole)
  end.

(** The body from the first [stress_fiemap_count] on. *)
Definition writer_after_seek (fd len : Z) (punch_hole : bool) : M ctl :=
  stress_fiemap_count ≫= λ k : bool,
  if negb k then mret CBreak else
  wo ← writer_write fd;
  writer_after_write fd len punch_hole wo.

Definition writer_body (fd len : Z) (punch_hole : bool) : M ctl :=
  r ← stress_mwc64;
  match umod64 r len with
  | None => undefined DivisionByZero
  | Some m =>
    let offset := Z.land m (not64 8191) in
    x ← lseek fd (to_off_t offset);
    if x <? 0 then mret CBreak else
    writer_after_seek fd len punch_hole
  end.

(** The loop; [true] when control leaves it at its end or through
    [break], [false] when it leaves through [goto tidy]. *)
Fixpoint writer_loop (fuel : nat) (fd len : Z) (punch_hole : bool) : M bool :=
  match fuel with
  | O => out_of_fuel
  | S fuel' =>
    c ← writer_body fd len punch_hole;
    match c return M bool with
    | CBreak => mret true
    | CTidy => mret false
    | CCondition punch_hole' =>
      keep_stressing ≫= λ k : bool,
      if k then writer_loop fuel' fd len punch_hole' else mret true
    end
  end.

(** The byte [stress_strnrnd] puts in [buf] is written but never read
    back; its value is not part of the model. *)
Definition stress_fiemap_writer (fuel : nat) (fd fiemap_bytes : Z)
  : M exit_code :=
  let len := wrap64 (fiemap_bytes - 1) in
  let rc := EXIT_FAILURE in
  writer_loop fuel fd len true ≫= λ fell_through : bool,
  let rc := if fell_through then EXIT_SUCCESS else rc in
  close fd;;
  mret rc.

(** *** stress_fiemap_ioctl *)

Definition calloc : M bool :=
  ok ← ask (o_calloc o); emit (EvCalloc ok);; mret ok.

Definition realloc (size : Z) : M bool :=
  ok ← ask (o_realloc o); emit (EvRealloc size ok);; mret ok.

Definition free : M unit := emit EvFree.
Definition fdatasync (fd : Z) : M unit := emit (EvFdatasync fd).

(** One pass through the body of the [do ... while]: [None] for
    [break], [Some c] when the loop condition is reached, [c] being the
    flush countdown. *)
Definition ioctl_body (args : stress_args) (slot : nat) (fd c : Z)
  : M (option Z) :=
  calloc ≫= λ ok : bool,
  if negb ok then pr_err;; mret None else
  let fiemap := mk_fiemap 0 (not64 0) 0 0 0 in
  ioctl_fiemap Discovery fd fiemap ≫= λ '(x, fiemap),
  if x <? 0 then
    en ← get_errno;
    if en =? EOPNOTSUPP then
      (if instance args =? 0 then pr_inf_skip else mret tt);;
      free;; mret None
    else pr_fail;; free;; mret None
  else
  keep_stressing ≫= λ k : bool,
  if negb k then free;; mret None else
  let extents_size :=
    wrap64 (SIZEOF_FIEMAP_EXTENT * fm_mapped_extents fiemap) in
  realloc (wrap64 (SIZEOF_FIEMAP + extents_size)) ≫= λ ok : bool,
  if negb ok then pr_fail;; free;; mret None else
  emit (EvMemsetExtents extents_size);;
  let fiemap :=
    mk_fiemap (fm_start fiemap) (fm_length fiemap) (fm_flags fiemap)
              0 (fm_mapped_extents fiemap) in
  ioctl_fiemap Populate fd fiemap ≫= λ '(x, _),
  if x <? 0 then pr_fail;; free;; mret None else
  free;;
  v ← load slot;
  store slot (incr64 v);;
  if c >? COUNT_MAX then fdatasync fd;; mret (Some 0)
  else mret (Some (c + 1)).

Fixpoint ioctl_loop (fuel : nat) (args : stress_args) (slot : nat)
    (fd c : Z) : M unit :=
  match fuel with
  | O => out_of_fuel
  | S fuel' =>
    r ← ioctl_body args slot fd c;
    match r return M unit with
    | None => mret tt
    | Some c' =>
      keep_stressing ≫= λ k : bool,
      if k then ioctl_loop fuel' args slot fd c' else mret tt
    end
  end.

Definition stress_fiemap_ioctl (fuel : nat) (args : stress_args)
    (slot : nat) (fd : Z) : M unit :=
  r ← stress_mwc32;
  ioctl_loop fuel args slot fd (r mod COUNT_MAX).

(** *** stress_fiemap_spawn *)

Definition fork : M Z :=
  pid ← ask (o_fork o); emit (EvFork pid);; mret pid.

(** In the child ([fork] returned 0) the computation ends in [_exit];
    [slot] is the index of the counter handed to the child. *)
Definition stress_fiemap_spawn (fuel : nat) (args : stress_args)
    (slot : nat) (fd : Z) : M Z :=
  pid ← fork;
  if pid <? 0 then mret (-1)
  else if pid =? 0 then
    emit (EvSetpgid 0);;
    emit EvChildSetup;;
    stress_fiemap_ioctl fuel args slot fd;;
    _exit EXIT_SUCCESS
  else
    emit (EvSetpgid pid);;
    mret pid.

(** *** stress_fiemap *)

(** Modelled from the spec: [stress_check_range_bytes] is a helper of
    the harness; the requested size is "validated against a
    minimum/maximum range", and a value outside it is refused.
    [stress_set_fiemap_bytes] stores a value that passed the check;
    [parsed] is what [stress_get_uint64_byte_filesystem] made of the
    option string. *)
Definition stress_set_fiemap_bytes (parsed : Z) (cfg : settings)
  : option settings :=
  if (parsed <? MIN_FIEMAP_SIZE) || (MAX_FIEMAP_SIZE <? parsed) then None
  else Some (mk_settings (Some parsed) (opt_flags_maximize cfg)
                         (opt_flags_minimize cfg)).

Definition initial_fiemap_bytes (cfg : settings) : Z :=
  match fiemap_bytes_setting cfg with
  | Some v => v
  | None =>
    let fiemap_bytes := DEFAULT_FIEMAP_SIZE in
    let fiemap_bytes :=
      if opt_flags_maximize cfg then MAXIMIZED_FILE_SIZE
      else fiemap_bytes in
    if opt_flags_minimize cfg then MIN_FIEMAP_SIZE else fiemap_bytes
  end.

(** The per-instance working length; dividing by zero instances is
    undefined. *)
Definition working_length (cfg : settings) (args : stress_args)
  : option Z :=
  if num_instances args =? 0 then None else
  let fiemap_bytes := initial_fiemap_bytes cfg / num_instances args in
  Some (if fiemap_bytes <? MIN_FIEMAP_SIZE then MIN_FIEMAP_SIZE
        else fiemap_bytes).

Definition mmap : M bool :=
  ok ← ask (o_mmap o); emit (EvMmap ok);; mret ok.

Definition stress_temp_dir_mk_args : M Z :=
  r ← ask (o_temp_dir_mk o); emit (EvTempDirMk r);; mret r.

Definition open : M Z :=
  r ← ask (o_open o); syscall r (EvOpen r).

(** The labels at the end of [stress_fiemap], each falling through to
    the next. *)
Definition clean (rc : exit_code) : M exit_code :=
  stress_set_proc_state STRESS_STATE_DEINIT;;
  emit EvMunmap;;
  set_counters [];;
  mret rc.

Definition dir_clean (rc : exit_code) : M exit_code :=
  stress_set_proc_state STRESS_STATE_DEINIT;;
  emit EvTempDirRm;;
  clean rc.

Definition close_clean (fd : Z) (rc : exit_code) : M exit_code :=
  stress_set_proc_state STRESS_STATE_DEINIT;;
  close fd;;
  dir_clean rc.

Fixpoint reap_loop (pids : list Z) : M unit :=
  match pids with
  | [] => mret tt
  | pid :: pids' => emit (EvKill pid);; emit (EvWaitpid pid);; reap_loop pids'
  end.

(** [pids] holds the entries of the array written so far, [n] is the
    loop variable of the spawn loop. *)
Definition reap (n : nat) (pids : list Z) (fd : Z) (rc : exit_code)
  : M exit_code :=
  stress_set_proc_state STRESS_STATE_DEINIT;;
  reap_loop (take n pids);;
  close_clean fd rc.

(** The spawn loop with [k] iterations left.  The last component is
    [Some rc] when the loop is left through [goto reap]. *)
Fixpoint spawn_loop (k fuel : nat) (args : stress_args) (fd : Z)
    (n : nat) (pids : list Z) (rc : exit_code)
  : M (nat * list Z * option exit_code) :=
  match k with
  | O => mret (n, pids, None)
  | S k' =>
    keep_stressing ≫= λ keep : bool,
    if negb keep then mret (n, pids, Some EXIT_SUCCESS) else
    pid ← stress_fiemap_spawn fuel args n fd;
    if pid <? 0 then mret (n, pids ++ [pid], Some rc)
    else spawn_loop k' fuel args fd (S n) (pids ++ [pid]) rc
  end.

Definition stress_fiemap (fuel : nat) (cfg : settings)
    (args : stress_args) : M exit_code :=
  let rc := EXIT_FAILURE in
  match working_length cfg args with
  | None => undefined DivisionByZero
  | Some fiemap_bytes =>
    mmap ≫= λ ok : bool,
    if negb ok then pr_err;; mret EXIT_NO_RESOURCE else
    emit EvMemsetCounters;;
    set_counters zero_counters;;
    ret ← stress_temp_dir_mk_args;
    if ret <? 0 then clean (exit_status (- ret)) else
    stress_mwc32;;   (* the suffix of the file name *)
    fd ← open;
    if fd <? 0 then
      en ← get_errno;
      pr_fail;;
      dir_clean (exit_status en)
    else
    emit EvUnlink;;
    ioctl_fiemap Probe fd (mk_fiemap 0 (not64 0) 0 0 0) ≫= λ '(x, _),
    (if x <? 0 then
       set_errno EOPNOTSUPP;;
       en ← get_errno;
       if en =? EOPNOTSUPP then
         (if instance args =? 0 then pr_inf_skip else mret tt);;
         mret true
       else mret false
     else mret false) ≫= λ unsupported : bool,
    if unsupported then close_clean fd EXIT_NOT_IMPLEMENTED else
    stress_set_proc_state STRESS_STATE_RUN;;
    spawn_loop MAX_FIEMAP_PROCS fuel args fd 0%nat [] rc
      ≫= λ '(n, pids, stopped),
    match stopped with
    | Some rc => reap n pids fd rc
    | None =>
      rc ← stress_fiemap_writer fuel fd fiemap_bytes;
      reap n pids fd rc
    end
  end.

End Program.



Arguments wrap64 : simpl never.
Arguments wrap32 : simpl never.
Arguments not64 : simpl never.
Arguments to_off_t : simpl never.
Arguments incr64 : simpl never.
Arguments count_loop : simpl never.
Arguments spawn_loop : simpl never.

(** ** Observing a trace

    A property of a run is stated on its trace.  To prove it, the trace
    is folded into a summary by an observer, and the program is verified
    against the observer with a weakest-precondition calculus. *)

(** The ways a computation can end other than by returning. *)
Inductive abnormal : Type :=
  | AExit (rc : exit_code)
  | AUndef (why : ub)
  | AFuel.

Section Observer.

Context {S : Type}.
Variable step : S -> event -> S.
(** What must hold of the summary when the computation does not
    return. *)
Variable X : abnormal -> S -> Prop.

Definition observe (s : S) (t : list event) : S := foldl step s t.

Definition wp {A} (m : M A) (Q : A -> world -> S -> Prop)
    (w : world) (s : S) : Prop :=
  match m w with
  | Ret a w' t => Q a w' (observe s t)
  | Exit rc _ t => X (AExit rc) (observe s t)
  | Undef why _ t => X (AUndef why) (observe s t)
  | OutOfFuel _ t => X AFuel (observe s t)
  end.

End Observer.

(** *** Hole punching *)

Definition is_fallocate (e : event) : bool :=
  match e with EvFallocate _ _ _ _ => true | _ => false end.

(** The call failed with "operation not supported". *)
Definition unsupported (r : sysret) : bool :=
  (rv r <? 0) && (err r =? EOPNOTSUPP).

(** No hole is punched after a punch failed as unsupported. *)
Definition no_punch_after_unsupported (t : list event) : Prop :=
  forall pre fd off len r post,
    t = pre ++ EvFallocate fd off len r :: post ->
    rv r < 0 -> err r = EOPNOTSUPP ->
    Forall (fun e => is_fallocate e = false) post.

(** Observer: has a punch been refused, and was one tried afterwards. *)
Record punch_obs : Type := mk_punch_obs {
  po_refused : bool;
  po_violated : bool
}.

Definition punch_step (s : punch_obs) (e : event) : punch_obs :=
  match e with
  | EvFallocate _ _ _ r =>
    mk_punch_obs (po_refused s || unsupported r)
                 (po_violated s || po_refused s)
  | _ => s
  end.


(** ** Computations that emit only events of one class *)

Definition emits_only {A} (C : event -> bool) (m : M A) : Prop :=
  forall w, Forall (fun e => C e = true) (trace_of (m w)).

Definition class_step (C : event -> bool) (b : bool) (e : event) : bool :=
  b && C e.

Definition class_X (_ : abnormal) (b : bool) : Prop := b = true.

(** *** The event classes of the program's parts *)

Definition counting_event (e : event) : bool :=
  match e with
  | EvRemoteIncr _ | EvLoad _ _ | EvSetCounter _ | EvKeepStressing _ => true
  | _ => false
  end.

(** Events of the loop of the driver. *)
Definition driver_event (e : event) : bool :=
  match e with
  | EvLseek _ _ _ | EvWrite _ _ | EvPrFail | EvUsleep _
  | EvFallocate _ _ _ _ => true
  | _ => counting_event e
  end.

(** Events of [stress_fiemap_writer]: the loop and the final [close]. *)
Definition writer_event (e : event) : bool :=
  match e with
  | EvClose _ => true
  | _ => driver_event e
  end.

Definition worker_event (e : event) : bool :=
  match e with
  | EvCalloc _ | EvIoctl Discovery _ _ _ _ | EvIoctl Populate _ _ _ _
  | EvKeepStressing _ | EvRealloc _ _ | EvMemsetExtents _ | EvFree
  | EvRemoteIncr _ | EvLoad _ _ | EvStore _ _ | EvFdatasync _
  | EvPrFail | EvPrErr | EvPrInfSkip => true
  | _ => false
  end.

Definition spawn_event (e : event) : bool :=
  match e with
  | EvFork _ | EvSetpgid _ | EvChildSetup => true
  | _ => worker_event e
  end.

Definition reap_event (e : event) : bool :=
  match e with
  | EvKill _ | EvWaitpid _ => true
  | _ => false
  end.

Definition teardown_event (e : event) : bool :=
  match e with
  | EvProcState STRESS_STATE_DEINIT | EvKill _ | EvWaitpid _ | EvClose _
  | EvTempDirRm | EvMunmap => true
  | _ => false
  end.


Definition punch_X (_ : abnormal) (s : punch_obs) : Prop := po_violated s = false.

Definition punch_inv (punch_hole : bool) (s : punch_obs) : Prop :=
  po_violated s = false /\ po_refused s = negb punch_hole.

Definition punch_post (c : ctl) (s : punch_obs) : Prop :=
  match c with
  | CCondition punch_hole => punch_inv punch_hole s
  | _ => po_violated s = false
  end.


(** *** Properties of every event of a trace *)

Definition all_step (G : event -> Prop) (P : Prop) (e : event) : Prop :=
  P /\ G e.

(** *** Offsets *)

(** The offset handed to [lseek] or [fallocate] is the cast of a
    [uint64_t] below [len]. *)
Definition offset_below (len : Z) (e : event) : Prop :=
  match e with
  | EvLseek _ off _ | EvFallocate _ off _ _ =>
    exists offset, off = to_off_t offset /\ 0 <= offset < len
  | _ => True
  end.

Definition no_division_by_zero {A} (r : res A) : Prop :=
  match r with
  | Undef DivisionByZero _ _ => False
  | _ => True
  end.

Definition offset_X (ab : abnormal) (P : Prop) : Prop :=
  P /\ ab <> AUndef DivisionByZero.

(** *** Write errors *)

(** A write failed, and not with ENOSPC, EAGAIN or EINTR. *)
Definition fatal_write_result (r : sysret) : bool :=
  (rv r <? 0) && negb (err r =? ENOSPC) && negb (err r =? EAGAIN)
  && negb (err r =? EINTR).

Definition is_fatal_write (e : event) : bool :=
  match e with
  | EvWrite _ r => fatal_write_result r
  | _ => false
  end.

Definition fatal_step (seen : bool) (e : event) : bool :=
  seen || is_fatal_write e.

Definition fatal_X (_ : abnormal) (seen : bool) : Prop := seen = false.

(** How the driver treats the result of a write. *)
Definition classify_write (r : sysret) : write_outcome :=
  if rv r <? 0 then
    if err r =? ENOSPC then WriteRetry
    else if (err r =? EAGAIN) || (err r =? EINTR) then WriteProceed
    else WriteFatal
  else WriteProceed.

(** The world after a system call that was asked at the current tick. *)
Definition after_syscall (r : sysret) (w : world) : world :=
  mk_world (S (clock w)) (if rv r <? 0 then err r else errno w) (counters w).

(** *** Closing the file descriptor *)

Definition is_close (e : event) : bool :=
  match e with EvClose _ => true | _ => false end.

Definition is_lseek (e : event) : bool :=
  match e with EvLseek _ _ _ => true | _ => false end.

(** The descriptors closed, in order. *)
Fixpoint closes_of (t : list event) : list Z :=
  match t with
  | [] => []
  | EvClose fd :: t' => fd :: closes_of t'
  | _ :: t' => closes_of t'
  end.

(** Observer: the descriptors closed so far and whether the driver has
    sought. *)
Record close_obs : Type := mk_close_obs {
  co_closed : list Z;
  co_sought : bool
}.

Definition close_step (s : close_obs) (e : event) : close_obs :=
  match e with
  | EvClose fd => mk_close_obs (co_closed s ++ [fd]) (co_sought s)
  | EvLseek _ _ _ => mk_close_obs (co_closed s) true
  | _ => s
  end.

Definition close_X (_ : abnormal) (_ : close_obs) : Prop := True.

(** ** Concrete oracles, for running the model *)

Definition sys_ok (v : Z) : sysret := mk_sysret v 0.
Definition sys_fail (e : Z) : sysret := mk_sysret (-1) e.

(** Every call succeeds, the file has two extents, nobody else touches
    the counters, and the harness stops the run at tick [stop]. *)
Definition calm (stop : nat) : oracle :=
  mk_oracle
    (fun t => 1000003 * Z.of_nat t + 65537)   (* stress_mwc64 *)
    (fun t => Z.of_nat t)                      (* stress_mwc32 *)
    (fun t => Nat.ltb t stop)                  (* keep_stressing *)
    (fun _ => true)                            (* mmap *)
    (fun _ => 0)                               (* stress_temp_dir_mk_args *)
    (fun _ => sys_ok 3)                        (* open *)
    (fun _ _ => (sys_ok 0, 2))                 (* ioctl FS_IOC_FIEMAP *)
    (fun t => 1000 + Z.of_nat t)               (* fork *)
    (fun _ => sys_ok 0)                        (* lseek *)
    (fun _ => sys_ok 1)                        (* write *)
    (fun _ => sys_ok 0)                        (* fallocate *)
    (fun _ => true)                            (* calloc *)
    (fun _ => true)                            (* realloc *)
    (fun _ => []).                             (* other processes *)

Definition with_write (o : oracle) (f : nat -> sysret) : oracle :=
  mk_oracle (o_mwc64 o) (o_mwc32 o) (o_keep_stressing o) (o_mmap o)
    (o_temp_dir_mk o) (o_open o) (o_ioctl o) (o_fork o) (o_lseek o)
    f (o_fallocate o) (o_calloc o) (o_realloc o) (o_interference o).

Definition with_fallocate (o : oracle) (f : nat -> sysret) : oracle :=
  mk_oracle (o_mwc64 o) (o_mwc32 o) (o_keep_stressing o) (o_mmap o)
    (o_temp_dir_mk o) (o_open o) (o_ioctl o) (o_fork o) (o_lseek o)
    (o_write o) f (o_calloc o) (o_realloc o) (o_interference o).

Definition with_ioctl (o : oracle) (f : nat -> fiemap -> sysret * Z)
  : oracle :=
  mk_oracle (o_mwc64 o) (o_mwc32 o) (o_keep_stressing o) (o_mmap o)
    (o_temp_dir_mk o) (o_open o) f (o_fork o) (o_lseek o)
    (o_write o) (o_fallocate o) (o_calloc o) (o_realloc o)
    (o_interference o).

Definition with_fork (o : oracle) (f : nat -> Z) : oracle :=
  mk_oracle (o_mwc64 o) (o_mwc32 o) (o_keep_stressing o) (o_mmap o)
    (o_temp_dir_mk o) (o_open o) (o_ioctl o) f (o_lseek o)
    (o_write o) (o_fallocate o) (o_calloc o) (o_realloc o)
    (o_interference o).

Definition with_interference (o : oracle) (f : nat -> list nat) : oracle :=
  mk_oracle (o_mwc64 o) (o_mwc32 o) (o_keep_stressing o) (o_mmap o)
    (o_temp_dir_mk o) (o_open o) (o_ioctl o) (o_fork o) (o_lseek o)
    (o_write o) (o_fallocate o) (o_calloc o) (o_realloc o) f.

Definition MiB : Z := 1048576.

Definition fresh_world : world := mk_world 0 0 [].
Definition mapped_world : world := mk_world 0 0 zero_counters.

Definition default_settings : settings := mk_settings None false false.
Definition one_instance : stress_args := mk_args 0 1.

(** The harness's [exit_status]: resource errors map to
    [EXIT_NO_RESOURCE], anything else to [EXIT_FAILURE]. *)
Definition sample_exit_status (e : Z) : exit_code :=
  if (e =? 12) || (e =? ENOSPC) then EXIT_NO_RESOURCE else EXIT_FAILURE.

(** *** The capability probe *)

Definition failed_probe (e : event) : bool :=
  match e with
  | EvIoctl Probe _ _ r _ => rv r <? 0
  | _ => false
  end.

Definition is_fork (e : event) : bool :=
  match e with EvFork _ => true | _ => false end.

(** A system call of the driver. *)
Definition is_driver_call (e : event) : bool :=
  match e with
  | EvLseek _ _ _ | EvWrite _ _ | EvFallocate _ _ _ _ => true
  | _ => false
  end.

(** Observer: has the probe failed; has a process been forked or the
    driver made a call. *)
Record probe_obs : Type := mk_probe_obs {
  pr_failed : bool;
  pr_active : bool
}.

Definition probe_step (s : probe_obs) (e : event) : probe_obs :=
  mk_probe_obs (pr_failed s || failed_probe e)
               (pr_active s || is_fork e || is_driver_call e).

Definition probe_X (_ : abnormal) (s : probe_obs) : Prop :=
  pr_failed s = false.

(** *** Spawning and reaping *)

(** Observer: the children forked, whether a fork failed and whether
    another fork followed, the processes killed and waited for, and
    whether the driver made a call. *)
Record spawn_obs : Type := mk_spawn_obs {
  so_forked : list Z;
  so_failed : bool;
  so_forked_again : bool;
  so_killed : list Z;
  so_waited : list Z;
  so_drove : bool
}.

Definition spawn_step (s : spawn_obs) (e : event) : spawn_obs :=
  match e with
  | EvFork pid =>
    mk_spawn_obs (if 0 <? pid then so_forked s ++ [pid] else so_forked s)
                 (so_failed s || (pid <? 0))
                 (so_forked_again s || so_failed s)
                 (so_killed s) (so_waited s) (so_drove s)
  | EvKill pid =>
    mk_spawn_obs (so_forked s) (so_failed s) (so_forked_again s)
                 (so_killed s ++ [pid]) (so_waited s) (so_drove s)
  | EvWaitpid pid =>
    mk_spawn_obs (so_forked s) (so_failed s) (so_forked_again s)
                 (so_killed s) (so_waited s ++ [pid]) (so_drove s)
  | EvLseek _ _ _ | EvWrite _ _ | EvFallocate _ _ _ _ =>
    mk_spawn_obs (so_forked s) (so_failed s) (so_forked_again s)
                 (so_killed s) (so_waited s) true
  | _ => s
  end.

Definition spawn_X (_ : abnormal) (s : spawn_obs) : Prop :=
  so_failed s = false.

Definition spawn_start : spawn_obs := mk_spawn_obs [] false false [] [] false.

(** The same, read off a trace. *)
Definition failed_fork (e : event) : bool :=
  match e with EvFork pid => pid <? 0 | _ => false end.

Fixpoint forked_of (t : list event) : list Z :=
  match t with
  | [] => []
  | EvFork pid :: t' => if 0 <? pid then pid :: forked_of t' else forked_of t'
  | _ :: t' => forked_of t'
  end.

Fixpoint killed_of (t : list event) : list Z :=
  match t with
  | [] => []
  | EvKill pid :: t' => pid :: killed_of t'
  | _ :: t' => killed_of t'
  end.

Fixpoint waited_of (t : list event) : list Z :=
  match t with
  | [] => []
  | EvWaitpid pid :: t' => pid :: waited_of t'
  | _ :: t' => waited_of t'
  end.

(** No fork follows a failed one. *)
Definition no_fork_after_failure (t : list event) : Prop :=
  forall pre pid post,
    t = pre ++ EvFork pid :: post -> pid < 0 ->
    Forall (fun e => is_fork e = false) post.

(** C2 as the specification states it: a run in which a fork failed does
    not end in failure. *)
Definition partial_fanout_not_fatal (r : res exit_code) : Prop :=
  forall rc w t,
    r = Ret rc w t -> existsb failed_fork t = true -> rc <> EXIT_FAILURE.

(** *** The extent query cycle *)

Definition is_ioctl (e : event) : bool :=
  match e with EvIoctl _ _ _ _ _ => true | _ => false end.

Definition is_pr_fail (e : event) : bool :=
  match e with EvPrFail => true | _ => false end.

(** Every populate call asks for as many extents as the discovery call
    before it reported, with the mapped count reset. *)
Definition capacity_matches_discovery (t : list event) : Prop :=
  forall pre fd req r k post,
    t = pre ++ EvIoctl Populate fd req r k :: post ->
    fm_mapped_extents req = 0 /\
    exists pre0 fd0 req0 r0 mid,
      pre = pre0 ++ EvIoctl Discovery fd0 req0 r0 (fm_extent_count req) :: mid /\
      0 <= rv r0 /\
      Forall (fun e => is_ioctl e = false) mid.

(** Observer: the count the last discovery call reported, and whether
    every populate call so far asked for exactly that. *)
Record query_obs : Type := mk_query_obs {
  qo_reported : option Z;
  qo_ok : bool
}.

Definition query_step (s : query_obs) (e : event) : query_obs :=
  match e with
  | EvIoctl Discovery _ _ r k =>
    mk_query_obs (if rv r <? 0 then None else Some k) (qo_ok s)
  | EvIoctl Populate _ req _ _ =>
    mk_query_obs None
      (qo_ok s &&
       match qo_reported s with
       | Some k => (fm_extent_count req =? k) && (fm_mapped_extents req =? 0)
       | None => false
       end)
  | EvIoctl Probe _ _ _ _ => mk_query_obs None (qo_ok s)
  | _ => s
  end.

Definition query_X (_ : abnormal) (s : query_obs) : Prop := qo_ok s = true.

(** The populate calls, the loads and the stores of a trace. *)
Fixpoint populates_of (t : list event) : list (fiemap * sysret * Z) :=
  match t with
  | [] => []
  | EvIoctl Populate _ req r k :: t' => (req, r, k) :: populates_of t'
  | _ :: t' => populates_of t'
  end.

Fixpoint loads_of (t : list event) : list (nat * Z) :=
  match t with
  | [] => []
  | EvLoad i v :: t' => (i, v) :: loads_of t'
  | _ :: t' => loads_of t'
  end.

Fixpoint stores_of (t : list event) : list (nat * Z) :=
  match t with
  | [] => []
  | EvStore i v :: t' => (i, v) :: stores_of t'
  | _ :: t' => stores_of t'
  end.

Record cycle_obs : Type := mk_cycle_obs {
  cy_populates : list (fiemap * sysret * Z);
  cy_loads : list (nat * Z);
  cy_stores : list (nat * Z);
  cy_failed : bool
}.

Definition cycle_step (s : cycle_obs) (e : event) : cycle_obs :=
  match e with
  | EvIoctl Populate _ req r k =>
    mk_cycle_obs (cy_populates s ++ [(req, r, k)]) (cy_loads s)
                 (cy_stores s) (cy_failed s)
  | EvLoad i v =>
    mk_cycle_obs (cy_populates s) (cy_loads s ++ [(i, v)]) (cy_stores s)
                 (cy_failed s)
  | EvStore i v =>
    mk_cycle_obs (cy_populates s) (cy_loads s) (cy_stores s ++ [(i, v)])
                 (cy_failed s)
  | EvPrFail =>
    mk_cycle_obs (cy_populates s) (cy_loads s) (cy_stores s) true
  | _ => s
  end.

Definition cycle_X (_ : abnormal) (_ : cycle_obs) : Prop := True.

(** How a cycle of the worker that returned has gone: either it stopped
    before the populate call, or the populate call failed and the failure
    was reported, or the populate call succeeded, whatever count it
    reported, and the worker counted the cycle in its slot. *)
Definition cycle_outcome (slot : nat) (r : option Z) (t : list event)
  : Prop :=
  (populates_of t = [] /\ r = None /\ stores_of t = []) \/
  (exists req x k,
     populates_of t = [(req, x, k)] /\ rv x < 0 /\
     r = None /\ existsb is_pr_fail t = true /\ stores_of t = []) \/
  (exists req x k c v,
     populates_of t = [(req, x, k)] /\ 0 <= rv x /\
     r = Some c /\ existsb is_pr_fail t = false /\
     loads_of t = [(slot, v)] /\ stores_of t = [(slot, incr64 v)]).

(** C1 as the specification states it: a populate call that reports more
    extents than were asked for makes the cycle fail. *)
Definition fails_closed (r : res (option Z)) : Prop :=
  forall req x k,
    In (req, x, k) (populates_of (trace_of r)) ->
    0 <= rv x -> fm_extent_count req < k ->
    (exists w t, r = Ret None w t) /\
    existsb is_pr_fail (trace_of r) = true.

(** The file is empty at the discovery call of the first cycle and has
    one extent by the time of the populate call. *)
Definition growing_file : oracle :=
  with_ioctl (calm 40)
    (fun t _ => if Nat.ltb t 3 then (sys_ok 0, 0) else (sys_ok 0, 1)).

(** The probe fails with "operation not supported". *)
Definition no_fiemap : oracle :=
  with_ioctl (calm 40) (fun _ _ => (sys_fail EOPNOTSUPP, 0)).

(** The first fork succeeds, the second fails. *)
Definition second_fork_fails : oracle :=
  with_fork (calm 40) (fun t => if Nat.ltb t 7 then 1000 + Z.of_nat t else -1).

(** One run of the stressor with the limits of stress-ng.h. *)
Definition run_stressor (o : oracle) (fuel : nat) : res exit_code :=
  stress_fiemap MiB (16 * MiB) (2 ^ 63 - 1) sample_exit_status true o fuel
    default_settings one_instance fresh_world.

(** *** Who writes the counters *)

(** [fork] returned 0: the process is a child from here on. *)
Definition is_fork_child (e : event) : bool :=
  match e with EvFork pid => pid =? 0 | _ => false end.

(** Every store to the counter array is made by a child, to the slot whose
    index is the number of children forked before it. *)
Definition stores_by_owner (t : list event) : Prop :=
  forall pre i v post,
    t = pre ++ EvStore i v :: post ->
    existsb is_fork_child pre = true /\
    i = length (forked_of pre) /\
    (i < MAX_FIEMAP_PROCS)%nat.

(** Observer: the children forked so far, whether the process is a child,
    and whether every store so far was the owner's. *)
Record owner_obs : Type := mk_owner_obs {
  ow_forks : nat;
  ow_child : bool;
  ow_ok : bool
}.

Definition owner_step (s : owner_obs) (e : event) : owner_obs :=
  match e with
  | EvFork pid =>
    mk_owner_obs (if 0 <? pid then S (ow_forks s) else ow_forks s)
                 (ow_child s || (pid =? 0)) (ow_ok s)
  | EvStore i _ =>
    mk_owner_obs (ow_forks s) (ow_child s)
                 (ow_ok s && ow_child s && Nat.eqb i (ow_forks s)
                  && Nat.ltb i MAX_FIEMAP_PROCS)
  | _ => s
  end.

Definition owner_X (_ : abnormal) (s : owner_obs) : Prop := ow_ok s = true.

(** C5 as the specification states it, for the driver: an iteration that
    completes has incremented a slot. *)
Definition driver_iteration_increments (r : res ctl) : Prop :=
  forall c w t, r = Ret c w t -> stores_of t <> [].

(** The values published through [set_counter]. *)
Fixpoint published_of (t : list event) : list Z :=
  match t with
  | [] => []
  | EvSetCounter v :: t' => v :: published_of t'
  | _ :: t' => published_of t'
  end.

Record tally_obs : Type := mk_tally_obs {
  ta_loads : list (nat * Z);
  ta_published : list Z
}.

Definition tally_step (s : tally_obs) (e : event) : tally_obs :=
  match e with
  | EvLoad i v => mk_tally_obs (ta_loads s ++ [(i, v)]) (ta_published s)
  | EvSetCounter v => mk_tally_obs (ta_loads s) (ta_published s ++ [v])
  | _ => s
  end.

Definition tally_X (_ : abnormal) (_ : tally_obs) : Prop := True.

(** What [stress_fiemap_count] does when it returns: it loads the four
    slots in order, publishes their sum modulo 2^64 once, and stores
    nothing. *)
Definition count_outcome (t : list event) : Prop :=
  exists v0 v1 v2 v3,
    loads_of t = [(0%nat, v0); (1%nat, v1); (2%nat, v2); (3%nat, v3)] /\
    published_of t = [wrap64 (v0 + v1 + v2 + v3)] /\
    stores_of t = [].

(** *** Aggregate progress *)

Definition sumZ (l : list Z) : Z := foldr Z.add 0 l.
Arguments sumZ : simpl never.

(** The number of increments other processes made, as this process saw
    them. *)
Fixpoint remote_increments (t : list event) : Z :=
  match t with
  | [] => 0
  | EvRemoteIncr _ :: t' => 1 + remote_increments t'
  | _ :: t' => remote_increments t'
  end.

(** Observer: the increments seen so far, the value published last, and
    whether every value published while fewer than 2^64 increments had
    happened was at least the one before it. *)
Record progress_obs : Type := mk_progress_obs {
  pg_remote : Z;
  pg_last : Z;
  pg_ok : bool
}.

Definition progress_step (s : progress_obs) (e : event) : progress_obs :=
  match e with
  | EvRemoteIncr _ => mk_progress_obs (pg_remote s + 1) (pg_last s) (pg_ok s)
  | EvSetCounter v =>
    mk_progress_obs (pg_remote s) v
      (pg_ok s && ((2 ^ 64 <=? pg_remote s) || (pg_last s <=? v)))
  | _ => s
  end.

Definition progress_X (_ : abnormal) (s : progress_obs) : Prop :=
  pg_ok s = true.

(** Workers 0 and 1 complete a cycle between any two loads of the
    driver. *)
Definition busy_workers : oracle :=
  with_interference (calm 40) (fun _ => [0%nat; 1%nat]).

(** Every write fails with EIO. *)
Definition io_error : oracle := with_write (calm 40) (fun _ => sys_fail 5).

(** The world after one more question to the oracle. *)
Definition tick (w : world) : world :=
  mk_world (S (clock w)) (errno w) (counters w).

(** *** Invariants used in the proofs *)

(** What the supervisor has done when it is in the spawn loop with [pids]
    forked so far. *)
Definition spawning (pids : list Z) (s : spawn_obs) : Prop :=
  so_forked s = pids /\ so_failed s = false /\ so_forked_again s = false /\
  so_killed s = [] /\ so_waited s = [] /\ so_drove s = false.

(** The state of the observer in worker [slot]. *)
Definition in_worker (slot : nat) (s : owner_obs) : Prop :=
  ow_forks s = slot /\ ow_child s = true /\ ow_ok s = true /\
  (slot < MAX_FIEMAP_PROCS)%nat.

(** The state of the observer in the supervisor after [n] forks. *)
Definition in_supervisor (n : nat) (s : owner_obs) : Prop :=
  ow_forks s = n /\ ow_child s = false /\ ow_ok s = true.

(** The invariant of the supervisor: the counters are as many as the
    increments seen allow, and the value published last is at most their
    sum. *)
Definition progress_inv (m : list Z) (s : progress_obs) : Prop :=
  pg_ok s = true /\
  (pg_remote s < 2 ^ 64 ->
   length m = MAX_FIEMAP_PROCS /\ Forall (fun v => 0 <= v) m /\
   sumZ m <= pg_remote s /\ pg_last s <= sumZ m).

(** The invariant of the summing loop, at index [i] with the sum [c] so
    far. *)
Definition summing_inv (i : nat) (c : Z) (m : list Z) (s : progress_obs)
  : Prop :=
  pg_ok s = true /\
  (pg_remote s < 2 ^ 64 ->
   length m = MAX_FIEMAP_PROCS /\ Forall (fun v => 0 <= v) m /\
   sumZ m <= pg_remote s /\
   0 <= c <= sumZ (take i m) /\ pg_last s <= c + sumZ (drop i m)).

Definition progress_ok (w : world) (s : progress_obs) : Prop :=
  progress_inv (counters w) s /\ 0 <= pg_remote s.




(** ** The length handed to the driver *)

(** Observer: the trace itself. *)
Definition log_step (s : list event) (e : event) : list event := s ++ [e].

(** The world in which [stress_fiemap] calls the driver: the counters
    are mapped and cleared, and thirteen questions have been put to the
    environment ([mmap], the directory, the file name, [open], the probe,
    and four times [keep_stressing] and [fork]). *)
Definition driver_world (w : world) : world :=
  mk_world (13 + clock w) (errno w) zero_counters.

(** The descriptor [open] returned. *)
Definition driver_fd (o : oracle) (w : world) : Z :=
  rv (o_open o (3 + clock w)).

(** The trace [t] of a run of [stress_fiemap] started in [w] contains the
    run of the driver on the opened file with the length [len]; all the
    seeks, writes and hole punches of [t] are the driver's. *)
Definition hands_over (HAVE_PUNCH_HOLE : bool) (o : oracle) (fuel : nat)
    (w : world) (len : Z) (t : list event) : Prop :=
  exists pre post,
    t = pre
        ++ trace_of (stress_fiemap_writer HAVE_PUNCH_HOLE o fuel
                       (driver_fd o w) len (driver_world w))
        ++ post /\
    Forall (fun e => is_driver_call e = false) pre /\
    Forall (fun e => is_driver_call e = false) post.

Definition handover_X (HAVE_PUNCH_HOLE : bool) (o : oracle) (fuel : nat)
    (w : world) (len : Z) (_ : abnormal) (s : list event) : Prop :=
  existsb is_driver_call s = true ->
  hands_over HAVE_PUNCH_HOLE o fuel w len s.

(** No seek, write or hole punch so far. *)
Definition no_driver_call (s : list event) : Prop :=
  Forall (fun e => is_driver_call e = false) s.

(** ** What must come next *)

(** A rule says, from the events so far (the most recent first), whether
    the next event is allowed. *)
Definition obeys (rule : list event -> event -> bool) (t : list event)
  : Prop :=
  forall pre e post, t = pre ++ e :: post -> rule (rev pre) e = true.

(** Observer: the events so far, the most recent first, and whether the
    rule was kept. *)
Definition hist_step (rule : list event -> event -> bool)
    (s : list event * bool) (e : event) : list event * bool :=
  (e :: fst s, snd s && rule (fst s) e).

Definition hist_X (_ : abnormal) (s : list event * bool) : Prop :=
  snd s = true.

(** *** After a write of the driver *)

Definition is_keep_stressing (e : event) : bool :=
  match e with EvKeepStressing _ => true | _ => false end.

(** The first event of [stress_fiemap_count]: what other processes did
    to the counters, or the load of slot 0. *)
Definition starts_count (e : event) : bool :=
  match e with
  | EvRemoteIncr _ | EvLoad O _ => true
  | _ => false
  end.

Definition is_lseek_on (fd : Z) (e : event) : bool :=
  match e with EvLseek fd' _ _ => fd' =? fd | _ => false end.

Definition is_close_of (fd : Z) (e : event) : bool :=
  match e with EvClose fd' => fd' =? fd | _ => false end.

(** What the driver on [fd] does after a write.
    - The write failed with ENOSPC: [continue]; the next thing is the loop
      condition, and after it either the seek of the next pass or, when
      told to stop, the [close].
    - It failed with EAGAIN or EINTR, or it succeeded: the pass goes on
      with [stress_fiemap_count].
    - It failed otherwise: the failure is reported, the descriptor is
      closed, and nothing follows. *)
Definition write_rule (fd : Z) (h : list event) (e : event) : bool :=
  match h with
  | EvWrite _ r :: _ =>
    if rv r <? 0 then
      if err r =? ENOSPC then is_keep_stressing e
      else if (err r =? EAGAIN) || (err r =? EINTR) then starts_count e
      else is_pr_fail e
    else starts_count e
  | EvKeepStressing b :: EvWrite _ _ :: _ =>
    if b then is_lseek_on fd e else is_close_of fd e
  | EvPrFail :: _ => is_close_of fd e
  | EvClose _ :: _ => false
  | _ => true
  end.

(** Nothing is owed at the end of a run: it does not end on a write that
    calls for the loop condition or for the report, nor before the
    [close] that a report or a stop after such a write calls for. *)
Definition write_done (h : list event) : bool :=
  match h with
  | EvWrite _ r :: _ =>
    if rv r <? 0 then
      if err r =? ENOSPC then false
      else (err r =? EAGAIN) || (err r =? EINTR)
    else true
  | EvKeepStressing false :: EvWrite _ _ :: _ => false
  | EvPrFail :: _ => false
  | _ => true
  end.

Definition write_X (_ : abnormal) (s : list event * bool) : Prop :=
  snd s = true /\ write_done (fst s) = true.

(** Histories after which [write_rule] allows anything. *)
Definition settled (h : list event) : bool :=
  match h with
  | EvWrite _ _ :: _ | EvPrFail :: _ | EvClose _ :: _ => false
  | EvKeepStressing _ :: EvWrite _ _ :: _ => false
  | _ => true
  end.

(** Histories at the points of the driver: before a pass of the loop,
    before [stress_fiemap_count], before the loop condition and before
    the [close]. *)
Definition body_ready (fd : Z) (h : list event) : Prop :=
  forall off x, write_rule fd h (EvLseek fd off x) = true.

Definition count_ready (fd : Z) (i : nat) (h : list event) : Prop :=
  settled h = true \/
  (i = 0%nat /\ forall e, starts_count e = true -> write_rule fd h e = true).

Definition cond_ready (h : list event) : Prop :=
  settled h = true \/
  exists fd' r h0, h = EvWrite fd' r :: h0 /\ (rv r <? 0) = true /\
                   (err r =? ENOSPC) = true.

Definition close_ready (fd : Z) (h : list event) : Prop :=
  write_rule fd h (EvClose fd) = true.



(** ** Further properties of the stressor: vocabulary *)

(** *** Offsets of the write probes *)

(** The probe is written at the start of an 8 KiB block. *)
Definition seek_aligned (e : event) : Prop :=
  match e with
  | EvLseek _ off _ => off mod 8192 = 0
  | _ => True
  end.

(** The driver works on the descriptor it was given, and punches 8 KiB. *)
Definition on_descriptor (fd : Z) (e : event) : Prop :=
  match e with
  | EvLseek fd' _ _ | EvWrite fd' _ | EvClose fd' => fd' = fd
  | EvFallocate fd' _ len _ => fd' = fd /\ len = 8192
  | _ => True
  end.

Definition is_usleep (e : event) : bool :=
  match e with EvUsleep _ => true | _ => false end.

(** Events of the driver when hole punching is compiled out. *)
Definition plain_driver_event (e : event) : bool :=
  match e with
  | EvLseek _ _ _ | EvWrite _ _ | EvPrFail | EvClose _ => true
  | _ => counting_event e
  end.

Definition all_X (_ : abnormal) (P : Prop) : Prop := P.

(** *** Processes: who returns and who exits *)

(** A computation that never calls [_exit]. *)
Definition never_exits {A} (m : M A) : Prop :=
  forall w, match m w with Exit _ _ _ => False | _ => True end.

Definition not_exit (ab : abnormal) : Prop :=
  match ab with AExit _ => False | _ => True end.

Definition quiet_step (u : unit) (_ : event) : unit := u.
Definition quiet_X (ab : abnormal) (_ : unit) : Prop := not_exit ab.

(** Observer: has this process come out of [fork] as the child. *)
Definition child_step (c : bool) (e : event) : bool := c || is_fork_child e.

Definition child_X (ab : abnormal) (c : bool) : Prop :=
  match ab with
  | AExit rc => rc = EXIT_SUCCESS /\ c = true
  | _ => True
  end.

(** *** Resources taken and given back *)

(** How many events of a trace satisfy [p]. *)
Definition tally (p : event -> bool) (t : list event) : nat :=
  length (List.filter p t).

Definition is_mmap_ok (e : event) : bool :=
  match e with EvMmap ok => ok | _ => false end.
Definition is_munmap (e : event) : bool :=
  match e with EvMunmap => true | _ => false end.
Definition is_mkdir_ok (e : event) : bool :=
  match e with EvTempDirMk r => 0 <=? r | _ => false end.
Definition is_rmdir (e : event) : bool :=
  match e with EvTempDirRm => true | _ => false end.
Definition is_open_ok (e : event) : bool :=
  match e with EvOpen r => 0 <=? rv r | _ => false end.
Definition is_unlink (e : event) : bool :=
  match e with EvUnlink => true | _ => false end.

(** Observer: how often a resource was acquired and released. *)
Definition pair_step (acq rel : event -> bool) (s : nat * nat) (e : event)
  : nat * nat :=
  ((fst s + Nat.b2n (acq e))%nat, (snd s + Nat.b2n (rel e))%nat).

Definition any_X {S : Type} (_ : abnormal) (_ : S) : Prop := True.

(** A resource that only the set-up and the tear-down of the supervisor
    touch. *)
Definition supervisor_only (p : event -> bool) : Prop :=
  forall e, spawn_event e || writer_event e || reap_event e = true ->
            p e = false.

(** *** The workers behind the driver *)

(** Observer: how many children were forked, and was every call of the
    driver made with all [MAX_FIEMAP_PROCS] of them in place. *)
Record crew_obs : Type := mk_crew_obs {
  cw_forked : nat;
  cw_ok : bool
}.

Definition crew_step (s : crew_obs) (e : event) : crew_obs :=
  match e with
  | EvFork pid =>
    mk_crew_obs (if 0 <? pid then S (cw_forked s) else cw_forked s) (cw_ok s)
  | EvLseek _ _ _ | EvWrite _ _ | EvFallocate _ _ _ _ =>
    mk_crew_obs (cw_forked s)
                (cw_ok s && Nat.eqb (cw_forked s) MAX_FIEMAP_PROCS)
  | _ => s
  end.

Definition crew_X (_ : abnormal) (s : crew_obs) : Prop := cw_ok s = true.

(** Every call of the driver has [MAX_FIEMAP_PROCS] forked children before
    it. *)
Definition driver_after_full_crew (t : list event) : Prop :=
  forall pre e post,
    t = pre ++ e :: post -> is_driver_call e = true ->
    length (forked_of pre) = MAX_FIEMAP_PROCS.

(** *** The exit status *)

Definition is_run_state (e : event) : bool :=
  match e with EvProcState STRESS_STATE_RUN => true | _ => false end.

Record status_obs : Type := mk_status_obs {
  st_run : bool;
  st_failed : bool;
  st_fatal : bool
}.

Definition status_step (s : status_obs) (e : event) : status_obs :=
  mk_status_obs (st_run s || is_run_state e)
                (st_failed s || failed_fork e)
                (st_fatal s || is_fatal_write e).

Definition status_start : status_obs := mk_status_obs false false false.

(** *** The buffer of a worker *)

Definition is_calloc (e : event) : bool :=
  match e with EvCalloc _ => true | _ => false end.
Definition is_calloc_ok (e : event) : bool :=
  match e with EvCalloc ok => ok | _ => false end.
Definition is_free (e : event) : bool :=
  match e with EvFree => true | _ => false end.

(** The calls that are handed the [fiemap] buffer. *)
Definition uses_buffer (e : event) : bool :=
  match e with
  | EvIoctl Discovery _ _ _ _ | EvIoctl Populate _ _ _ _ | EvRealloc _ _
  | EvMemsetExtents _ | EvFree => true
  | _ => false
  end.

(** A buffer is asked for only when none is held; it is used, and freed,
    only while exactly one is held. *)
Definition buffer_discipline (t : list event) : Prop :=
  forall pre e post,
    t = pre ++ e :: post ->
    (is_calloc e = true -> tally is_calloc_ok pre = tally is_free pre) /\
    (uses_buffer e = true ->
     tally is_calloc_ok pre = S (tally is_free pre)).

Record heap_obs : Type := mk_heap_obs {
  hp_allocs : nat;
  hp_frees : nat;
  hp_ok : bool
}.

Definition heap_step (s : heap_obs) (e : event) : heap_obs :=
  match e with
  | EvCalloc ok =>
    mk_heap_obs (if ok then S (hp_allocs s) else hp_allocs s) (hp_frees s)
                (hp_ok s && Nat.eqb (hp_allocs s) (hp_frees s))
  | EvFree =>
    mk_heap_obs (hp_allocs s) (S (hp_frees s))
                (hp_ok s && Nat.eqb (hp_allocs s) (S (hp_frees s)))
  | _ =>
    if uses_buffer e
    then mk_heap_obs (hp_allocs s) (hp_frees s)
                     (hp_ok s && Nat.eqb (hp_allocs s) (S (hp_frees s)))
    else s
  end.

Definition heap_X (_ : abnormal) (s : heap_obs) : Prop :=
  hp_ok s = true /\ hp_allocs s = hp_frees s.

Definition heap_start : heap_obs := mk_heap_obs 0 0 true.

(** *** Flushing the file *)

Definition is_fdatasync (e : event) : bool :=
  match e with EvFdatasync _ => true | _ => false end.

(** Completed cycles (each stores its counter once) between two flushes
    of a worker. *)
Definition FLUSH_PERIOD : nat := Z.to_nat (COUNT_MAX + 2).

(** The first flush comes after 3 to [FLUSH_PERIOD] completed cycles;
    from then on there is a flush every [FLUSH_PERIOD] cycles. *)
Definition flush_cadence (t : list event) : Prop :=
  (forall pre fd post,
     t = pre ++ EvFdatasync fd :: post ->
     existsb is_fdatasync pre = false ->
     (3 <= length (stores_of pre) <= FLUSH_PERIOD)%nat) /\
  (forall pre fd mid fd' post,
     t = pre ++ EvFdatasync fd :: mid ++ EvFdatasync fd' :: post ->
     existsb is_fdatasync mid = false ->
     length (stores_of mid) = FLUSH_PERIOD).

Record flush_obs : Type := mk_flush_obs {
  fl_seen : bool;
  fl_stores : nat;
  fl_ok : bool
}.

Definition flush_step (s : flush_obs) (e : event) : flush_obs :=
  match e with
  | EvStore _ _ => mk_flush_obs (fl_seen s) (S (fl_stores s)) (fl_ok s)
  | EvFdatasync _ =>
    mk_flush_obs true 0
      (fl_ok s &&
       if fl_seen s then Nat.eqb (fl_stores s) FLUSH_PERIOD
       else Nat.leb 3 (fl_stores s) && Nat.leb (fl_stores s) FLUSH_PERIOD)
  | _ => s
  end.

Definition flush_X (_ : abnormal) (s : flush_obs) : Prop := fl_ok s = true.

Definition flush_start : flush_obs := mk_flush_obs false 0 true.

(** The state of the observer when the flush countdown of the worker is
    [c]. *)
Definition flush_inv (c : Z) (s : flush_obs) : Prop :=
  fl_ok s = true /\ 0 <= c - Z.of_nat (fl_stores s) <= 127 /\ c <= 129 /\
  (fl_seen s = true -> c = Z.of_nat (fl_stores s)).

(** *** The size of the buffer *)

Definition note_discovery (acc : option Z) (e : event) : option Z :=
  match e with
  | EvIoctl Discovery _ _ r k => if rv r <? 0 then None else Some k
  | _ => acc
  end.

(** The extent count the last discovery call of [pre] reported. *)
Definition last_reported (pre : list event) : option Z :=
  foldl note_discovery None pre.

(** The buffer is resized to hold the header and as many extent records
    as the discovery call reported, and that many records are cleared;
    the sizes are the mathematical ones, nothing wraps around. *)
Definition sized_by_discovery (t : list event) : Prop :=
  forall pre e post,
    t = pre ++ e :: post ->
    match e with
    | EvRealloc size _ =>
      exists k, last_reported pre = Some k /\ 0 <= k < 2 ^ 32 /\
                size = SIZEOF_FIEMAP + SIZEOF_FIEMAP_EXTENT * k
    | EvMemsetExtents n =>
      exists k, last_reported pre = Some k /\ n = SIZEOF_FIEMAP_EXTENT * k
    | _ => True
    end.

Record size_obs : Type := mk_size_obs {
  sz_reported : option Z;
  sz_ok : bool
}.

Definition size_step (s : size_obs) (e : event) : size_obs :=
  match e with
  | EvRealloc size _ =>
    mk_size_obs (sz_reported s)
      (sz_ok s &&
       match sz_reported s with
       | Some k => (0 <=? k) && (k <? 2 ^ 32) &&
                   (size =? SIZEOF_FIEMAP + SIZEOF_FIEMAP_EXTENT * k)
       | None => false
       end)
  | EvMemsetExtents n =>
    mk_size_obs (sz_reported s)
      (sz_ok s &&
       match sz_reported s with
       | Some k => n =? SIZEOF_FIEMAP_EXTENT * k
       | None => false
       end)
  | EvIoctl Discovery _ _ _ _ =>
    mk_size_obs (note_discovery (sz_reported s) e) (sz_ok s)
  | _ => s
  end.

Definition size_X (_ : abnormal) (s : size_obs) : Prop := sz_ok s = true.

(** *** What follows a failure *)

(** The first event of a trace that satisfies [p], and the events after
    it. *)
Fixpoint after_first (p : event -> bool) (t : list event)
  : option (event * list event) :=
  match t with
  | [] => None
  | e :: t' => if p e then Some (e, t') else after_first p t'
  end.

(** Observer: the same, gathered along the trace. *)
Definition after_step (p : event -> bool) (s : option (event * list event))
    (e : event) : option (event * list event) :=
  match s with
  | Some (e0, l) => Some (e0, l ++ [e])
  | None => if p e then Some (e, []) else None
  end.

Definition after_X (_ : abnormal) (s : option (event * list event)) : Prop :=
  s = None.

(** A call of the worker that failed, or the harness telling it to
    stop. *)
Definition worker_failure (e : event) : bool :=
  match e with
  | EvCalloc ok | EvRealloc _ ok | EvKeepStressing ok => negb ok
  | EvIoctl _ _ _ r _ => rv r <? 0
  | _ => false
  end.

(** Reporting and releasing the buffer. *)
Definition winds_down (e : event) : bool :=
  match e with
  | EvPrFail | EvPrErr | EvPrInfSkip | EvFree => true
  | _ => false
  end.

Definition failed_discovery (e : event) : bool :=
  match e with
  | EvIoctl Discovery _ _ r _ => rv r <? 0
  | _ => false
  end.

(** What a worker reports when its discovery call failed with [r]. *)
Definition discovery_failure_report (args : stress_args) (r : sysret)
  : list event :=
  if err r =? EOPNOTSUPP then
    if instance args =? 0 then [EvPrInfSkip] else []
  else [EvPrFail].

Definition failed_lseek (e : event) : bool :=
  match e with EvLseek _ _ r => rv r <? 0 | _ => false end.

(** Every seek fails with ESPIPE. *)
Definition seek_error : oracle :=
  let o := calm 40 in
  mk_oracle (o_mwc64 o) (o_mwc32 o) (o_keep_stressing o) (o_mmap o)
    (o_temp_dir_mk o) (o_open o) (o_ioctl o) (o_fork o)
    (fun _ => sys_fail 29)
    (o_write o) (o_fallocate o) (o_calloc o) (o_realloc o)
    (o_interference o).

(** *** The file has no name *)






(** *** Being told to stop *)

Definition stop_signal (e : event) : bool :=
  match e with EvKeepStressing b => negb b | _ => false end.

(** How a pass of the driver's loop stands to the stop signal: either
    none was given, or it was the last thing that happened and the pass
    ends in [break]. *)
Definition stopped_or_not (c : ctl) (s : option (event * list event))
  : Prop :=
  s = None \/ c = CBreak /\ s = Some (EvKeepStressing false, []).

(** *** The exit status of a run that never started *)

(** The first answer [f] gives along a trace. *)
Fixpoint first_some {A} (f : event -> option A) (t : list event)
  : option A :=
  match t with
  | [] => None
  | e :: t' => match f e with Some a => Some a | None => first_some f t' end
  end.

Definition is_mmap_failed (e : event) : bool :=
  match e with EvMmap ok => negb ok | _ => false end.

Definition mkdir_failure (e : event) : option Z :=
  match e with
  | EvTempDirMk ret => if ret <? 0 then Some ret else None
  | _ => None
  end.

Definition open_failure (e : event) : option sysret :=
  match e with
  | EvOpen x => if rv x <? 0 then Some x else None
  | _ => None
  end.

(** The status of a run that ended during set-up, read off its trace. *)
Definition setup_status (exit_status : Z -> exit_code) (t : list event)
  : exit_code :=
  if existsb is_mmap_failed t then EXIT_NO_RESOURCE
  else match first_some mkdir_failure t with
       | Some ret => exit_status (- ret)
       | None =>
         match first_some open_failure t with
         | Some x => exit_status (err x)
         | None => EXIT_NOT_IMPLEMENTED
         end
       end.

Definition keep_first {A} (s n : option A) : option A :=
  match s with Some a => Some a | None => n end.

Record setup_obs : Type := mk_setup_obs {
  su_run : bool;
  su_nomap : bool;
  su_mkdir : option Z;
  su_open : option sysret
}.

Definition setup_step (s : setup_obs) (e : event) : setup_obs :=
  mk_setup_obs (su_run s || is_run_state e)
               (su_nomap s || is_mmap_failed e)
               (keep_first (su_mkdir s) (mkdir_failure e))
               (keep_first (su_open s) (open_failure e)).

Definition setup_start : setup_obs := mk_setup_obs false false None None.

(** The same status, read off the summary. *)
Definition setup_status_of (exit_status : Z -> exit_code) (s : setup_obs)
  : exit_code :=
  if su_nomap s then EXIT_NO_RESOURCE
  else match su_mkdir s with
       | Some ret => exit_status (- ret)
       | None =>
         match su_open s with
         | Some x => exit_status (err x)
         | None => EXIT_NOT_IMPLEMENTED
         end
       end.

(** The temporary directory cannot be made: no space left. *)
Definition no_space : oracle :=
  let o := calm 40 in
  mk_oracle (o_mwc64 o) (o_mwc32 o) (o_keep_stressing o) (o_mmap o)
    (fun _ => - ENOSPC) (o_open o) (o_ioctl o) (o_fork o) (o_lseek o)
    (o_write o) (o_fallocate o) (o_calloc o) (o_realloc o)
    (o_interference o).

(** *** The skip notice *)

Definition is_inf_skip (e : event) : bool :=
  match e with EvPrInfSkip => true | _ => false end.

Definition no_skip_notice (e : event) : bool := negb (is_inf_skip e).

(** *** Undefined behaviour *)

(** The run did not end in an access outside the counter array. *)
Definition in_bounds {A} (r : res A) : Prop :=
  match r with Undef BadSlot _ _ => False | _ => True end.

(** The run did not end in undefined behaviour of any kind. *)
Definition well_defined {A} (r : res A) : Prop :=
  match r with Undef _ _ _ => False | _ => True end.

(** What is asked of an abnormal end: never an access out of bounds; a
    division by zero only when [allow_div] lets it pass. *)
Definition undef_X (allow_div : bool) (ab : abnormal) (_ : unit) : Prop :=
  match ab with
  | AUndef BadSlot => False
  | AUndef DivisionByZero => allow_div = true
  | _ => True
  end.

(** The counter array is mapped: it has its [MAX_FIEMAP_PROCS] slots. *)
Definition mapped (w : world) : Prop :=
  length (counters w) = MAX_FIEMAP_PROCS.

(** *** The steps of a worker's cycle *)

(** What a worker does next in a cycle.
    - The discovery call reported [k] extents and [keep_stressing] let
      the worker go on: the next call is the [realloc], to exactly the
      header and [k] extent records.
    - The [realloc] succeeded: the extent records are cleared next, all
      of them.
    - The records are cleared: the populate call follows, with room for
      as many extents as were cleared. *)
Definition size_rule (h : list event) (e : event) : bool :=
  match h with
  | EvKeepStressing true :: EvIoctl Discovery _ _ _ k :: _ =>
    match e with
    | EvRealloc size _ => size =? SIZEOF_FIEMAP + SIZEOF_FIEMAP_EXTENT * k
    | _ => false
    end
  | EvRealloc size true :: _ =>
    match e with
    | EvMemsetExtents n => n =? size - SIZEOF_FIEMAP
    | _ => false
    end
  | EvMemsetExtents n :: _ =>
    match e with
    | EvIoctl Populate _ req _ _ =>
      SIZEOF_FIEMAP_EXTENT * fm_extent_count req =? n
    | _ => false
    end
  | _ => true
  end.

(** Histories after which [size_rule] allows anything. *)
Definition idle (h : list event) : bool :=
  match h with
  | EvKeepStressing true :: EvIoctl Discovery _ _ _ _ :: _ => false
  | EvRealloc _ true :: _ => false
  | EvMemsetExtents _ :: _ => false
  | _ => true
  end.

Definition steps_X (_ : abnormal) (s : list event * bool) : Prop :=
  snd s = true /\ idle (fst s) = true.

(** The history between two cycles: nothing is pending, nor will be
    after the loop condition. *)
Definition between_cycles (h : list event) : Prop :=
  idle h = true /\ forall b, idle (EvKeepStressing b :: h) = true.

(** *** A flush that is due *)

(** Completed cycles since the last flush, read off the events so far
    (the most recent first). *)
Fixpoint recent_stores (h : list event) : nat :=
  match h with
  | [] => 0
  | EvStore _ _ :: h' => S (recent_stores h')
  | EvFdatasync _ :: _ => 0
  | _ :: h' => recent_stores h'
  end.

(** When [FLUSH_PERIOD] cycles have completed since the last flush, the
    next thing the worker does is the flush. *)
Definition flush_due_rule (h : list event) (e : event) : bool :=
  negb (Nat.eqb (recent_stores h) FLUSH_PERIOD) || is_fdatasync e.

Definition due_X (_ : abnormal) (s : list event * bool) : Prop :=
  snd s = true /\ (recent_stores (fst s) < FLUSH_PERIOD)%nat.

(** The state of the observer when the flush countdown of the worker is
    [c]. *)
Definition due_inv (c : Z) (s : list event * bool) : Prop :=
  snd s = true /\ Z.of_nat (recent_stores (fst s)) <= c <= 129.


(** * Proofs *)

(** ** Unfolding the bounded loops *)

Lemma count_loop_0 o i c : count_loop o 0 i c = mret c.
Proof. reflexivity. Qed.

Lemma count_loop_S o k i c :
  count_loop o (S k) i c
  = (v ← load o i; count_loop o k (S i) (wrap64 (c + v))).
Proof. reflexivity. Qed.

Lemma spawn_loop_0 o fuel args fd n pids rc :
  spawn_loop o 0 fuel args fd n pids rc = mret (n, pids, None).
Proof. reflexivity. Qed.

Lemma spawn_loop_S o k fuel args fd n pids rc :
  spawn_loop o (S k) fuel args fd n pids rc
  = (keep_stressing o ≫= λ keep : bool,
     if negb keep then mret (n, pids, Some EXIT_SUCCESS) else
     pid ← stress_fiemap_spawn o fuel args n fd;
     if pid <? 0 then mret (n, pids ++ [pid], Some rc)
     else spawn_loop o k fuel args fd (S n) (pids ++ [pid]) rc).
Proof. reflexivity. Qed.

(** ** Rules of the calculus *)

Section Rules.

Context {S : Type}.
Variable step : S -> event -> S.
Variable X : abnormal -> S -> Prop.

Lemma observe_app s t1 t2 :
  observe step s (t1 ++ t2) = observe step (observe step s t1) t2.
Proof. apply foldl_app. Qed.

Lemma observe_fmap_ignored {B} (f : B -> event) (l : list B) s :
  (forall s' x, step s' (f x) = s') -> observe step s (f <$> l) = s.
Proof.
  intros Hf. induction l as [|x l IH]; [done|].
  unfold observe. simpl. rewrite Hf. apply IH.
Qed.

Lemma wp_ret {A} (a : A) Q w s : Q a w s -> wp step X (mret a) Q w s.
Proof. done. Qed.

Lemma wp_bind {A B} (m : M A) (f : A -> M B) Q w s :
  wp step X m (fun a w' s' => wp step X (f a) Q w' s') w s -> wp step X (m ≫= f) Q w s.
Proof.
  unfold wp, mbind, M_bind, bind.
  destruct (m w) as [a w1 t1| | |]; try done.
  destruct (f a w1); simpl; by rewrite observe_app.
Qed.

Lemma wp_mono {A} (m : M A) (Q Q' : A -> world -> S -> Prop) w s :
  wp step X m Q w s -> (forall a w' s', Q a w' s' -> Q' a w' s') -> wp step X m Q' w s.
Proof. unfold wp. destruct (m w); auto. Qed.

Lemma wp_emit e Q w s : Q tt w (step s e) -> wp step X (emit e) Q w s.
Proof. done. Qed.

Lemma wp_emit_all t Q w s : Q tt w (observe step s t) -> wp step X (emit_all t) Q w s.
Proof. done. Qed.

Lemma wp_ask {A} (q : nat -> A) Q w s :
  Q (q (clock w)) (mk_world (Datatypes.S (clock w)) (errno w) (counters w)) s ->
  wp step X (ask q) Q w s.
Proof. done. Qed.

Lemma wp_get_errno Q w s : Q (errno w) w s -> wp step X get_errno Q w s.
Proof. done. Qed.

Lemma wp_set_errno e Q w s :
  Q tt (mk_world (clock w) e (counters w)) s -> wp step X (set_errno e) Q w s.
Proof. done. Qed.

Lemma wp_get_counters Q w s : Q (counters w) w s -> wp step X get_counters Q w s.
Proof. done. Qed.

Lemma wp_set_counters m Q w s :
  Q tt (mk_world (clock w) (errno w) m) s -> wp step X (set_counters m) Q w s.
Proof. done. Qed.

Lemma wp_undefined {A} why (Q : A -> world -> S -> Prop) w s :
  X (AUndef why) s -> wp step X (undefined why) Q w s.
Proof. done. Qed.

Lemma wp_out_of_fuel {A} (Q : A -> world -> S -> Prop) w s :
  X AFuel s -> wp step X out_of_fuel Q w s.
Proof. done. Qed.

Lemma wp_exit {A} rc (Q : A -> world -> S -> Prop) w s :
  X (AExit rc) s -> wp step X (_exit rc) Q w s.
Proof. done. Qed.

End Rules.

Arguments wp {S} step X {A} m Q w s : simpl never.

(** One step of symbolic execution. *)
Ltac wp_step :=
  lazymatch goal with
  | |- wp _ _ (mbind _ _) _ _ _ => apply wp_bind
  | |- wp _ _ (mret _) _ _ _ => apply wp_ret
  | |- wp _ _ (emit _) _ _ _ => apply wp_emit
  | |- wp _ _ (emit_all _) _ _ _ => apply wp_emit_all
  | |- wp _ _ (ask _) _ _ _ => apply wp_ask
  | |- wp _ _ get_errno _ _ _ => apply wp_get_errno
  | |- wp _ _ (set_errno _) _ _ _ => apply wp_set_errno
  | |- wp _ _ get_counters _ _ _ => apply wp_get_counters
  | |- wp _ _ (set_counters _) _ _ _ => apply wp_set_counters
  | |- wp _ _ (undefined _) _ _ _ => apply wp_undefined
  | |- wp _ _ out_of_fuel _ _ _ => apply wp_out_of_fuel
  | |- wp _ _ (_exit _) _ _ _ => apply wp_exit
  | |- wp _ _ (count_loop _ (S _) _ _) _ _ _ => rewrite count_loop_S
  | |- wp _ _ (count_loop _ O _ _) _ _ _ => rewrite count_loop_0
  | |- wp _ _ (if ?b then _ else _) _ _ _ =>
    first [ match goal with
            | H : b = true |- _ => rewrite H
            | H : b = false |- _ => rewrite H
            end
          | destruct b eqn:? ]
  | |- wp _ _ (match ?x with _ => _ end) _ _ _ =>
    first [ match goal with H : x = _ |- _ => rewrite H end
          | destruct x eqn:? ]
  | |- wp _ _ (let '(_, _) := ?x in _) _ _ _ => destruct x eqn:?
  end;
  cbn [clock errno counters fst snd].

(** Unfold the calls that are not loops. *)
Ltac wp_unfold :=
  lazymatch goal with
  | |- wp _ _ ?m _ _ _ =>
    first
      [ progress unfold keep_stressing, stress_mwc64, stress_mwc32, set_counter,
          pr_fail, pr_err, pr_inf_skip, stress_set_proc_state, shim_usleep,
          close, load, store, lseek, write, shim_fallocate, ioctl_fiemap,
          syscall, calloc, realloc, free, fdatasync, fork, mmap,
          stress_temp_dir_mk_args, open
      | fail 1 ]
  end.

Ltac wp_go := repeat first [wp_step | wp_unfold].

(** Use the tests already decided. *)
Ltac rewrite_tests :=
  repeat match goal with
  | H : ?b = true |- context [?b] => progress rewrite H
  | H : ?b = false |- context [?b] => progress rewrite H
  end.

(** Case analysis on the event an observer is fed. *)
Ltac event_cases :=
  intros;
  match goal with e : event |- _ => destruct e end;
  repeat match goal with
         | x : site |- _ => destruct x
         | x : proc_state |- _ => destruct x
         end;
  simpl in *; try done; try (by rewrite_tests).

(** Decide the remaining integer tests of the goal. *)
Ltac split_tests :=
  repeat match goal with
  | |- context [?a <? ?b] => destruct (a <? b) eqn:?
  | |- context [?a =? ?b] => destruct (a =? b) eqn:?
  end.

Ltac errno_lia := unfold ENOSPC, EAGAIN, EINTR, EOPNOTSUPP in *; lia.

(** Turn boolean tests in the context into propositions. *)
Ltac bool_facts :=
  repeat match goal with
  | H : _ && _ = true |- _ => apply andb_true_iff in H; destruct H
  | H : _ && _ = false |- _ => apply andb_false_iff in H
  | H : negb _ = true |- _ => apply negb_true_iff in H
  | H : negb _ = false |- _ => apply negb_false_iff in H
  | H : (_ =? _) = true |- _ => apply Z.eqb_eq in H
  | H : (_ =? _) = false |- _ => apply Z.eqb_neq in H
  | H : (_ <? _) = true |- _ => apply Z.ltb_lt in H
  | H : (_ <? _) = false |- _ => apply Z.ltb_ge in H
  | H : (_ >? _) = true |- _ => rewrite Z.gtb_ltb in H
  | H : (_ >? _) = false |- _ => rewrite Z.gtb_ltb in H
  end.


(** ** Event classes *)

Lemma class_observe_false C t : observe (class_step C) false t = false.
Proof. induction t as [|e t IH]; simpl; auto. Qed.

Lemma class_observe C t :
  observe (class_step C) true t = true -> Forall (fun e => C e = true) t.
Proof.
  induction t as [|e t IH]; simpl; intros H; [constructor|].
  unfold observe in H. simpl in H.
  destruct (C e) eqn:He.
  - constructor; auto.
  - fold (observe (class_step C) false t) in H.
    by rewrite class_observe_false in H.
Qed.

Lemma emits_only_wp {A} C (m : M A) :
  (forall w, wp (class_step C) class_X m (fun _ _ b => b = true) w true) ->
  emits_only C m.
Proof.
  intros H w. specialize (H w). unfold wp in H.
  apply class_observe. by destruct (m w).
Qed.

Lemma emits_only_weaken {A} (C C' : event -> bool) (m : M A) :
  (forall e, C e = true -> C' e = true) -> emits_only C m -> emits_only C' m.
Proof. intros HC Hm w. eapply Forall_impl; [apply Hm|]. auto. Qed.

Section Frame.

Context {S : Type}.
Variable step : S -> event -> S.
Variable X : abnormal -> S -> Prop.

Lemma observe_invariant (C : event -> bool) (J : S -> Prop) s t :
  (forall s e, C e = true -> J s -> J (step s e)) ->
  Forall (fun e => C e = true) t -> J s -> J (observe step s t).
Proof.
  intros Hs Ht. revert s. induction Ht as [|e t He _ IH]; intros s HJ; [done|].
  unfold observe. simpl. apply IH. by apply Hs.
Qed.

(** A computation preserves what every event it can emit preserves. *)
Lemma wp_invariant {A} (C : event -> bool) (J : S -> Prop) (m : M A) Q w s :
  emits_only C m ->
  (forall s e, C e = true -> J s -> J (step s e)) ->
  J s ->
  (forall ab s', J s' -> X ab s') ->
  (forall a w' s', J s' -> Q a w' s') ->
  wp step X m Q w s.
Proof.
  intros Hm Hs HJ HX HQ. specialize (Hm w). unfold wp.
  destruct (m w); simpl in Hm;
    [apply HQ | apply HX ..]; by apply (observe_invariant C).
Qed.

(** A computation whose events the observer ignores leaves the summary
    as it is. *)
Lemma wp_frame {A} (C : event -> bool) (m : M A) Q w s :
  emits_only C m ->
  (forall e, C e = true -> step s e = s) ->
  (forall ab, X ab s) ->
  (forall a w', Q a w' s) ->
  wp step X m Q w s.
Proof.
  intros Hm Hs HX HQ.
  apply (wp_invariant C (fun s' => s' = s)); auto.
  - intros s' e He ->. by apply Hs.
  - by intros ab s' ->.
  - by intros a w' s' ->.
Qed.

(** The summary of the trace of a run. *)
Lemma wp_observe {A} (P : S -> Prop) (m : M A) w s :
  (forall ab s', X ab s' -> P s') ->
  wp step X m (fun _ _ s' => P s') w s ->
  P (observe step s (trace_of (m w))).
Proof. unfold wp. intros HX. destruct (m w); simpl; eauto. Qed.

End Frame.

Lemma class_observe_fmap {B} C (f : B -> event) (l : list B) :
  (forall x, C (f x) = true) ->
  observe (class_step C) true (f <$> l) = true.
Proof.
  intros Hf. induction l as [|x l IH]; [done|].
  unfold observe. simpl. by rewrite Hf.
Qed.

(** Finish a class proof: every event met is in the class. *)
Ltac class_go :=
  wp_go;
  repeat first
    [ done
    | progress simpl
    | rewrite class_observe_fmap by done ].

Section Class.

Variable HAVE_PUNCH_HOLE : bool.
Variable o : oracle.

Lemma count_loop_class C k i c w :
  (forall e, counting_event e = true -> C e = true) ->
  wp (class_step C) class_X (count_loop o k i c) (fun _ _ b => b = true) w true.
Proof.
  intros HC. revert i c w. induction k as [|k IH]; intros i c w;
    rewrite ?count_loop_0, ?count_loop_S, ?spawn_loop_0, ?spawn_loop_S.
  - by wp_go.
  - wp_go.
    + rewrite class_observe_fmap by (intros; by apply HC).
      unfold class_step at 1. rewrite HC by done. simpl.
      apply IH.
    + by rewrite class_observe_fmap by (intros; by apply HC).
Qed.

Lemma stress_fiemap_count_emits :
  emits_only counting_event (stress_fiemap_count o).
Proof.
  apply emits_only_wp. intros w. unfold stress_fiemap_count.
  wp_go. eapply wp_mono; [by apply count_loop_class|].
  intros a w' s' ->. by wp_go.
Qed.

(** Inside a class proof, a call to a part with a known class. *)
Lemma class_call {A} (C C' : event -> bool) (m : M A) Q w :
  emits_only C m ->
  (forall e, C e = true -> C' e = true) ->
  (forall a w', Q a w' true) ->
  wp (class_step C') class_X m Q w true.
Proof.
  intros Hm HC HQ. apply (wp_frame _ _ C); [done | | done | done].
  intros e He. unfold class_step. by rewrite HC.
Qed.

Lemma writer_punch_emits fd len ph :
  emits_only driver_event (writer_punch o fd len ph).
Proof.
  apply emits_only_wp. intros w. unfold writer_punch.
  class_go.
  all: apply (class_call counting_event);
    [apply stress_fiemap_count_emits | by intros [] | intros b w'].
  all: by class_go.
Qed.

Lemma writer_after_seek_emits fd len ph :
  emits_only driver_event (writer_after_seek HAVE_PUNCH_HOLE o fd len ph).
Proof.
  apply emits_only_wp. intros w. unfold writer_after_seek.
  class_go.
  all: apply (class_call counting_event);
    [apply stress_fiemap_count_emits | by intros [] | intros b w'].
  all: unfold writer_write, writer_after_write; class_go.
  all: apply (class_call counting_event);
    [apply stress_fiemap_count_emits | by intros [] | intros b' w''].
  all: class_go.
  all: apply (class_call driver_event);
    [apply writer_punch_emits | done | done].
Qed.

Lemma writer_body_emits fd len ph :
  emits_only driver_event (writer_body HAVE_PUNCH_HOLE o fd len ph).
Proof.
  apply emits_only_wp. intros w. unfold writer_body.
  class_go.
  apply (class_call driver_event);
    [apply writer_after_seek_emits | done | done].
Qed.

Lemma writer_loop_emits fuel fd len ph :
  emits_only driver_event (writer_loop HAVE_PUNCH_HOLE o fuel fd len ph).
Proof.
  apply emits_only_wp. revert ph.
  induction fuel as [|fuel IH]; intros ph w; simpl.
  - by class_go.
  - wp_go. apply (class_call driver_event);
      [apply writer_body_emits | done | intros c w'].
    class_go; apply IH.
Qed.

Lemma stress_fiemap_writer_emits fuel fd fiemap_bytes :
  emits_only writer_event
    (stress_fiemap_writer HAVE_PUNCH_HOLE o fuel fd fiemap_bytes).
Proof.
  apply emits_only_wp. intros w. unfold stress_fiemap_writer.
  wp_go. apply (class_call driver_event);
    [apply writer_loop_emits | by intros [] | intros c w'].
  by class_go.
Qed.

Lemma ioctl_body_emits args slot fd c :
  emits_only worker_event (ioctl_body o args slot fd c).
Proof.
  apply emits_only_wp. intros w. unfold ioctl_body.
  class_go.
Qed.

Lemma ioctl_loop_emits fuel args slot fd c :
  emits_only worker_event (ioctl_loop o fuel args slot fd c).
Proof.
  apply emits_only_wp. revert c.
  induction fuel as [|fuel IH]; intros c w; simpl.
  - by class_go.
  - wp_go. apply (class_call worker_event);
      [apply ioctl_body_emits | done | intros r w'].
    class_go; apply IH.
Qed.

Lemma stress_fiemap_ioctl_emits fuel args slot fd :
  emits_only worker_event (stress_fiemap_ioctl o fuel args slot fd).
Proof.
  apply emits_only_wp. intros w. unfold stress_fiemap_ioctl.
  wp_go. apply (class_call worker_event);
    [apply ioctl_loop_emits | done | done].
Qed.

Lemma stress_fiemap_spawn_emits fuel args slot fd :
  emits_only spawn_event (stress_fiemap_spawn o fuel args slot fd).
Proof.
  apply emits_only_wp. intros w. unfold stress_fiemap_spawn.
  class_go.
  apply (class_call worker_event);
    [apply stress_fiemap_ioctl_emits | by intros [] | intros r w'].
  by class_go.
Qed.

Lemma spawn_loop_emits k fuel args fd n pids rc :
  emits_only spawn_event (spawn_loop o k fuel args fd n pids rc).
Proof.
  apply emits_only_wp. revert n pids.
  induction k as [|k IH]; intros n pids w;
    rewrite ?count_loop_0, ?count_loop_S, ?spawn_loop_0, ?spawn_loop_S.
  - by class_go.
  - class_go.
    apply (class_call spawn_event);
      [apply stress_fiemap_spawn_emits | done | intros pid w'].
    class_go; apply IH.
Qed.

Lemma reap_loop_emits pids : emits_only reap_event (reap_loop pids).
Proof.
  apply emits_only_wp.
  induction pids as [|pid pids IH]; intros w; simpl.
  - by class_go.
  - class_go; apply IH.
Qed.

Lemma close_clean_emits fd rc : emits_only teardown_event (close_clean fd rc).
Proof.
  apply emits_only_wp. intros w.
  unfold close_clean, dir_clean, clean. by class_go.
Qed.

Lemma reap_emits n pids fd rc : emits_only teardown_event (reap n pids fd rc).
Proof.
  apply emits_only_wp. intros w. unfold reap.
  class_go. apply (class_call reap_event);
    [apply reap_loop_emits | by intros [] | intros r w'].
  wp_go. apply (class_call teardown_event);
    [apply close_clean_emits | done | done].
Qed.

End Class.


(** ** Hole punching is disabled for good *)

Section Punch.
Variable HAVE_PUNCH_HOLE : bool.
Variable o : oracle.

Lemma count_punch Q w s :
  po_violated s = false ->
  (forall b w', Q b w' s) ->
  wp punch_step punch_X (stress_fiemap_count o) Q w s.
Proof.
  intros Hs HQ. apply (wp_frame _ _ counting_event);
    [apply stress_fiemap_count_emits | by intros [] | done | done].
Qed.

Lemma writer_punch_punch fd len ph w s :
  punch_inv ph s ->
  wp punch_step punch_X (writer_punch o fd len ph)
     (fun c _ s' => punch_post c s') w s.
Proof.
  intros [Hv Hr]. unfold writer_punch.
  destruct ph; simpl in *.
  - wp_go; simpl.
    all: try (apply count_punch; [simpl; by rewrite Hv, Hr|];
              intros b w'; destruct b; simpl; wp_go; simpl).
    all: unfold punch_inv, unsupported; simpl; rewrite ?Hv, ?Hr; simpl.
    all: rewrite_tests; split_tests; simpl; bool_facts; try done; try errno_lia.
  - wp_go. by split.
Qed.

Lemma writer_after_write_punch fd len ph wo w s :
  punch_inv ph s ->
  wp punch_step punch_X (writer_after_write HAVE_PUNCH_HOLE o fd len ph wo)
     (fun c _ s' => punch_post c s') w s.
Proof.
  intros Hs. pose proof Hs as [Hv Hr]. destruct wo; simpl.
  - by wp_go.
  - wp_go. apply count_punch; [done|]. intros b w'.
    wp_go; simpl; try done. by apply writer_punch_punch.
  - by wp_go.
Qed.

Lemma writer_body_punch fd len ph w s :
  punch_inv ph s ->
  wp punch_step punch_X (writer_body HAVE_PUNCH_HOLE o fd len ph)
     (fun c _ s' => punch_post c s') w s.
Proof.
  intros Hs. pose proof Hs as [Hv Hr]. unfold writer_body.
  wp_go; simpl; try done.
  all: unfold writer_after_seek; wp_go.
  apply count_punch; [done|]; intros b w'.
  wp_go; simpl; try done.
  all: unfold writer_write; wp_go.
  all: by apply writer_after_write_punch.
Qed.

Lemma writer_loop_punch fuel fd len ph w s :
  punch_inv ph s ->
  wp punch_step punch_X (writer_loop HAVE_PUNCH_HOLE o fuel fd len ph)
     (fun _ _ s' => po_violated s' = false) w s.
Proof.
  revert ph w s. induction fuel as [|fuel IH]; intros ph w s Hs; simpl.
  - wp_go. apply Hs.
  - wp_go. eapply wp_mono; [by apply writer_body_punch|].
    intros c w' s' Hc. destruct c; simpl in Hc.
    + by wp_go.
    + wp_go; simpl; [by apply IH | apply Hc].
    + by wp_go.
Qed.

Lemma stress_fiemap_writer_punch fuel fd fiemap_bytes w s :
  punch_inv true s ->
  wp punch_step punch_X
     (stress_fiemap_writer HAVE_PUNCH_HOLE o fuel fd fiemap_bytes)
     (fun _ _ s' => po_violated s' = false) w s.
Proof.
  intros Hs. unfold stress_fiemap_writer. wp_go.
  eapply wp_mono; [by apply writer_loop_punch|].
  intros b w' s' Hs'. by wp_go.
Qed.

Variables MIN_FIEMAP_SIZE DEFAULT_FIEMAP_SIZE MAXIMIZED_FILE_SIZE : Z.
Variable exit_status : Z -> exit_code.

Lemma stress_fiemap_punch fuel cfg args w :
  wp punch_step punch_X
     (stress_fiemap MIN_FIEMAP_SIZE DEFAULT_FIEMAP_SIZE MAXIMIZED_FILE_SIZE
        exit_status HAVE_PUNCH_HOLE o fuel cfg args)
     (fun _ _ s' => po_violated s' = false) w (mk_punch_obs false false).
Proof.
  unfold stress_fiemap, close_clean, dir_clean, clean.
  wp_go; try done.
  all: apply (wp_invariant _ _ spawn_event (punch_inv true));
    [apply spawn_loop_emits | by intros ? [] | done | by intros ? ? []
    | intros [[n pids] stopped] w' s' Hs'].
  all: wp_go.
  all: try (eapply wp_mono; [by apply stress_fiemap_writer_punch|];
            intros rc w'' s'' Hs''; simpl).
  all: apply (wp_invariant _ _ teardown_event (fun s => po_violated s = false));
    [apply reap_emits | by intros ? [] | first [done | apply Hs']
    | done | done].
Qed.

End Punch.

Lemma punch_violated_sticky t r :
  po_violated (observe punch_step (mk_punch_obs r true) t) = true.
Proof.
  revert r. induction t as [|e t IH]; intros r; [done|].
  unfold observe. simpl. destruct e; simpl; apply IH.
Qed.

Lemma punch_obs_sound t s :
  po_violated (observe punch_step s t) = false ->
  (po_refused s = true -> Forall (fun e => is_fallocate e = false) t) /\
  no_punch_after_unsupported t.
Proof.
  revert s. induction t as [|e t IH]; intros s H.
  - split; [constructor|]. intros [] ?????; discriminate.
  - unfold observe in H. simpl in H.
    fold (observe punch_step (punch_step s e) t) in H.
    destruct (IH _ H) as [IH1 IH2]. split.
    + intros Hr. constructor.
      * destruct e; try done. simpl in H.
        rewrite Hr, orb_true_r in H.
        by rewrite punch_violated_sticky in H.
      * apply IH1. destruct e; simpl; try done. by rewrite Hr.
    + intros pre fd off len r post Heq Hrv Herr.
      destruct pre as [|e' pre]; simpl in Heq; injection Heq as -> ->.
      * apply IH1. simpl. unfold unsupported.
        apply Z.ltb_lt in Hrv. apply Z.eqb_eq in Herr.
        by rewrite Hrv, Herr, orb_true_r.
      * eapply IH2; eauto.
Qed.


(** ** Offsets stay below the modulus *)

Lemma all_observe G P t : observe (all_step G) P t <-> P /\ Forall G t.
Proof.
  revert P. induction t as [|e t IH]; intros P.
  - simpl. split; [intros H; split; [done|constructor] | by intros [H _]].
  - unfold observe. simpl. fold (observe (all_step G) (all_step G P e) t).
    rewrite IH. unfold all_step. rewrite Forall_cons. tauto.
Qed.

Lemma land_le_l a b : 0 <= a -> 0 <= b -> 0 <= Z.land a b <= a.
Proof.
  intros Ha Hb. split; [apply Z.land_nonneg; auto|].
  rewrite <- (Z2N.id a) at 1 2 by done. rewrite <- (Z2N.id b) by done.
  rewrite <- N2Z.inj_land. apply N2Z.inj_le, N.land_le_l.
Qed.

Lemma not64_nonneg z : 0 <= not64 z.
Proof. unfold not64, wrap64. apply Z.mod_pos_bound. lia. Qed.

Section Offsets.
Variable HAVE_PUNCH_HOLE : bool.
Variable o : oracle.
Variable len : Z.
Hypothesis len_pos : 0 < len.

Lemma remote_incr_offsets (s : Prop) burst :
  s -> observe (all_step (offset_below len)) s (EvRemoteIncr <$> burst).
Proof.
  intros Hs. apply all_observe. split; [done|].
  apply Forall_fmap, Forall_forall. by intros.
Qed.

Lemma count_loop_offsets k i c Q w (s : Prop) :
  s ->
  (forall v w' (s' : Prop), s' -> Q v w' s') ->
  wp (all_step (offset_below len)) offset_X (count_loop o k i c) Q w s.
Proof.
  intros Hs HQ. revert i c w s Hs.
  induction k as [|k IH]; intros i c w s Hs;
    rewrite ?count_loop_0, ?count_loop_S, ?spawn_loop_0, ?spawn_loop_S.
  - wp_go. by apply HQ.
  - wp_go.
    + apply IH. split; [by apply remote_incr_offsets|done].
    + split; [by apply remote_incr_offsets|done].
Qed.

Lemma count_offsets Q w (s : Prop) :
  s ->
  (forall b w' (s' : Prop), s' -> Q b w' s') ->
  wp (all_step (offset_below len)) offset_X (stress_fiemap_count o) Q w s.
Proof.
  intros Hs HQ. unfold stress_fiemap_count. wp_go.
  apply count_loop_offsets; [done|]. intros v w' s' Hs'.
  wp_go. apply HQ. by repeat split.
Qed.

Lemma umod64_below r z : umod64 (wrap64 r) len = Some z -> 0 <= z < len.
Proof.
  unfold umod64. destruct (len =? 0); [done|].
  intros [= <-]. apply Z.mod_pos_bound. done.
Qed.

Lemma umod64_defined r : umod64 r len <> None.
Proof.
  unfold umod64. destruct (len =? 0) eqn:E; [|done].
  apply Z.eqb_eq in E. lia.
Qed.

Lemma writer_punch_offsets fd ph Q w (s : Prop) :
  s ->
  (forall c w' (s' : Prop), s' -> Q c w' s') ->
  wp (all_step (offset_below len)) offset_X (writer_punch o fd len ph) Q w s.
Proof.
  intros Hs HQ. unfold writer_punch. wp_go.
  all: try (apply count_offsets;
            [ | intros b w' s' Hs'; wp_go; by apply HQ]).
  all: try (apply HQ).
  all: try (by apply umod64_defined in Heqo0).
  all: try done.
  all: repeat split; try done.
  all: simpl; eexists; split; [done|]; by eapply umod64_below.
Qed.

Lemma writer_body_offsets fd ph Q w (s : Prop) :
  s ->
  (forall c w' (s' : Prop), s' -> Q c w' s') ->
  wp (all_step (offset_below len)) offset_X
     (writer_body HAVE_PUNCH_HOLE o fd len ph) Q w s.
Proof.
  intros Hs HQ.
  assert (forall m r, umod64 (wrap64 r) len = Some m ->
            all_step (offset_below len) s
              (EvLseek fd (to_off_t (Z.land m (not64 8191)))
                 (o_lseek o (Datatypes.S (clock w))))) as Hseek.
  { intros m r Hm. split; [done|]. simpl. eexists; split; [done|].
    apply umod64_below in Hm.
    pose proof (land_le_l m (not64 8191)) as Hl.
    pose proof (not64_nonneg 8191). lia. }
  unfold writer_body. wp_go.
  all: try (by apply umod64_defined in Heqo0).
  all: try (apply HQ; by eapply Hseek).
  all: unfold writer_after_seek; wp_go.
  all: apply count_offsets; [by eapply Hseek|]; intros b w' s' Hs'.
  all: wp_go; try (by apply HQ).
  all: unfold writer_write; wp_go.
  all: unfold writer_after_write; wp_go.
  all: try (apply HQ; by repeat split).
  all: apply count_offsets; [by repeat split|]; intros b' w'' s'' Hs''.
  all: wp_go; try (by apply HQ).
  all: by apply writer_punch_offsets.
Qed.

Lemma writer_loop_offsets fuel fd ph Q w (s : Prop) :
  s ->
  (forall c w' (s' : Prop), s' -> Q c w' s') ->
  wp (all_step (offset_below len)) offset_X
     (writer_loop HAVE_PUNCH_HOLE o fuel fd len ph) Q w s.
Proof.
  intros Hs HQ. revert ph w s Hs.
  induction fuel as [|fuel IH]; intros ph w s Hs; simpl.
  - wp_go. by split.
  - wp_go. apply writer_body_offsets; [done|]. intros c w' s' Hs'.
    wp_go; try (by apply HQ). apply IH. by split.
Qed.

End Offsets.

Lemma stress_fiemap_writer_offsets HAVE_PUNCH_HOLE o fuel fd fiemap_bytes w :
  1 < fiemap_bytes < 2 ^ 64 ->
  wp (all_step (offset_below (fiemap_bytes - 1))) offset_X
     (stress_fiemap_writer HAVE_PUNCH_HOLE o fuel fd fiemap_bytes)
     (fun _ _ s' => s') w True.
Proof.
  intros Hb. unfold stress_fiemap_writer.
  replace (wrap64 (fiemap_bytes - 1)) with (fiemap_bytes - 1)
    by (unfold wrap64; rewrite Z.mod_small; lia).
  wp_go. apply writer_loop_offsets; [lia|done|].
  intros b w' s' Hs'. wp_go. by split.
Qed.


(** ** Write errors in the driver *)

Lemma fatal_observe seen t :
  observe fatal_step seen t = seen || existsb is_fatal_write t.
Proof.
  revert seen. induction t as [|e t IH]; intros seen; simpl.
  - by rewrite orb_false_r.
  - unfold observe. simpl. fold (observe fatal_step (fatal_step seen e) t).
    rewrite IH. unfold fatal_step. by rewrite orb_assoc.
Qed.

Section WriteErrors.
Variable HAVE_PUNCH_HOLE : bool.
Variable o : oracle.

Lemma writer_write_classified fd w :
  let r := o_write o (clock w) in
  writer_write o fd w =
  Ret (classify_write r) (after_syscall r w)
      (EvWrite fd r :: if fatal_write_result r then [EvPrFail] else []).
Proof.
  unfold writer_write, write, syscall, classify_write, fatal_write_result,
    after_syscall.
  unfold mbind, M_bind, bind, ask, emit, set_errno, get_errno, pr_fail,
    mret, M_ret, ret. simpl.
  destruct (rv (o_write o (clock w)) <? 0) eqn:E1; simpl;
    rewrite ?E1; simpl; [|done].
  destruct (err (o_write o (clock w)) =? ENOSPC) eqn:E2; simpl;
    rewrite ?E2; simpl; [done|].
  destruct (err (o_write o (clock w)) =? EAGAIN) eqn:E3; simpl;
    rewrite ?E3; simpl; [done|].
  destruct (err (o_write o (clock w)) =? EINTR) eqn:E4; simpl;
    rewrite ?E4; simpl; done.
Qed.

Lemma count_fatal Q w s :
  s = false ->
  (forall b w', Q b w' false) ->
  wp fatal_step fatal_X (stress_fiemap_count o) Q w s.
Proof.
  intros -> HQ. apply (wp_frame _ _ counting_event);
    [apply stress_fiemap_count_emits | by intros [] | done | done].
Qed.

Lemma writer_punch_fatal fd len ph w :
  wp fatal_step fatal_X (writer_punch o fd len ph)
     (fun c _ s' => c <> CTidy /\ s' = false) w false.
Proof.
  unfold writer_punch. wp_go; try done.
  all: apply count_fatal; [done|]; intros b w'; by wp_go.
Qed.

Lemma fatal_iff_classified r :
  fatal_write_result r =
  match classify_write r with WriteFatal => true | _ => false end.
Proof.
  unfold fatal_write_result, classify_write.
  destruct (rv r <? 0), (err r =? ENOSPC), (err r =? EAGAIN),
    (err r =? EINTR); done.
Qed.

Lemma writer_body_fatal fd len ph w :
  wp fatal_step fatal_X (writer_body HAVE_PUNCH_HOLE o fd len ph)
     (fun c _ s' => s' = match c with CTidy => true | _ => false end)
     w false.
Proof.
  unfold writer_body. wp_go; try done.
  all: unfold writer_after_seek; wp_go.
  all: apply count_fatal; [done|]; intros b w'; wp_go; try done.
  all: unfold wp at 1; rewrite writer_write_classified.
  all: assert (observe fatal_step false
         (EvWrite fd (o_write o (clock w'))
          :: (if fatal_write_result (o_write o (clock w'))
              then [EvPrFail] else []))
         = fatal_write_result (o_write o (clock w'))) as ->
    by (destruct (fatal_write_result (o_write o (clock w'))) eqn:E;
        unfold observe, fatal_step; simpl; rewrite ?E; done).
  all: rewrite fatal_iff_classified.
  all: destruct (classify_write (o_write o (clock w')));
    unfold writer_after_write; wp_go; try done.
  all: apply count_fatal; [done|]; intros b' w''; wp_go; try done.
  all: eapply wp_mono; [apply writer_punch_fatal|].
  all: intros [] ? ? [? ->]; done.
Qed.

Lemma writer_loop_fatal fuel fd len ph w :
  wp fatal_step fatal_X (writer_loop HAVE_PUNCH_HOLE o fuel fd len ph)
     (fun fell_through _ s' => s' = negb fell_through) w false.
Proof.
  revert ph w. induction fuel as [|fuel IH]; intros ph w; simpl.
  - by wp_go.
  - wp_go. eapply wp_mono; [apply writer_body_fatal|].
    intros c w' s' ->. destruct c; wp_go; first [done | apply IH].
Qed.

Lemma stress_fiemap_writer_fatal fuel fd fiemap_bytes w :
  wp fatal_step fatal_X
     (stress_fiemap_writer HAVE_PUNCH_HOLE o fuel fd fiemap_bytes)
     (fun rc _ s' => rc = if s' then EXIT_FAILURE else EXIT_SUCCESS)
     w false.
Proof.
  unfold stress_fiemap_writer. wp_go.
  eapply wp_mono; [apply writer_loop_fatal|].
  intros b w' s' ->. wp_go. by destruct b.
Qed.

End WriteErrors.


(** ** The descriptor is closed twice *)

Lemma close_observe s t :
  co_closed (observe close_step s t) = co_closed s ++ closes_of t /\
  co_sought (observe close_step s t) = co_sought s || existsb is_lseek t.
Proof.
  revert s. induction t as [|e t IH]; intros s.
  - simpl. by rewrite app_nil_r, orb_false_r.
  - unfold observe. simpl. fold (observe close_step (close_step s e) t).
    destruct (IH (close_step s e)) as [-> ->].
    destruct e; simpl; rewrite <- ?app_assoc; try done.
    by rewrite orb_true_r.
Qed.

Section Close.
Variable HAVE_PUNCH_HOLE : bool.
Variable o : oracle.

Lemma writer_loop_close_free fuel fd len ph w :
  Forall (fun e => is_close e = false)
    (trace_of (writer_loop HAVE_PUNCH_HOLE o fuel fd len ph w)).
Proof.
  eapply Forall_impl; [apply writer_loop_emits|].
  by intros [].
Qed.

(** The loop returns only after it has sought. *)
Lemma writer_body_sought fd len ph w s :
  wp close_step close_X (writer_body HAVE_PUNCH_HOLE o fd len ph)
     (fun _ _ s' => co_closed s' = co_closed s /\ co_sought s' = true) w s.
Proof.
  unfold writer_body. wp_go; try done.
  apply (wp_invariant _ _ driver_event
           (fun s' => co_closed s' = co_closed s /\ co_sought s' = true));
    [apply writer_after_seek_emits | by intros ? [] ? [??] | done | done
    | done].
Qed.

Lemma writer_loop_sought fuel fd len ph w s :
  wp close_step close_X (writer_loop HAVE_PUNCH_HOLE o fuel fd len ph)
     (fun _ _ s' => co_closed s' = co_closed s /\ co_sought s' = true) w s.
Proof.
  revert ph w s. induction fuel as [|fuel IH]; intros ph w s; simpl.
  - by wp_go.
  - wp_go. eapply wp_mono; [apply writer_body_sought|].
    intros c w' s' [Hc Hs]. destruct c; wp_go; try done.
    eapply wp_mono; [apply IH|]. simpl. intros _ _ s'' [-> ->]. done.
Qed.

Lemma stress_fiemap_writer_close fuel fd fiemap_bytes w s :
  wp close_step close_X
     (stress_fiemap_writer HAVE_PUNCH_HOLE o fuel fd fiemap_bytes)
     (fun _ _ s' => co_closed s' = co_closed s ++ [fd] /\ co_sought s' = true)
     w s.
Proof.
  unfold stress_fiemap_writer. wp_go.
  eapply wp_mono; [apply writer_loop_sought|].
  intros b w' s' [Hc Hs]. wp_go. simpl. by rewrite Hc.
Qed.

Variables MIN_FIEMAP_SIZE DEFAULT_FIEMAP_SIZE MAXIMIZED_FILE_SIZE : Z.
Variable exit_status : Z -> exit_code.

Lemma stress_fiemap_close fuel cfg args w :
  wp close_step close_X
     (stress_fiemap MIN_FIEMAP_SIZE DEFAULT_FIEMAP_SIZE MAXIMIZED_FILE_SIZE
        exit_status HAVE_PUNCH_HOLE o fuel cfg args)
     (fun _ _ s' => co_sought s' = true ->
                    exists fd, co_closed s' = [fd; fd])
     w (mk_close_obs [] false).
Proof.
  unfold stress_fiemap, close_clean, dir_clean, clean.
  wp_go; try done.
  all: apply (wp_frame _ _ spawn_event);
    [apply spawn_loop_emits | by intros [] | done
    | intros [[n pids] stopped] w'].
  all: wp_go.
  all: try (eapply wp_mono; [apply stress_fiemap_writer_close|];
            intros rc w'' s'' [Hc Hs]; simpl in Hc).
  all: unfold reap, close_clean, dir_clean, clean; wp_go.
  all: apply (wp_frame _ _ reap_event);
    [apply reap_loop_emits | by intros [] | done | intros ? ?].
  all: wp_go; simpl; rewrite ?Hc; try done; eauto.
Qed.

End Close.


(** ** The capability probe *)

Lemma probe_observe s t :
  pr_failed (observe probe_step s t) = pr_failed s || existsb failed_probe t /\
  pr_active (observe probe_step s t)
  = pr_active s || existsb (fun e => is_fork e || is_driver_call e) t.
Proof.
  revert s. induction t as [|e t IH]; intros s.
  - simpl. by rewrite !orb_false_r.
  - unfold observe. simpl. fold (observe probe_step (probe_step s e) t).
    destruct (IH (probe_step s e)) as [-> ->]. simpl.
    by rewrite <- !orb_assoc.
Qed.

Section Probe.
Variable HAVE_PUNCH_HOLE : bool.
Variable o : oracle.
Variables MIN_FIEMAP_SIZE DEFAULT_FIEMAP_SIZE MAXIMIZED_FILE_SIZE : Z.
Variable exit_status : Z -> exit_code.

Lemma stress_fiemap_probe fuel cfg args w :
  wp probe_step probe_X
     (stress_fiemap MIN_FIEMAP_SIZE DEFAULT_FIEMAP_SIZE MAXIMIZED_FILE_SIZE
        exit_status HAVE_PUNCH_HOLE o fuel cfg args)
     (fun rc _ s' => pr_failed s' = true ->
                     rc = EXIT_NOT_IMPLEMENTED /\ pr_active s' = false)
     w (mk_probe_obs false false).
Proof.
  unfold stress_fiemap, close_clean, dir_clean, clean.
  wp_go; try done.
  apply (wp_invariant _ _ spawn_event (fun s => pr_failed s = false));
    [apply spawn_loop_emits | event_cases
    | cbn; by rewrite_tests | done | intros [[n pids] stopped] w' s' Hs'].
  wp_go.
  all: try (apply (wp_invariant _ _ writer_event
                     (fun s => pr_failed s = false));
            [apply stress_fiemap_writer_emits | event_cases
            | done | done | intros rc w'' s'' Hs'']).
  all: apply (wp_invariant _ _ teardown_event
                (fun s => pr_failed s = false));
    [apply reap_emits | event_cases | done | done
    | intros; congruence].
Qed.

End Probe.


(** ** A fork that fails *)

Lemma spawn_observe s t :
  let s' := observe spawn_step s t in
  so_forked s' = so_forked s ++ forked_of t /\
  so_failed s' = so_failed s || existsb failed_fork t /\
  so_killed s' = so_killed s ++ killed_of t /\
  so_waited s' = so_waited s ++ waited_of t /\
  so_drove s' = so_drove s || existsb is_driver_call t.
Proof.
  revert s. induction t as [|e t IH]; intros s.
  - simpl. by rewrite !app_nil_r, !orb_false_r.
  - unfold observe. simpl. fold (observe spawn_step (spawn_step s e) t).
    destruct (IH (spawn_step s e)) as (-> & -> & -> & -> & ->).
    destruct e; simpl; try destruct (0 <? pid); simpl;
      rewrite <- ?app_assoc, <- ?orb_assoc, ?orb_true_r; done.
Qed.

Lemma spawn_forked_again_sticky s t :
  so_forked_again s = true ->
  so_forked_again (observe spawn_step s t) = true.
Proof.
  revert s. induction t as [|e t IH]; intros s Hs; [done|].
  unfold observe. simpl. apply IH. destruct e; simpl; try done.
  by rewrite Hs.
Qed.

Lemma spawn_obs_sound t s :
  so_forked_again (observe spawn_step s t) = false ->
  (so_failed s = true -> Forall (fun e => is_fork e = false) t) /\
  no_fork_after_failure t.
Proof.
  revert s. induction t as [|e t IH]; intros s H.
  - split; [constructor|]. intros [] ???; discriminate.
  - unfold observe in H. simpl in H.
    fold (observe spawn_step (spawn_step s e) t) in H.
    destruct (IH _ H) as [IH1 IH2]. split.
    + intros Hf. constructor.
      * destruct e; try done.
        rewrite spawn_forked_again_sticky in H; [done|].
        simpl. by rewrite Hf, orb_true_r.
      * apply IH1. destruct e; simpl; try done. by rewrite Hf.
    + intros pre pid post Heq Hneg.
      destruct pre as [|e' pre]; simpl in Heq; injection Heq as -> ->.
      * apply IH1. simpl. apply Z.ltb_lt in Hneg.
        by rewrite Hneg, orb_true_r.
      * eapply IH2; eauto.
Qed.

Section Spawn.
Variable HAVE_PUNCH_HOLE : bool.
Variable o : oracle.

Lemma stress_fiemap_spawn_spawn fuel args slot fd pids w s :
  spawning pids s ->
  wp spawn_step spawn_X (stress_fiemap_spawn o fuel args slot fd)
     (fun pid _ s' =>
        if pid <? 0
        then so_forked s' = pids /\ so_failed s' = true /\
             so_forked_again s' = false /\ so_killed s' = [] /\
             so_waited s' = [] /\ so_drove s' = false
        else spawning (pids ++ [pid]) s')
     w s.
Proof.
  intros (Hf & Hx & Ha & Hk & Hw & Hd). unfold stress_fiemap_spawn.
  wp_go; simpl; rewrite_tests; simpl.
  - destruct (0 <? _) eqn:E; bool_facts; [lia|]. by rewrite Hf, Hk, Hw.
  - apply (wp_invariant _ _ worker_event (fun s => so_failed s = false));
      [apply stress_fiemap_ioctl_emits | event_cases | done | done | ].
    intros _ w' s' Hs'. by wp_go.
  - unfold spawning. simpl. bool_facts.
    destruct (0 <? _) eqn:E; bool_facts; [|lia].
    by rewrite Hf, Hk, Hw.
Qed.

Lemma spawn_loop_spawn k fuel args fd pids rc w s :
  spawning pids s ->
  wp spawn_step spawn_X
     (spawn_loop o k fuel args fd (length pids) pids rc)
     (fun '(n, pids', stopped) _ s' =>
        so_forked s' = take n pids' /\ so_forked_again s' = false /\
        so_killed s' = [] /\ so_waited s' = [] /\ so_drove s' = false /\
        (so_failed s' = true -> stopped = Some rc))
     w s.
Proof.
  revert pids w s. induction k as [|k IH]; intros pids w s Hs;
    rewrite ?count_loop_0, ?count_loop_S, ?spawn_loop_0, ?spawn_loop_S.
  - wp_go. destruct Hs as (Hf & Hx & Ha & Hk & Hw & Hd).
    rewrite firstn_all. by rewrite Hx.
  - wp_go.
    + destruct Hs as (Hf & Hx & Ha & Hk & Hw & Hd).
      simpl. rewrite firstn_all. by rewrite Hx.
    + eapply wp_mono; [by apply stress_fiemap_spawn_spawn|].
      simpl. intros pid w' s' Hpid.
      destruct (pid <? 0) eqn:E; wp_go.
      * destruct Hpid as (Hf & Hx & Ha & Hk & Hw & Hd).
        by rewrite take_app_length.
      * replace (Datatypes.S (length pids)) with (length (pids ++ [pid]))
          by (rewrite length_app; simpl; lia).
        by apply IH.
Qed.

Lemma reap_loop_spawn pids Q w s :
  Q tt w (mk_spawn_obs (so_forked s) (so_failed s) (so_forked_again s)
            (so_killed s ++ pids) (so_waited s ++ pids) (so_drove s)) ->
  wp spawn_step spawn_X (reap_loop pids) Q w s.
Proof.
  revert s. induction pids as [|pid pids IH]; intros s HQ; simpl.
  - wp_go. rewrite !app_nil_r in HQ. by destruct s.
  - wp_go. apply IH. simpl. by rewrite <- !app_assoc.
Qed.

Variables MIN_FIEMAP_SIZE DEFAULT_FIEMAP_SIZE MAXIMIZED_FILE_SIZE : Z.
Variable exit_status : Z -> exit_code.

Lemma stress_fiemap_spawn_fails fuel cfg args w :
  wp spawn_step spawn_X
     (stress_fiemap MIN_FIEMAP_SIZE DEFAULT_FIEMAP_SIZE MAXIMIZED_FILE_SIZE
        exit_status HAVE_PUNCH_HOLE o fuel cfg args)
     (fun rc _ s' =>
        so_failed s' = true ->
        rc = EXIT_FAILURE /\ so_forked_again s' = false /\
        so_killed s' = so_forked s' /\ so_waited s' = so_forked s' /\
        so_drove s' = false)
     w spawn_start.
Proof.
  unfold stress_fiemap, close_clean, dir_clean, clean.
  wp_go; try done.
  all: eapply wp_mono;
    [by apply (spawn_loop_spawn _ _ _ _ [])|].
  all: intros [[n pids] stopped] w' s' (Hf & Ha & Hk & Hw & Hd & Hstop).
  all: wp_go.
  all: try (apply (wp_invariant _ _ writer_event
                     (fun s => so_failed s = false));
            [apply stress_fiemap_writer_emits | event_cases
            | | done | intros rc w'' s'' Hs'']).
  all: try (destruct (so_failed s') eqn:E; [by specialize (Hstop eq_refl)|done]).
  all: try (apply (wp_invariant _ _ teardown_event
                     (fun s => so_failed s = false));
            [apply reap_emits | event_cases | done | done
             | intros; congruence]).
  all: unfold reap, close_clean, dir_clean, clean; wp_go.
  all: apply reap_loop_spawn; wp_go; simpl.
  all: intros Hfail; specialize (Hstop Hfail); injection Hstop as <-.
  all: by rewrite Hf, Ha, Hk, Hw, Hd.
Qed.

End Spawn.


(** ** The extent query cycle *)

Lemma query_not_ok_sticky s t :
  qo_ok s = false -> qo_ok (observe query_step s t) = false.
Proof.
  revert s. induction t as [|e t IH]; intros s Hs; [done|].
  unfold observe. simpl. apply IH.
  destruct e; repeat match goal with x : site |- _ => destruct x end;
    simpl; try done. by rewrite Hs.
Qed.

Lemma query_obs_sound t s :
  qo_ok (observe query_step s t) = true ->
  forall pre fd req r k post,
    t = pre ++ EvIoctl Populate fd req r k :: post ->
    fm_mapped_extents req = 0 /\
    ((Forall (fun e => is_ioctl e = false) pre /\
      qo_reported s = Some (fm_extent_count req)) \/
     exists pre0 fd0 req0 r0 mid,
       pre = pre0 ++ EvIoctl Discovery fd0 req0 r0 (fm_extent_count req) :: mid /\
       0 <= rv r0 /\
       Forall (fun e => is_ioctl e = false) mid).
Proof.
  revert s. induction t as [|e t IH]; intros s H pre fd req r k post Heq.
  - by destruct pre.
  - unfold observe in H. simpl in H.
    fold (observe query_step (query_step s e) t) in H.
    destruct pre as [|e' pre]; simpl in Heq; injection Heq as -> ->.
    + simpl in H.
      destruct (qo_ok s) eqn:Hok;
        [|by rewrite query_not_ok_sticky in H].
      destruct (qo_reported s) as [k0|] eqn:Hrep;
        [|by rewrite query_not_ok_sticky in H].
      destruct ((fm_extent_count req =? k0) && (fm_mapped_extents req =? 0))
        eqn:Hc; [|by rewrite query_not_ok_sticky in H].
      bool_facts. split; [done|]. left. split; [constructor|]. congruence.
    + destruct (IH _ H _ _ _ _ _ _ eq_refl) as [Hm Hcases].
      split; [done|].
      destruct Hcases as [[Hpre Hrep]|(pre0 & fd0 & req0 & r0 & mid & -> & ? & ?)].
      * destruct e'; repeat match goal with x : site |- _ => destruct x end;
          simpl in Hrep; try done;
          try (left; split; [by constructor|done]).
        match type of Hrep with
        | context [rv ?x <? 0] => destruct (rv x <? 0) eqn:E; [done|]
        end.
        injection Hrep as ->.
        right. eexists [], _, _, _, pre. bool_facts. done.
      * right. exists (e' :: pre0), fd0, req0, r0, mid. done.
Qed.

Lemma cycle_observe s t :
  let s' := observe cycle_step s t in
  cy_populates s' = cy_populates s ++ populates_of t /\
  cy_loads s' = cy_loads s ++ loads_of t /\
  cy_stores s' = cy_stores s ++ stores_of t /\
  cy_failed s' = cy_failed s || existsb is_pr_fail t.
Proof.
  revert s. induction t as [|e t IH]; intros s.
  - simpl. by rewrite !app_nil_r, orb_false_r.
  - unfold observe. simpl. fold (observe cycle_step (cycle_step s e) t).
    destruct (IH (cycle_step s e)) as (-> & -> & -> & ->).
    destruct e; repeat match goal with x : site |- _ => destruct x end;
      simpl; rewrite <- ?app_assoc, ?orb_true_r; done.
Qed.

Section Query.
Variable o : oracle.

Lemma ioctl_body_query args slot fd c w s :
  qo_ok s = true ->
  wp query_step query_X (ioctl_body o args slot fd c)
     (fun _ _ s' => qo_ok s' = true) w s.
Proof.
  intros Hs. unfold ioctl_body.
  wp_go.
  all: rewrite ?observe_fmap_ignored by done.
  all: cbn [query_step observe foldl qo_ok qo_reported rv fst snd
            fm_extent_count fm_mapped_extents query_X].
  all: rewrite_tests; rewrite ?Hs, ?Z.eqb_refl; done.
Qed.

Lemma ioctl_loop_query fuel args slot fd c w s :
  qo_ok s = true ->
  wp query_step query_X (ioctl_loop o fuel args slot fd c)
     (fun _ _ s' => qo_ok s' = true) w s.
Proof.
  revert c w s. induction fuel as [|fuel IH]; intros c w s Hs; simpl.
  - by wp_go.
  - wp_go. eapply wp_mono; [by apply ioctl_body_query|].
    intros r w' s' Hs'. destruct r; wp_go; first [done | by apply IH].
Qed.

Lemma stress_fiemap_ioctl_query fuel args slot fd w s :
  qo_ok s = true ->
  wp query_step query_X (stress_fiemap_ioctl o fuel args slot fd)
     (fun _ _ s' => qo_ok s' = true) w s.
Proof.
  intros Hs. unfold stress_fiemap_ioctl. wp_go.
  by apply ioctl_loop_query.
Qed.

Lemma ioctl_body_cycle args slot fd c w :
  wp cycle_step cycle_X (ioctl_body o args slot fd c)
     (fun r _ s' =>
        (cy_populates s' = [] /\ r = None /\ cy_stores s' = []) \/
        (exists req x k,
           cy_populates s' = [(req, x, k)] /\ rv x < 0 /\
           r = None /\ cy_failed s' = true /\ cy_stores s' = []) \/
        (exists req x k c' v,
           cy_populates s' = [(req, x, k)] /\ 0 <= rv x /\
           r = Some c' /\ cy_failed s' = false /\
           cy_loads s' = [(slot, v)] /\
           cy_stores s' = [(slot, incr64 v)]))
     w (mk_cycle_obs [] [] [] false).
Proof.
  unfold ioctl_body.
  wp_go.
  all: rewrite ?observe_fmap_ignored by done.
  all: cbn [cycle_step observe foldl cy_populates cy_loads cy_stores
            cy_failed rv fst snd app cycle_X]; try done.
  all: try (by left).
  all: bool_facts.
  all: try (right; left; by eexists _, _, _).
  all: right; right; by eexists _, _, _, _, _.
Qed.

End Query.


(** ** Who writes the counters *)

Lemma owner_not_ok_sticky s t :
  ow_ok s = false -> ow_ok (observe owner_step s t) = false.
Proof.
  revert s. induction t as [|e t IH]; intros s Hs; [done|].
  unfold observe. simpl. apply IH. destruct e; simpl; try done.
  by rewrite Hs.
Qed.

Lemma owner_observe s t :
  ow_forks (observe owner_step s t) = (ow_forks s + length (forked_of t))%nat /\
  ow_child (observe owner_step s t) = ow_child s || existsb is_fork_child t.
Proof.
  revert s. induction t as [|e t IH]; intros s.
  - simpl. by rewrite Nat.add_0_r, orb_false_r.
  - unfold observe. simpl. fold (observe owner_step (owner_step s e) t).
    destruct (IH (owner_step s e)) as [-> ->].
    destruct e; simpl; rewrite ?orb_assoc; try done.
    destruct (0 <? pid); simpl; split; try done; lia.
Qed.

Lemma owner_obs_sound t s :
  ow_ok (observe owner_step s t) = true ->
  forall pre i v post,
    t = pre ++ EvStore i v :: post ->
    ow_child s || existsb is_fork_child pre = true /\
    i = (ow_forks s + length (forked_of pre))%nat /\
    (i < MAX_FIEMAP_PROCS)%nat.
Proof.
  intros H pre i v post ->.
  unfold observe in H. rewrite foldl_app in H. simpl in H.
  fold (observe owner_step s pre) in H.
  destruct (owner_observe s pre) as [Hforks Hchild].
  match type of H with
  | ow_ok (foldl _ ?s0 _) = _ =>
    destruct (ow_ok s0) eqn:Hok;
      [|fold (observe owner_step s0 post) in H;
        by rewrite owner_not_ok_sticky in H]
  end.
  simpl in Hok. rewrite Hforks, Hchild in Hok.
  apply andb_true_iff in Hok as [Hok Hlt].
  apply andb_true_iff in Hok as [Hok Heq].
  apply andb_true_iff in Hok as [_ Hc].
  apply Nat.eqb_eq in Heq. apply Nat.ltb_lt in Hlt.
  rewrite <- Heq in *. done.
Qed.

Lemma owner_supervisor_stores t s :
  ow_ok (observe owner_step s t) = true ->
  ow_child (observe owner_step s t) = false ->
  stores_of t = [].
Proof.
  intros Hok Hchild.
  destruct (stores_of t) as [|[i v] l] eqn:E; [done|].
  assert (exists pre post, t = pre ++ EvStore i v :: post) as (pre & post & ->).
  { clear Hok Hchild. revert E. induction t as [|e t IH]; [done|].
    destruct e; simpl; intros E;
      try (destruct (IH E) as (pre & post & ->);
           by eexists (_ :: pre), post).
    injection E as -> -> _. by exists [], t. }
  destruct (owner_obs_sound _ _ Hok _ _ _ _ eq_refl) as (Hc & _).
  destruct (owner_observe s (pre ++ EvStore i v :: post)) as [_ Hc'].
  rewrite Hchild in Hc'. rewrite existsb_app in Hc'. simpl in Hc'.
  symmetry in Hc'. apply orb_false_iff in Hc' as [Hs Hp].
  apply orb_false_iff in Hp as [Hp _]. rewrite Hs, Hp in Hc. done.
Qed.

Section Owner.
Variable HAVE_PUNCH_HOLE : bool.
Variable o : oracle.

Lemma ioctl_body_owner args slot fd c w s :
  in_worker slot s ->
  wp owner_step owner_X (ioctl_body o args slot fd c)
     (fun _ _ s' => in_worker slot s') w s.
Proof.
  intros (Hf & Hc & Hok & Hlt). unfold ioctl_body.
  wp_go.
  all: rewrite ?observe_fmap_ignored by done.
  all: cbn [owner_step observe foldl ow_forks ow_child ow_ok owner_X];
    try done.
  all: unfold in_worker; simpl; rewrite Hf, Hc, Hok, Nat.eqb_refl; simpl.
  all: repeat split; try done.
  all: by apply Nat.ltb_lt.
Qed.

Lemma ioctl_loop_owner fuel args slot fd c w s :
  in_worker slot s ->
  wp owner_step owner_X (ioctl_loop o fuel args slot fd c)
     (fun _ _ s' => in_worker slot s') w s.
Proof.
  revert c w s. induction fuel as [|fuel IH]; intros c w s Hs; simpl.
  - wp_go. apply Hs.
  - wp_go. eapply wp_mono; [by apply ioctl_body_owner|].
    intros r w' s' Hs'. destruct r; wp_go; first [done | by apply IH].
Qed.

Lemma stress_fiemap_spawn_owner fuel args n fd w s :
  in_supervisor n s -> (n < MAX_FIEMAP_PROCS)%nat ->
  wp owner_step owner_X (stress_fiemap_spawn o fuel args n fd)
     (fun pid _ s' =>
        in_supervisor (if pid <? 0 then n else S n) s')
     w s.
Proof.
  intros (Hf & Hc & Hok) Hlt. unfold stress_fiemap_spawn.
  wp_go; simpl; rewrite_tests.
  2: { unfold stress_fiemap_ioctl. wp_go.
       eapply wp_mono; [apply (ioctl_loop_owner _ _ n)|].
       - unfold in_worker. simpl. bool_facts.
         destruct (0 <? _) eqn:E; bool_facts; [lia|].
         by rewrite ?orb_true_r.
       - intros ? w' s' (_ & _ & Hok' & _). by wp_go. }
  all: unfold in_supervisor; simpl; bool_facts.
  all: destruct (0 <? o_fork o (clock w)) eqn:E; bool_facts; try lia.
  all: rewrite ?Hf, ?Hc, ?Hok; try done.
  all: destruct (o_fork o (clock w) =? 0) eqn:E'; bool_facts; try lia;
    done.
Qed.

Lemma spawn_loop_owner k fuel args fd n pids rc w s :
  in_supervisor n s -> (n + k = MAX_FIEMAP_PROCS)%nat ->
  wp owner_step owner_X (spawn_loop o k fuel args fd n pids rc)
     (fun _ _ s' => ow_child s' = false /\ ow_ok s' = true) w s.
Proof.
  revert n pids w s. induction k as [|k IH]; intros n pids w s Hs Hk;
    rewrite ?spawn_loop_0, ?spawn_loop_S.
  - wp_go. apply Hs.
  - wp_go; [apply Hs|].
    eapply wp_mono; [apply stress_fiemap_spawn_owner; [done|lia]|].
    simpl. intros pid w' s' Hs'.
    destruct (pid <? 0) eqn:E; wp_go; [apply Hs'|].
    apply IH; [done|lia].
Qed.

Variables MIN_FIEMAP_SIZE DEFAULT_FIEMAP_SIZE MAXIMIZED_FILE_SIZE : Z.
Variable exit_status : Z -> exit_code.

Lemma stress_fiemap_owner fuel cfg args w :
  wp owner_step owner_X
     (stress_fiemap MIN_FIEMAP_SIZE DEFAULT_FIEMAP_SIZE MAXIMIZED_FILE_SIZE
        exit_status HAVE_PUNCH_HOLE o fuel cfg args)
     (fun _ _ s' => ow_child s' = false /\ ow_ok s' = true)
     w (mk_owner_obs 0 false true).
Proof.
  unfold stress_fiemap, close_clean, dir_clean, clean.
  wp_go; try done.
  eapply wp_mono; [by apply spawn_loop_owner|].
  intros [[n pids] stopped] w' s' [Hc Hok].
  wp_go.
  all: try (apply (wp_invariant _ _ writer_event
                     (fun s => ow_child s = false /\ ow_ok s = true));
            [apply stress_fiemap_writer_emits | event_cases
            | done | by intros ? ? [] | intros rc w'' s'' Hs'']).
  all: apply (wp_invariant _ _ teardown_event
                (fun s => ow_child s = false /\ ow_ok s = true));
    [apply reap_emits | event_cases | done | by intros ? ? [] | done].
Qed.

End Owner.


(** ** Aggregate progress *)

Lemma sumZ_nil : sumZ [] = 0.
Proof. reflexivity. Qed.

Lemma sumZ_cons x l : sumZ (x :: l) = x + sumZ l.
Proof. reflexivity. Qed.

Lemma sumZ_app l k : sumZ (l ++ k) = sumZ l + sumZ k.
Proof.
  induction l as [|x l IH]; simpl; rewrite ?sumZ_nil, ?sumZ_cons; lia.
Qed.

Lemma sumZ_nonneg l : Forall (fun v => 0 <= v) l -> 0 <= sumZ l.
Proof. induction 1; rewrite ?sumZ_nil, ?sumZ_cons; lia. Qed.

Lemma sumZ_mono l k : Forall2 Z.le l k -> sumZ l <= sumZ k.
Proof. induction 1; rewrite ?sumZ_nil, ?sumZ_cons; lia. Qed.

Lemma sumZ_take_le i l : Forall (fun v => 0 <= v) l -> sumZ (take i l) <= sumZ l.
Proof.
  intros H. rewrite <- (take_drop i l) at 2. rewrite sumZ_app.
  pose proof (sumZ_nonneg (drop i l) (Forall_drop _ _ _ H)). lia.
Qed.

Lemma Forall2_le_refl (m : list Z) : Forall2 Z.le m m.
Proof. induction m; constructor; [lia|done]. Qed.

Lemma Forall2_le_trans (a b c : list Z) :
  Forall2 Z.le a b -> Forall2 Z.le b c -> Forall2 Z.le a c.
Proof.
  intros Hab. revert c. induction Hab as [|x y a b Hxy _ IH]; intros c Hbc.
  - by inversion Hbc.
  - inversion Hbc as [|? z ? c' Hyz Hbc']; subst.
    constructor; [lia|by apply IH].
Qed.

Lemma alter_incr_grows m j :
  Forall (fun v => 0 <= v) m -> sumZ m < 2 ^ 64 - 1 ->
  Forall (fun v => 0 <= v) (alter incr64 j m) /\
  Forall2 Z.le m (alter incr64 j m) /\
  sumZ (alter incr64 j m) <= sumZ m + 1.
Proof.
  revert j. induction m as [|x m IH]; intros j Hpos Hsum.
  - destruct j; cbn; repeat split;
      first [by constructor | rewrite sumZ_nil; lia].
  - apply Forall_cons in Hpos as [Hx Hm].
    pose proof (sumZ_nonneg m Hm) as Hnn.
    rewrite sumZ_cons in *.
    destruct j as [|j]; cbn.
    + assert (incr64 x = x + 1) as ->.
      { unfold incr64, wrap64. apply Z.mod_small. lia. }
      repeat split.
      * constructor; [lia|done].
      * constructor; [lia|apply Forall2_le_refl].
      * rewrite sumZ_cons. lia.
    + destruct (IH j Hm) as (H1 & H2 & H3); [lia|].
      repeat split.
      * by constructor.
      * constructor; [lia|done].
      * rewrite sumZ_cons. lia.
Qed.

Lemma interfere_grows burst m :
  Forall (fun v => 0 <= v) m ->
  sumZ m + Z.of_nat (length burst) < 2 ^ 64 ->
  length (interfere burst m) = length m /\
  Forall (fun v => 0 <= v) (interfere burst m) /\
  Forall2 Z.le m (interfere burst m) /\
  sumZ (interfere burst m) <= sumZ m + Z.of_nat (length burst).
Proof.
  revert m. induction burst as [|j burst IH]; intros m Hpos Hsum; simpl.
  - repeat split; try done; try lia; apply Forall2_le_refl.
  - simpl in Hsum.
    destruct (alter_incr_grows m j Hpos) as (H1 & H2 & H3); [lia|].
    destruct (IH (alter incr64 j m) H1) as (I0 & I1 & I2 & I3); [lia|].
    repeat split.
    + by rewrite I0, length_alter.
    + done.
    + by apply (Forall2_le_trans _ (alter incr64 j m)).
    + lia.
Qed.

Lemma progress_observe_remote s (burst : list nat) :
  observe progress_step s (EvRemoteIncr <$> burst)
  = mk_progress_obs (pg_remote s + Z.of_nat (length burst)) (pg_last s)
                    (pg_ok s).
Proof.
  revert s. induction burst as [|j burst IH]; intros s.
  - simpl. rewrite Z.add_0_r. by destruct s.
  - change (observe progress_step s (EvRemoteIncr <$> j :: burst))
      with (observe progress_step (progress_step s (EvRemoteIncr j))
              (EvRemoteIncr <$> burst)).
    rewrite IH. cbn [progress_step pg_remote pg_last pg_ok length].
    f_equal. lia.
Qed.

Section Progress.
Variable HAVE_PUNCH_HOLE : bool.
Variable o : oracle.

Lemma load_progress i c w s :
  summing_inv i c (counters w) s -> 0 <= pg_remote s ->
  wp progress_step progress_X (load o i)
     (fun v w' s' =>
        summing_inv (S i) (wrap64 (c + v)) (counters w') s' /\
        0 <= pg_remote s')
     w s.
Proof.
  intros [Hok Hinv] Hrem. unfold load. wp_go.
  all: rewrite progress_observe_remote;
    cbn [pg_ok pg_remote pg_last progress_step progress_X counters];
    try done.
  split; [|lia]. split; [done|]. simpl. intros Hbound.
  destruct Hinv as (Hlen & Hpos & Hsum & Hc & Hlast); [lia|].
  destruct (interfere_grows (o_interference o (clock w)) (counters w) Hpos)
    as (I0 & I1 & I2 & I3); [lia|].
  set (m' := interfere (o_interference o (clock w)) (counters w)) in *.
  assert (sumZ (take i (counters w)) <= sumZ (take i m')) as Htake
    by (by apply sumZ_mono, Forall2_take).
  assert (sumZ (drop i (counters w)) <= sumZ (drop i m')) as Hdrop
    by (by apply sumZ_mono, Forall2_drop).
  assert (sumZ (take (S i) m') = sumZ (take i m') + z) as HtakeS.
  { erewrite take_S_r by done.
    rewrite sumZ_app, sumZ_cons, sumZ_nil. lia. }
  assert (sumZ (drop i m') = z + sumZ (drop (S i) m')) as HdropS.
  { erewrite drop_S by done. by rewrite sumZ_cons. }
  pose proof (sumZ_take_le (S i) m' I1).
  assert (0 <= z).
  { eapply (Forall_lookup_1 _ m'); done. }
  assert (wrap64 (c + z) = c + z) as ->.
  { unfold wrap64. apply Z.mod_small. lia. }
  repeat split; first [done | lia | congruence].
Qed.

Lemma count_loop_progress k i c w s :
  summing_inv i c (counters w) s -> 0 <= pg_remote s ->
  wp progress_step progress_X (count_loop o k i c)
     (fun p w' s' =>
        summing_inv (i + k) p (counters w') s' /\ 0 <= pg_remote s')
     w s.
Proof.
  revert i c w s. induction k as [|k IH]; intros i c w s Hinv Hrem;
    rewrite ?count_loop_0, ?count_loop_S.
  - wp_go. by rewrite Nat.add_0_r.
  - apply wp_bind. eapply wp_mono; [by apply load_progress|].
    simpl. intros v w' s' [Hinv' Hrem'].
    eapply wp_mono; [by apply IH|].
    simpl. intros p w'' s'' H.
    by replace (i + S k)%nat with (S i + k)%nat by lia.
Qed.

Lemma count_progress Q w s :
  progress_ok w s ->
  (forall b w' s', progress_ok w' s' -> Q b w' s') ->
  wp progress_step progress_X (stress_fiemap_count o) Q w s.
Proof.
  intros [[Hok Hinv] Hrem] HQ. unfold stress_fiemap_count. wp_go.
  eapply wp_mono.
  - apply (count_loop_progress _ 0 0); [|done].
    split; [done|]. intros Hb. destruct (Hinv Hb) as (? & ? & ? & ?).
    rewrite take_0, drop_0, sumZ_nil. repeat split; try done; lia.
  - simpl. intros p w' s' [[Hok' Hinv'] Hrem'].
    wp_go. apply HQ. split; [|done]. split.
    + simpl. rewrite Hok'. simpl.
      destruct (2 ^ 64 <=? pg_remote s') eqn:E; [done|]. simpl.
      apply Z.leb_gt in E.
      destruct Hinv' as (Hlen & Hpos & Hsum & Hp & Hlast); [lia|].
      rewrite drop_ge in Hlast by lia.
      apply Z.leb_le. rewrite sumZ_nil in Hlast. lia.
    + simpl. intros Hb.
      destruct (Hinv' Hb) as (Hlen & Hpos & Hsum & Hp & Hlast).
      repeat split; try done.
      rewrite take_ge in Hp by lia. lia.
Qed.

Lemma writer_punch_progress fd len ph Q w s :
  progress_ok w s ->
  (forall c w' s', progress_ok w' s' -> Q c w' s') ->
  wp progress_step progress_X (writer_punch o fd len ph) Q w s.
Proof.
  intros Hs HQ. unfold writer_punch. wp_go.
  all: try (by apply HQ).
  all: try (apply count_progress; [done|];
            intros b w' s' Hs'; wp_go; by apply HQ).
  apply Hs.
Qed.

Lemma writer_body_progress fd len ph Q w s :
  progress_ok w s ->
  (forall c w' s', progress_ok w' s' -> Q c w' s') ->
  wp progress_step progress_X (writer_body HAVE_PUNCH_HOLE o fd len ph)
     Q w s.
Proof.
  intros Hs HQ. unfold writer_body. wp_go.
  all: try (by apply HQ).
  all: try apply Hs.
  all: unfold writer_after_seek; wp_go.
  all: apply count_progress; [done|]; intros b w' s' Hs'.
  all: wp_go; try (by apply HQ).
  all: unfold writer_write; wp_go.
  all: unfold writer_after_write; wp_go; try (by apply HQ).
  all: apply count_progress; [done|]; intros b' w'' s'' Hs''.
  all: wp_go; try (by apply HQ).
  all: by apply writer_punch_progress.
Qed.

Lemma writer_loop_progress fuel fd len ph Q w s :
  progress_ok w s ->
  (forall b w' s', progress_ok w' s' -> Q b w' s') ->
  wp progress_step progress_X (writer_loop HAVE_PUNCH_HOLE o fuel fd len ph)
     Q w s.
Proof.
  revert ph w s. induction fuel as [|fuel IH]; intros ph w s Hs HQ; simpl.
  - wp_go. apply Hs.
  - wp_go. apply writer_body_progress; [done|]. intros c w' s' Hs'.
    destruct c; wp_go; try (by apply HQ). by apply IH.
Qed.

Lemma stress_fiemap_writer_progress fuel fd fiemap_bytes Q w s :
  progress_ok w s ->
  (forall rc w' s', progress_ok w' s' -> Q rc w' s') ->
  wp progress_step progress_X
     (stress_fiemap_writer HAVE_PUNCH_HOLE o fuel fd fiemap_bytes) Q w s.
Proof.
  intros Hs HQ. unfold stress_fiemap_writer. wp_go.
  apply writer_loop_progress; [done|]. intros b w' s' Hs'.
  wp_go. by apply HQ.
Qed.

Lemma stress_fiemap_spawn_progress fuel args slot fd Q w s :
  progress_ok w s ->
  (forall pid w' s', progress_ok w' s' -> Q pid w' s') ->
  wp progress_step progress_X (stress_fiemap_spawn o fuel args slot fd)
     Q w s.
Proof.
  intros Hs HQ. unfold stress_fiemap_spawn. wp_go.
  all: try (by apply HQ).
  apply (wp_invariant _ _ worker_event (fun s => pg_ok s = true));
    [apply stress_fiemap_ioctl_emits | event_cases | apply Hs | done | ].
  intros ? w' s' Hok. by wp_go.
Qed.

Lemma spawn_loop_progress k fuel args fd n pids rc Q w s :
  progress_ok w s ->
  (forall r w' s', progress_ok w' s' -> Q r w' s') ->
  wp progress_step progress_X (spawn_loop o k fuel args fd n pids rc)
     Q w s.
Proof.
  revert n pids w s. induction k as [|k IH]; intros n pids w s Hs HQ;
    rewrite ?spawn_loop_0, ?spawn_loop_S.
  - wp_go. by apply HQ.
  - wp_go; [by apply HQ|].
    apply stress_fiemap_spawn_progress; [done|]. intros pid w' s' Hs'.
    wp_go; [by apply HQ|]. by apply IH.
Qed.

Variables MIN_FIEMAP_SIZE DEFAULT_FIEMAP_SIZE MAXIMIZED_FILE_SIZE : Z.
Variable exit_status : Z -> exit_code.

Lemma stress_fiemap_progress fuel cfg args w :
  wp progress_step progress_X
     (stress_fiemap MIN_FIEMAP_SIZE DEFAULT_FIEMAP_SIZE MAXIMIZED_FILE_SIZE
        exit_status HAVE_PUNCH_HOLE o fuel cfg args)
     (fun _ _ s' => pg_ok s' = true)
     w (mk_progress_obs 0 0 true).
Proof.
  unfold stress_fiemap, close_clean, dir_clean, clean.
  wp_go; try done.
  apply spawn_loop_progress.
  { split; [|done]. split; [done|]. intros _.
    cbn. repeat split; try done. by repeat constructor. }
  intros [[n pids] stopped] w' s' Hs'. wp_go.
  all: try (apply stress_fiemap_writer_progress; [done|];
            intros rc w'' s'' Hs'').
  all: apply (wp_invariant _ _ teardown_event (fun s => pg_ok s = true));
    [apply reap_emits | event_cases | | done | done].
  - apply Hs'.
  - apply Hs''.
Qed.

End Progress.

Lemma progress_not_ok_sticky s t :
  pg_ok s = false -> pg_ok (observe progress_step s t) = false.
Proof.
  revert s. induction t as [|e t IH]; intros s Hs; [done|].
  unfold observe. simpl. apply IH. destruct e; simpl; try done.
  by rewrite Hs.
Qed.

Lemma remote_increments_nonneg t : 0 <= remote_increments t.
Proof. induction t as [|e t IH]; simpl; [done|]. destruct e; lia. Qed.

Lemma progress_obs_sound t s :
  pg_ok (observe progress_step s t) = true ->
  pg_remote s + remote_increments t < 2 ^ 64 ->
  Forall (Z.le (pg_last s)) (published_of t) /\
  StronglySorted Z.le (published_of t).
Proof.
  revert s. induction t as [|e t IH]; intros s Hok Hbound.
  - split; constructor.
  - unfold observe in Hok. simpl in Hok.
    fold (observe progress_step (progress_step s e) t) in Hok.
    pose proof (remote_increments_nonneg t) as Hnn.
    destruct e; simpl in Hbound;
      try (by apply (IH s)).
    + apply (IH (progress_step s (EvRemoteIncr i))); [done|]. simpl. lia.
    + destruct (pg_ok (progress_step s (EvSetCounter v))) eqn:E;
        [|by rewrite progress_not_ok_sticky in Hok].
      simpl in E. apply andb_true_iff in E as [_ E].
      apply orb_true_iff in E as [E|E]; [apply Z.leb_le in E; lia|].
      apply Z.leb_le in E.
      destruct (IH _ Hok) as [Hall Hsorted]; [simpl; lia|].
      simpl in Hall. split.
      * constructor; [done|]. eapply Forall_impl; [apply Hall|].
        simpl. intros; lia.
      * by constructor.
Qed.

Lemma wrap64_add_l a b : wrap64 (wrap64 a + b) = wrap64 (a + b).
Proof. unfold wrap64. by rewrite Zplus_mod_idemp_l. Qed.

Section Tally.
Variable o : oracle.

Lemma stress_fiemap_count_tally w :
  wp tally_step tally_X (stress_fiemap_count o)
     (fun _ _ s' =>
        exists v0 v1 v2 v3,
          ta_loads s' = [(0%nat, v0); (1%nat, v1); (2%nat, v2); (3%nat, v3)] /\
          ta_published s' = [wrap64 (v0 + v1 + v2 + v3)])
     w (mk_tally_obs [] []).
Proof.
  unfold stress_fiemap_count, MAX_FIEMAP_PROCS.
  wp_go.
  all: rewrite ?observe_fmap_ignored by done.
  all: cbn [tally_step observe foldl ta_loads ta_published app tally_X];
    try done.
  eexists _, _, _, _. split; [done|].
  repeat (rewrite <- ?Z.add_assoc; rewrite wrap64_add_l).
  do 2 f_equal; lia.
Qed.

End Tally.

Lemma tally_observe s t :
  ta_loads (observe tally_step s t) = ta_loads s ++ loads_of t /\
  ta_published (observe tally_step s t) = ta_published s ++ published_of t.
Proof.
  revert s. induction t as [|e t IH]; intros s.
  - simpl. by rewrite !app_nil_r.
  - unfold observe. simpl. fold (observe tally_step (tally_step s e) t).
    destruct (IH (tally_step s e)) as [-> ->].
    destruct e; simpl; rewrite <- ?app_assoc; done.
Qed.

(** A computation that emits no store. *)
Lemma no_store_in_class (C : event -> bool) t :
  (forall i v, C (EvStore i v) = false) ->
  Forall (fun e => C e = true) t -> stores_of t = [].
Proof.
  intros HC. induction 1 as [|e t He _ IH]; [done|].
  destruct e; simpl; try done. by rewrite HC in He.
Qed.


(** ** The length handed to the driver *)

Lemma log_observe s t : observe log_step s t = s ++ t.
Proof.
  revert s. induction t as [|e t IH]; intros s.
  - by rewrite app_nil_r.
  - unfold observe. simpl. fold (observe log_step (log_step s e) t).
    rewrite IH. unfold log_step. by rewrite <- app_assoc.
Qed.

Lemma no_driver_call_existsb s :
  no_driver_call s -> existsb is_driver_call s = false.
Proof.
  induction 1 as [|e s He _ IH]; [done|]. simpl. by rewrite He, IH.
Qed.

Lemma no_driver_call_snoc s e :
  no_driver_call s -> is_driver_call e = false -> no_driver_call (s ++ [e]).
Proof. intros Hs He. apply Forall_app. split; [done|]. by constructor. Qed.

Section Handover.
Variable HAVE_PUNCH_HOLE : bool.
Variable o : oracle.
Variable fuel0 : nat.
Variable w0 : world.
Variable len0 : Z.

Let X := handover_X HAVE_PUNCH_HOLE o fuel0 w0 len0.

Lemma no_driver_call_X ab s : no_driver_call s -> X ab s.
Proof.
  intros Hs Hd. by rewrite no_driver_call_existsb in Hd.
Qed.

Lemma stress_fiemap_spawn_handover fuel args slot fd w s :
  no_driver_call s ->
  wp log_step X (stress_fiemap_spawn o fuel args slot fd)
     (fun _ w' s' => no_driver_call s' /\ w' = tick w) w s.
Proof.
  intros Hs. unfold stress_fiemap_spawn. wp_go.
  - split; [|done]. by apply no_driver_call_snoc.
  - apply (wp_invariant _ _ worker_event no_driver_call);
      [ apply stress_fiemap_ioctl_emits
      | intros ? ev Hev ?; apply no_driver_call_snoc; [done|by destruct ev]
      | by repeat apply no_driver_call_snoc
      | intros; by apply no_driver_call_X
      | ].
    intros _ w' s' Hs'. wp_go. by apply no_driver_call_X.
  - split; [|done]. by repeat apply no_driver_call_snoc.
Qed.

Lemma spawn_loop_handover k fuel args fd n pids rc w s :
  no_driver_call s ->
  wp log_step X (spawn_loop o k fuel args fd n pids rc)
     (fun '(_, _, stopped) w' s' =>
        no_driver_call s' /\
        (stopped = None ->
         w' = mk_world (2 * k + clock w) (errno w) (counters w)))
     w s.
Proof.
  revert n pids w s. induction k as [|k IH]; intros n pids w s Hs;
    rewrite ?spawn_loop_0, ?spawn_loop_S.
  - wp_go. split; [done|]. intros _. by destruct w.
  - wp_go.
    + split; [|done]. by apply no_driver_call_snoc.
    + eapply wp_mono;
        [apply stress_fiemap_spawn_handover; by apply no_driver_call_snoc|].
      intros pid w' s' [Hs' ->]. wp_go; [done|].
      eapply wp_mono; [by apply IH|].
      intros [[n' pids'] stopped] w'' s'' [Hs'' Hw]. split; [done|].
      intros Hnone. rewrite Hw by done. unfold tick. simpl.
      f_equal. lia.
Qed.

End Handover.

Section HandoverRun.
Variable HAVE_PUNCH_HOLE : bool.
Variable o : oracle.
Variables MIN_FIEMAP_SIZE DEFAULT_FIEMAP_SIZE MAXIMIZED_FILE_SIZE : Z.
Variable exit_status : Z -> exit_code.

Lemma stress_fiemap_handover fuel cfg args w len :
  working_length MIN_FIEMAP_SIZE DEFAULT_FIEMAP_SIZE MAXIMIZED_FILE_SIZE
    cfg args = Some len ->
  wp log_step (handover_X HAVE_PUNCH_HOLE o fuel w len)
     (stress_fiemap MIN_FIEMAP_SIZE DEFAULT_FIEMAP_SIZE MAXIMIZED_FILE_SIZE
        exit_status HAVE_PUNCH_HOLE o fuel cfg args)
     (fun _ _ s' =>
        existsb is_driver_call s' = true ->
        hands_over HAVE_PUNCH_HOLE o fuel w len s')
     w [].
Proof.
  intros Hlen.
  unfold stress_fiemap, close_clean, dir_clean, clean. rewrite Hlen.
  wp_go; try done.
  all: eapply wp_mono;
    [apply spawn_loop_handover; by repeat constructor|].
  all: intros [[n pids] stopped] w' s' [Hs' Hw].
  all: wp_go.
  - apply (wp_invariant _ _ teardown_event no_driver_call);
      [ apply reap_emits
      | intros ? ev Hev ?; apply no_driver_call_snoc; [done|by destruct ev]
      | done
      | intros ab s'' Hs'' Hd; by rewrite no_driver_call_existsb in Hd
      | intros a w'' s'' Hs'' Hd; by rewrite no_driver_call_existsb in Hd ].
  - subst stopped. specialize (Hw eq_refl). subst w'.
    assert (forall tw post,
              trace_of (stress_fiemap_writer HAVE_PUNCH_HOLE o fuel
                          (driver_fd o w) len (driver_world w)) = tw ->
              no_driver_call post ->
              hands_over HAVE_PUNCH_HOLE o fuel w len
                ((s' ++ tw) ++ post)) as Hover.
    { intros tw post <- Hpost. exists s', post.
      by rewrite <- app_assoc. }
    unfold wp at 1.
    change (mk_world _ _ _) with (driver_world w).
    change (rv (o_open o _)) with (driver_fd o w).
    destruct (stress_fiemap_writer HAVE_PUNCH_HOLE o fuel (driver_fd o w)
                len (driver_world w)) as [rc w2 tw|rc w2 tw|why w2 tw|w2 tw]
      eqn:E; rewrite log_observe.
    + apply (wp_invariant _ _ teardown_event
               (fun s'' => exists post,
                  s'' = (s' ++ tw) ++ post /\ no_driver_call post));
        [ apply reap_emits
        | intros ? ev Hev (post & -> & Hpost);
          exists (post ++ [ev]); split;
          [ unfold log_step; by rewrite <- !app_assoc
          | apply no_driver_call_snoc; [done|by destruct ev] ]
        | exists []; split; [by rewrite app_nil_r|constructor]
        | intros ab s'' (post & -> & Hpost) _; by apply Hover
        | intros a w'' s'' (post & -> & Hpost) _; by apply Hover ].
    + intros _. rewrite <- (app_nil_r (s' ++ tw)).
      apply Hover; [done|constructor].
    + intros _. rewrite <- (app_nil_r (s' ++ tw)).
      apply Hover; [done|constructor].
    + intros _. rewrite <- (app_nil_r (s' ++ tw)).
      apply Hover; [done|constructor].
Qed.

End HandoverRun.


(** ** What must come next *)

Lemma hist_observe_history rule s t :
  fst (observe (hist_step rule) s t) = rev t ++ fst s.
Proof.
  revert s. induction t as [|e t IH]; intros s; [done|].
  unfold observe. simpl. fold (observe (hist_step rule) (hist_step rule s e) t).
  rewrite IH. simpl. by rewrite <- app_assoc.
Qed.

Lemma hist_not_ok_sticky rule s t :
  snd s = false -> snd (observe (hist_step rule) s t) = false.
Proof.
  revert s. induction t as [|e t IH]; intros s Hs; [done|].
  unfold observe. simpl. apply IH. simpl. by rewrite Hs.
Qed.

Lemma hist_obs_sound rule t :
  snd (observe (hist_step rule) ([], true) t) = true -> obeys rule t.
Proof.
  intros H pre e post ->.
  unfold observe in H. rewrite foldl_app in H. cbn [foldl] in H.
  fold (observe (hist_step rule) ([], true) pre) in H.
  pose proof (hist_observe_history rule ([], true) pre) as Hh.
  set (s1 := observe (hist_step rule) ([], true) pre) in *.
  fold (observe (hist_step rule) (hist_step rule s1 e) post) in H.
  simpl in Hh. rewrite app_nil_r in Hh. rewrite <- Hh.
  destruct (snd (hist_step rule s1 e)) eqn:E;
    [|by rewrite hist_not_ok_sticky in H].
  simpl in E. by apply andb_true_iff in E as [_ E].
Qed.

Lemma hist_step_eq rule h ok e :
  hist_step rule (h, ok) e = (e :: h, ok && rule h e).
Proof. done. Qed.

(** A burst of events of one kind [f], allowed at the start and after
    one another. *)
Lemma hist_observe_fmap {B} rule (f : B -> event) (l : list B) h :
  (forall x, rule h (f x) = true) ->
  (forall x y h', rule (f y :: h') (f x) = true) ->
  observe (hist_step rule) (h, true) (f <$> l) = (rev (f <$> l) ++ h, true).
Proof.
  intros H0 H1. revert h H0. induction l as [|x l IH]; intros h H0; [done|].
  rewrite fmap_cons. unfold observe. cbn [foldl].
  unfold hist_step at 2. cbn [fst snd]. rewrite H0. cbn [andb].
  fold (observe (hist_step rule) (f x :: h, true) (f <$> l)).
  rewrite IH by (intros; apply H1). simpl. by rewrite <- app_assoc.
Qed.

Lemma rev_fmap_head {B} (f : B -> event) (l : list B) (h : list event) :
  rev (f <$> l) ++ h = h \/ exists y h', rev (f <$> l) ++ h = f y :: h'.
Proof.
  induction l as [|x l _] using rev_ind; [by left|].
  right. rewrite fmap_app, rev_app_distr. simpl. eauto.
Qed.

(** Decide the integer tests of the goal and confront them with the
    tests already decided. *)
Ltac decide_tests :=
  split_tests;
  repeat match goal with
    | H : (?a <? ?b) = _, H' : context [?a <? ?b] |- _ =>
      lazymatch type of H' with
      | (a <? b) = _ => fail
      | _ => rewrite H in H'
      end
    | H : (?a =? ?b) = _, H' : context [?a =? ?b] |- _ =>
      lazymatch type of H' with
      | (a =? b) = _ => fail
      | _ => rewrite H in H'
      end
    end;
  cbn [andb orb negb] in *; try discriminate; try done.

Section WriteRule.
Variable HAVE_PUNCH_HOLE : bool.
Variable o : oracle.
Variable fd : Z.

Lemma settled_rule h e : settled h = true -> write_rule fd h e = true.
Proof.
  destruct h as [|e0 h]; [done|]. destruct e0; try done.
  destruct h as [|[] ?]; done.
Qed.

Lemma settled_done h : settled h = true -> write_done h = true.
Proof.
  destruct h as [|e0 h]; [done|]. destruct e0; try done.
  destruct b; [done|]. destruct h as [|[] ?]; done.
Qed.

Lemma count_ready_done i h : count_ready fd i h -> write_done h = true.
Proof.
  intros [Hs|[_ Hr]]; [by apply settled_done|].
  specialize (Hr (EvLoad 0 0) eq_refl).
  destruct h as [|e0 h]; [done|]. destruct e0; try done.
  - destruct b; [done|]. destruct h as [|[] ?]; done.
  - cbn [write_rule write_done] in *.
    destruct (rv r <? 0); [|done].
    destruct (err r =? ENOSPC); [done|].
    by destruct ((err r =? EAGAIN) || (err r =? EINTR)).
Qed.

Lemma body_ready_done h : body_ready fd h -> write_done h = true.
Proof.
  intros Hr. specialize (Hr 0 (sys_ok 0)).
  destruct h as [|e0 h]; [done|]. destruct e0; try done.
  - destruct b; [done|]. destruct h as [|[] ?]; done.
  - cbn [write_rule write_done] in *.
    destruct (rv r <? 0); [|done].
    destruct (err r =? ENOSPC); [done|].
    by destruct ((err r =? EAGAIN) || (err r =? EINTR)).
Qed.

Ltac hist_go :=
  repeat (rewrite !hist_step_eq; cbn [write_rule];
          rewrite ?settled_rule by done; cbn [andb]).

Lemma load_write i w h Q :
  count_ready fd i h ->
  (forall v w' h', settled h' = true -> Q v w' (h', true)) ->
  wp (hist_step (write_rule fd)) write_X (load o i) Q w (h, true).
Proof.
  intros Hr HQ.
  assert (forall e, starts_count e = true -> write_rule fd h e = true)
    as Hstart.
  { intros e He. destruct Hr as [Hs|[_ Hr]]; [by apply settled_rule|].
    by apply Hr. }
  unfold load. wp_go.
  all: rewrite hist_observe_fmap by (intros; first [by apply Hstart|done]).
  all: destruct (rev_fmap_head EvRemoteIncr
                   (o_interference o (clock w)) h) as [->|(y & h' & ->)].
  - assert (write_rule fd h (EvLoad i z) = true) as Hload.
    { destruct Hr as [Hs|[-> Hr]]; [by apply settled_rule|].
      by apply Hr. }
    rewrite hist_step_eq, Hload. by apply HQ.
  - hist_go. by apply HQ.
  - split; [done|]. by apply (count_ready_done i).
  - done.
Qed.

Lemma count_loop_write k i c w h Q :
  count_ready fd i h ->
  (forall c' w' h',
     settled h' = true \/ (k = 0%nat /\ h' = h) -> Q c' w' (h', true)) ->
  wp (hist_step (write_rule fd)) write_X (count_loop o k i c) Q w (h, true).
Proof.
  revert i c w h Q. induction k as [|k IH]; intros i c w h Q Hr HQ;
    rewrite ?count_loop_0, ?count_loop_S.
  - wp_go. apply HQ. by right.
  - apply wp_bind. apply load_write; [done|]. intros v w' h' Hs.
    apply IH; [by left|]. intros c' w'' h'' [Hs'|[_ ->]]; apply HQ; by left.
Qed.

Lemma count_write w h Q :
  count_ready fd 0 h ->
  (forall b w' h', settled h' = true -> Q b w' (h', true)) ->
  wp (hist_step (write_rule fd)) write_X (stress_fiemap_count o) Q w
     (h, true).
Proof.
  intros Hr HQ. unfold stress_fiemap_count. apply wp_bind.
  apply count_loop_write; [done|].
  intros c' w' h' [Hs|[Hk _]]; [|done].
  wp_go. hist_go. by apply HQ.
Qed.

Lemma writer_punch_write len ph w h :
  settled h = true ->
  wp (hist_step (write_rule fd)) write_X (writer_punch o fd len ph)
     (fun _ _ s' => snd s' = true /\ settled (fst s') = true) w (h, true).
Proof.
  intros Hs. unfold writer_punch. wp_go; hist_go; try done.
  all: try (by split).
  all: apply count_write; [by left|]; intros b w' h' Hs'; by wp_go.
Qed.

Lemma writer_body_write len ph w h :
  body_ready fd h ->
  wp (hist_step (write_rule fd)) write_X
     (writer_body HAVE_PUNCH_HOLE o fd len ph)
     (fun c _ s' =>
        snd s' = true /\
        match c with
        | CCondition _ => cond_ready (fst s')
        | CBreak => settled (fst s') = true
        | CTidy => close_ready fd (fst s')
        end) w (h, true).
Proof.
  intros Hr. unfold writer_body. wp_go.
  3: { split; [done|]. by apply body_ready_done. }
  all: rewrite hist_step_eq, Hr; cbn [andb].
  - done.
  - unfold writer_after_seek. apply wp_bind.
    apply count_write; [by left|]. intros b w' h' Hs'.
    wp_go; [done|]. unfold writer_write. wp_go.
    all: unfold writer_after_write; wp_go.
    all: hist_go; cbn [fst snd].
    all: try (split; [done|]; right; eexists _, _, _; split; [done|];
              by apply andb_true_iff).
    all: try (split;
              [ decide_tests
              | unfold close_ready; cbn [write_rule is_close_of];
                apply Z.eqb_refl ]).
    all: try (apply andb_true_iff in Heqb2 as [? _]; congruence).
    all: apply count_write;
      [ right; split; [done|]; intros e He; cbn [write_rule];
        rewrite He; decide_tests
      | intros b' w'' h'' Hs''; wp_go; try done ].
    all: try (split; [done|by left]).
    all: eapply wp_mono; [by apply writer_punch_write|].
    all: intros c [h3 ok3] s3 [Hok Hs3]; cbn [fst snd] in *.
    all: split; [done|]; destruct c; [done|by left|by apply settled_rule].
Qed.

Lemma writer_loop_write fuel len ph w h :
  body_ready fd h ->
  wp (hist_step (write_rule fd)) write_X
     (writer_loop HAVE_PUNCH_HOLE o fuel fd len ph)
     (fun _ _ s' => snd s' = true /\ close_ready fd (fst s')) w (h, true).
Proof.
  revert ph w h. induction fuel as [|fuel IH]; intros ph w h Hr; simpl.
  - wp_go. split; [done|]. by apply body_ready_done.
  - wp_go. eapply wp_mono; [by apply writer_body_write|].
    intros c w' [h' ok'] [Hok Hc]; cbn [fst snd] in *. subst ok'.
    assert (cond_ready h' ->
            forall b, write_rule fd h' (EvKeepStressing b) = true) as Hk.
    { intros [Hs|(fd' & r & h0 & -> & H1 & H2)] b;
        [by apply settled_rule|].
      cbn [write_rule]. by rewrite H1, H2. }
    assert (forall (b : bool) e,
              (if b then is_lseek_on fd e else is_close_of fd e) = true ->
              write_rule fd (EvKeepStressing b :: h') e = true) as Hnext.
    { intros b e He. destruct h' as [|[] h']; try done. }
    destruct c; wp_go; rewrite ?hist_step_eq, ?Hk by done; cbn [andb].
    + split; [done|]. by apply settled_rule.
    + apply IH. intros off x. apply Hnext. cbn. apply Z.eqb_refl.
    + split; [done|]. apply Hnext. cbn. apply Z.eqb_refl.
    + done.
Qed.

Lemma stress_fiemap_writer_write fuel fiemap_bytes w :
  wp (hist_step (write_rule fd)) write_X
     (stress_fiemap_writer HAVE_PUNCH_HOLE o fuel fd fiemap_bytes)
     (fun _ _ s' => snd s' = true /\ write_done (fst s') = true)
     w ([], true).
Proof.
  unfold stress_fiemap_writer. wp_go.
  eapply wp_mono; [by apply writer_loop_write|].
  intros b w' [h' ok'] [Hok Hc]; cbn [fst snd] in *. subst ok'.
  wp_go. rewrite hist_step_eq. unfold close_ready in Hc. by rewrite Hc.
Qed.

End WriteRule.


(** * The claims *)

(** ** Working length *)

(** C4. For every requested size [S] in the configured range (one that
    [stress_set_fiemap_bytes] accepts) and every instance count [n >= 1],
    the per-instance working length computed by [stress_fiemap] is
    [max (S / n) MIN_FIEMAP_SIZE], with integer division, and it is the
    length the stressor uses: whenever a run of [stress_fiemap] seeks,
    writes or punches a hole, its trace contains the run of
    [stress_fiemap_writer] on the opened file with exactly that length,
    and every seek, write and hole punch of the run is the driver's. *)
Theorem working_length_clamped
    (MIN_FIEMAP_SIZE MAX_FIEMAP_SIZE DEFAULT_FIEMAP_SIZE MAXIMIZED_FILE_SIZE
       S : Z) (cfg0 cfg : settings) (args : stress_args) :
  stress_set_fiemap_bytes MIN_FIEMAP_SIZE MAX_FIEMAP_SIZE S cfg0 = Some cfg ->
  1 <= num_instances args ->
  MIN_FIEMAP_SIZE <= S <= MAX_FIEMAP_SIZE /\
  working_length MIN_FIEMAP_SIZE DEFAULT_FIEMAP_SIZE MAXIMIZED_FILE_SIZE
    cfg args
  = Some (Z.max (S / num_instances args) MIN_FIEMAP_SIZE) /\
  (forall (exit_status : Z -> exit_code) (HAVE_PUNCH_HOLE : bool)
          (o : oracle) (fuel : nat) (w : world),
     let t := trace_of (stress_fiemap MIN_FIEMAP_SIZE DEFAULT_FIEMAP_SIZE
                          MAXIMIZED_FILE_SIZE exit_status HAVE_PUNCH_HOLE o
                          fuel cfg args w) in
     existsb is_driver_call t = true ->
     hands_over HAVE_PUNCH_HOLE o fuel w
       (Z.max (S / num_instances args) MIN_FIEMAP_SIZE) t).
Proof.
  intros Hset Hn.
  assert (MIN_FIEMAP_SIZE <= S <= MAX_FIEMAP_SIZE /\
          working_length MIN_FIEMAP_SIZE DEFAULT_FIEMAP_SIZE
            MAXIMIZED_FILE_SIZE cfg args
          = Some (Z.max (S / num_instances args) MIN_FIEMAP_SIZE))
    as [Hrange Hlen].
  { unfold stress_set_fiemap_bytes in Hset.
    destruct (_ || _) eqn:Hrange; [done|]. injection Hset as <-.
    apply orb_false_iff in Hrange as [H1 H2]. bool_facts.
    split; [lia|].
    unfold working_length, initial_fiemap_bytes. simpl.
    destruct (num_instances args =? 0) eqn:E; [apply Z.eqb_eq in E; lia|].
    f_equal.
    destruct (S / num_instances args <? MIN_FIEMAP_SIZE) eqn:E';
      bool_facts; lia. }
  split; [done|]. split; [done|].
  intros exit_status HAVE_PUNCH_HOLE o fuel w t Hd.
  pose proof (stress_fiemap_handover HAVE_PUNCH_HOLE o MIN_FIEMAP_SIZE
                DEFAULT_FIEMAP_SIZE MAXIMIZED_FILE_SIZE exit_status fuel cfg
                args w _ Hlen) as H.
  unfold wp in H. fold t in Hd.
  destruct (stress_fiemap _ _ _ _ _ _ _ _ _ _); simpl in t; subst t;
    rewrite log_observe in H; simpl in H; by apply H.
Qed.

Lemma working_length_clamped_witness :
  let cfg := mk_settings (Some (64 * MiB)) false false in
  let args := mk_args 0 2 in
  MiB <= 64 * MiB <= 2 ^ 63 - 1 /\
  working_length MiB (16 * MiB) (2 ^ 63 - 1) cfg args
  = Some (Z.max (64 * MiB / 2) MiB) /\
  hands_over true (calm 40) 5 fresh_world (Z.max (64 * MiB / 2) MiB)
    (trace_of (stress_fiemap MiB (16 * MiB) (2 ^ 63 - 1) sample_exit_status
                 true (calm 40) 5 cfg args fresh_world)).
Proof.
  intros cfg args.
  destruct (working_length_clamped MiB (2 ^ 63 - 1) (16 * MiB) (2 ^ 63 - 1)
              (64 * MiB) default_settings cfg args)
    as (H1 & H2 & H3); [reflexivity | simpl; lia |].
  split; [exact H1|]. split; [exact H2|].
  apply H3. vm_compute. reflexivity.
Defined.

(** ** The fragmentation driver *)

(** C6. Once a hole-punch request has failed with "operation not
    supported", the driver issues no other hole-punch request: in the
    trace of every run of the driver, and of every run of the stressor,
    complete or cut short, no [fallocate] follows a refused one. *)
Theorem punch_hole_disabled_for_good
    (MIN_FIEMAP_SIZE DEFAULT_FIEMAP_SIZE MAXIMIZED_FILE_SIZE : Z)
    (exit_status : Z -> exit_code) (HAVE_PUNCH_HOLE : bool) (o : oracle)
    (fuel : nat) :
  (forall fd fiemap_bytes w,
     no_punch_after_unsupported
       (trace_of (stress_fiemap_writer HAVE_PUNCH_HOLE o fuel fd
                    fiemap_bytes w))) /\
  (forall cfg args w,
     no_punch_after_unsupported
       (trace_of (stress_fiemap MIN_FIEMAP_SIZE DEFAULT_FIEMAP_SIZE
                    MAXIMIZED_FILE_SIZE exit_status HAVE_PUNCH_HOLE o fuel
                    cfg args w))).
Proof.
  split; intros.
  - apply (punch_obs_sound _ (mk_punch_obs false false)).
    apply (wp_observe punch_step punch_X (fun s => po_violated s = false));
      [done|].
    by apply stress_fiemap_writer_punch.
  - apply (punch_obs_sound _ (mk_punch_obs false false)).
    apply (wp_observe punch_step punch_X (fun s => po_violated s = false));
      [done|].
    apply stress_fiemap_punch.
Qed.

(** C7. A write that fails with ENOSPC makes the driver skip the rest of
    the iteration and go to the loop condition; one that fails with EAGAIN
    or EINTR is ignored and the iteration goes on; any other failure is
    reported and ends the driver.  The driver returns EXIT_FAILURE exactly
    when such a fatal failure happened, and then it does return.
    In every run of the driver this shows in what follows each write:
    after ENOSPC the next event is the loop condition, and then the seek
    of the next iteration or, when told to stop, the [close]; after EAGAIN,
    EINTR or a successful write the next event is the start of
    [stress_fiemap_count]; after any other failure the report, the
    [close], and nothing more; and no run ends owing one of these. *)
Theorem write_errors_of_the_driver (HAVE_PUNCH_HOLE : bool) (o : oracle) :
  (forall fd w,
     let r := o_write o (clock w) in
     let ends c t := writer_write o fd w = Ret c (after_syscall r w) t in
     (rv r < 0 -> err r = ENOSPC -> ends WriteRetry [EvWrite fd r]) /\
     (rv r < 0 -> err r = EAGAIN \/ err r = EINTR ->
      ends WriteProceed [EvWrite fd r]) /\
     (rv r < 0 -> err r <> ENOSPC -> err r <> EAGAIN -> err r <> EINTR ->
      ends WriteFatal [EvWrite fd r; EvPrFail]) /\
     (0 <= rv r -> ends WriteProceed [EvWrite fd r])) /\
  (forall fd len punch_hole w,
     writer_after_write HAVE_PUNCH_HOLE o fd len punch_hole WriteRetry w
       = Ret (CCondition punch_hole) w [] /\
     writer_after_write HAVE_PUNCH_HOLE o fd len punch_hole WriteFatal w
       = Ret CTidy w []) /\
  (forall fuel fd len punch_hole w punch_hole' w1 t1,
     writer_body HAVE_PUNCH_HOLE o fd len punch_hole w
       = Ret (CCondition punch_hole') w1 t1 ->
     writer_loop HAVE_PUNCH_HOLE o (S fuel) fd len punch_hole w
     = prefix_trace (t1 ++ [EvKeepStressing (o_keep_stressing o (clock w1))])
         (if o_keep_stressing o (clock w1)
          then writer_loop HAVE_PUNCH_HOLE o fuel fd len punch_hole' (tick w1)
          else Ret true (tick w1) [])) /\
  (forall fuel fd fiemap_bytes w,
     let r := stress_fiemap_writer HAVE_PUNCH_HOLE o fuel fd fiemap_bytes w in
     (existsb is_fatal_write (trace_of r) = true ->
      exists w', r = Ret EXIT_FAILURE w' (trace_of r)) /\
     (forall rc w' t, r = Ret rc w' t ->
        rc = if existsb is_fatal_write t then EXIT_FAILURE
             else EXIT_SUCCESS)) /\
  (forall fuel fd fiemap_bytes w,
     let t := trace_of (stress_fiemap_writer HAVE_PUNCH_HOLE o fuel fd
                          fiemap_bytes w) in
     obeys (write_rule fd) t /\ write_done (rev t) = true).
Proof.
  split; [|split; [|split; [|split]]].
  - intros fd w r ends. unfold ends. rewrite writer_write_classified.
    fold r. unfold classify_write, fatal_write_result.
    repeat split; intros; rewrite_tests.
    + destruct (rv r <? 0) eqn:E1; [|bool_facts; lia].
      destruct (err r =? ENOSPC) eqn:E2; [|bool_facts; lia]. done.
    + destruct (rv r <? 0) eqn:E1; [|bool_facts; lia].
      destruct (err r =? ENOSPC) eqn:E2; [bool_facts; errno_lia|].
      destruct (err r =? EAGAIN) eqn:E3; [done|].
      destruct (err r =? EINTR) eqn:E4; [done|]. bool_facts. lia.
    + destruct (rv r <? 0) eqn:E1; [|bool_facts; lia].
      destruct (err r =? ENOSPC) eqn:E2; [bool_facts; lia|].
      destruct (err r =? EAGAIN) eqn:E3; [bool_facts; lia|].
      destruct (err r =? EINTR) eqn:E4; [bool_facts; lia|]. done.
    + destruct (rv r <? 0) eqn:E1; [bool_facts; lia|]. done.
  - done.
  - intros fuel fd len ph w ph' w1 t1 Hbody. simpl.
    unfold mbind, M_bind, bind at 1. rewrite Hbody.
    unfold bind, keep_stressing, mbind, M_bind, bind, ask, emit, mret,
      M_ret, ret, tick. simpl.
    destruct (o_keep_stressing o (clock w1)); simpl.
    + destruct (writer_loop _ _ _ _ _ _ _); simpl;
        by rewrite ?app_nil_r, <- ?app_assoc.
    + by rewrite ?app_nil_r, <- ?app_assoc.
  - intros fuel fd fiemap_bytes w r.
    pose proof (stress_fiemap_writer_fatal HAVE_PUNCH_HOLE o fuel fd
                  fiemap_bytes w) as H.
    unfold wp in H. fold r in H. unfold fatal_X in H.
    destruct r as [rc w' t|rc w' t|why w' t|w' t]; simpl;
      rewrite fatal_observe in H; simpl in H.
    + split.
      * intros Hf. rewrite Hf in H. subst rc. eauto.
      * intros rc' w'' t' [= <- <- <-]. done.
    + split; [congruence|done].
    + split; [congruence|done].
    + split; [congruence|done].
  - intros fuel fd fiemap_bytes w t.
    assert (let s := observe (hist_step (write_rule fd)) ([], true) t in
            snd s = true /\ write_done (fst s) = true) as [Hok Hend].
    { apply (wp_observe (hist_step (write_rule fd)) write_X
               (fun s => snd s = true /\ write_done (fst s) = true));
        [done|].
      apply stress_fiemap_writer_write. }
    split; [by apply hist_obs_sound|].
    by rewrite hist_observe_history, app_nil_r in Hend.
Qed.

Lemma write_errors_of_the_driver_witness :
  let r := stress_fiemap_writer true io_error 5 3 MiB mapped_world in
  exists w', r = Ret EXIT_FAILURE w' (trace_of r).
Proof.
  apply (proj1 (proj1 (proj2 (proj2 (proj2 (write_errors_of_the_driver true
           io_error)))) 5%nat 3 MiB mapped_world)).
  vm_compute. reflexivity.
Defined.

(** C9. The driver closes the descriptor it was given on every return
    path, as its last action; when the driver has run, the supervisor's
    teardown closes the same descriptor once more. *)
Theorem descriptor_closed_twice
    (MIN_FIEMAP_SIZE DEFAULT_FIEMAP_SIZE MAXIMIZED_FILE_SIZE : Z)
    (exit_status : Z -> exit_code) (HAVE_PUNCH_HOLE : bool) (o : oracle)
    (fuel : nat) :
  (forall fd fiemap_bytes w rc w' t,
     stress_fiemap_writer HAVE_PUNCH_HOLE o fuel fd fiemap_bytes w
       = Ret rc w' t ->
     exists t0, t = t0 ++ [EvClose fd] /\
                Forall (fun e => is_close e = false) t0) /\
  (forall cfg args w rc w' t,
     stress_fiemap MIN_FIEMAP_SIZE DEFAULT_FIEMAP_SIZE MAXIMIZED_FILE_SIZE
       exit_status HAVE_PUNCH_HOLE o fuel cfg args w = Ret rc w' t ->
     existsb is_lseek t = true ->
     exists fd, closes_of t = [fd; fd]).
Proof.
  split.
  - intros fd fiemap_bytes w rc w' t. unfold stress_fiemap_writer.
    unfold mbind, M_bind, bind at 1.
    pose proof (writer_loop_close_free HAVE_PUNCH_HOLE o fuel fd
                  (wrap64 (fiemap_bytes - 1)) true w) as Hfree.
    destruct (writer_loop _ _ _ _ _ _ _) as [b w1 t1| | |]; try done.
    simpl. intros [= <- <- <-]. exists t1. split; [done|]. apply Hfree.
  - intros cfg args w rc w' t Hrun Hs.
    pose proof (stress_fiemap_close HAVE_PUNCH_HOLE o MIN_FIEMAP_SIZE
                  DEFAULT_FIEMAP_SIZE MAXIMIZED_FILE_SIZE exit_status
                  fuel cfg args w) as H.
    unfold wp in H. rewrite Hrun in H.
    destruct (close_observe (mk_close_obs [] false) t) as [Hc Hl].
    rewrite Hc, Hl in H. simpl in H. apply H, Hs.
Qed.

Lemma descriptor_closed_twice_witness :
  exists fd, closes_of (trace_of (run_stressor (calm 40) 5)) = [fd; fd].
Proof.
  destruct (run_stressor (calm 40) 5) as [rc w' t| | |] eqn:E;
    try (vm_compute in E; discriminate).
  apply (proj2 (descriptor_closed_twice MiB (16 * MiB) (2 ^ 63 - 1)
                  sample_exit_status true (calm 40) 5)
           default_settings one_instance fresh_world rc w' t E).
  vm_compute in E. injection E as <- <- <-. reflexivity.
Defined.

(** C10. When the working length is at least [MIN_FIEMAP_SIZE], which is
    more than the one byte of the probe, the modulus [fiemap_bytes - 1]
    is positive, the driver never divides by zero, and every offset it
    seeks to (and every offset it punches at) is below
    [fiemap_bytes - 1].  The length [stress_fiemap] hands to the driver
    is at least [MIN_FIEMAP_SIZE]. *)
Theorem driver_offsets_below_modulus
    (MIN_FIEMAP_SIZE DEFAULT_FIEMAP_SIZE MAXIMIZED_FILE_SIZE : Z)
    (HAVE_PUNCH_HOLE : bool) (o : oracle) (fuel : nat)
    (fd fiemap_bytes : Z) (w : world) :
  1 < MIN_FIEMAP_SIZE ->
  MIN_FIEMAP_SIZE <= fiemap_bytes < 2 ^ 64 ->
  let r := stress_fiemap_writer HAVE_PUNCH_HOLE o fuel fd fiemap_bytes w in
  0 < wrap64 (fiemap_bytes - 1) /\
  wrap64 (fiemap_bytes - 1) = fiemap_bytes - 1 /\
  no_division_by_zero r /\
  Forall (offset_below (fiemap_bytes - 1)) (trace_of r) /\
  (forall cfg args len,
     working_length MIN_FIEMAP_SIZE DEFAULT_FIEMAP_SIZE MAXIMIZED_FILE_SIZE
       cfg args = Some len -> MIN_FIEMAP_SIZE <= len).
Proof.
  intros Hmin Hb r.
  assert (wrap64 (fiemap_bytes - 1) = fiemap_bytes - 1) as Hw
    by (unfold wrap64; rewrite Z.mod_small; lia).
  split; [lia|]. split; [done|].
  pose proof (stress_fiemap_writer_offsets HAVE_PUNCH_HOLE o fuel fd
                fiemap_bytes w ltac:(lia)) as H.
  unfold wp in H. fold r in H. unfold offset_X in H.
  split; [|split].
  - destruct r as [| |[]|]; simpl; try done.
    destruct H as [_ H]. by apply H.
  - destruct r; simpl in *; [|destruct H as [H _] ..];
      apply all_observe in H; apply H.
  - intros cfg args len. unfold working_length.
    destruct (num_instances args =? 0); [done|].
    intros [= <-].
    destruct (_ <? _) eqn:E; bool_facts; lia.
Qed.

Lemma driver_offsets_below_modulus_witness :
  let r := stress_fiemap_writer true (calm 40) 5 3 MiB mapped_world in
  0 < wrap64 (MiB - 1) /\
  wrap64 (MiB - 1) = MiB - 1 /\
  no_division_by_zero r /\
  Forall (offset_below (MiB - 1)) (trace_of r) /\
  (forall cfg args len,
     working_length MiB (16 * MiB) (2 ^ 63 - 1) cfg args = Some len ->
     MiB <= len).
Proof.
  apply (driver_offsets_below_modulus MiB (16 * MiB) (2 ^ 63 - 1) true
           (calm 40) 5 3 MiB mapped_world); unfold MiB; lia.
Defined.

(** ** The supervisor *)

(** C3. When the capability probe fails, whatever the error code, the run
    returns the "not implemented" status, which is not the failure
    status; no process is forked and the driver makes no call. *)
Theorem failed_probe_ends_the_run
    (MIN_FIEMAP_SIZE DEFAULT_FIEMAP_SIZE MAXIMIZED_FILE_SIZE : Z)
    (exit_status : Z -> exit_code) (HAVE_PUNCH_HOLE : bool) (o : oracle)
    (fuel : nat) (cfg : settings) (args : stress_args) (w : world) :
  let r := stress_fiemap MIN_FIEMAP_SIZE DEFAULT_FIEMAP_SIZE
             MAXIMIZED_FILE_SIZE exit_status HAVE_PUNCH_HOLE o fuel cfg
             args w in
  existsb failed_probe (trace_of r) = true ->
  (exists w', r = Ret EXIT_NOT_IMPLEMENTED w' (trace_of r)) /\
  existsb (fun e => is_fork e || is_driver_call e) (trace_of r) = false /\
  EXIT_NOT_IMPLEMENTED <> EXIT_FAILURE.
Proof.
  intros r Hfail.
  pose proof (stress_fiemap_probe HAVE_PUNCH_HOLE o MIN_FIEMAP_SIZE
                DEFAULT_FIEMAP_SIZE MAXIMIZED_FILE_SIZE exit_status fuel
                cfg args w) as H.
  unfold wp in H. fold r in H. unfold probe_X in H.
  destruct (probe_observe (mk_probe_obs false false) (trace_of r))
    as [Hf Ha].
  simpl in Hf, Ha. rewrite Hfail in Hf.
  destruct r as [rc w' t|rc w' t|why w' t|w' t]; simpl in *;
    try congruence.
  destruct (H Hf) as [-> Hact]. rewrite Hact in Ha.
  repeat split; eauto.
Qed.

Lemma failed_probe_ends_the_run_witness :
  let r := run_stressor no_fiemap 5 in
  (exists w', r = Ret EXIT_NOT_IMPLEMENTED w' (trace_of r)) /\
  existsb (fun e => is_fork e || is_driver_call e) (trace_of r) = false /\
  EXIT_NOT_IMPLEMENTED <> EXIT_FAILURE.
Proof.
  apply (failed_probe_ends_the_run MiB (16 * MiB) (2 ^ 63 - 1)
           sample_exit_status true no_fiemap 5 default_settings
           one_instance fresh_world).
  vm_compute. reflexivity.
Defined.

(** C2, as the code has it. When a fork fails, the supervisor forks no
    further process, kills and waits for exactly the children it has
    forked, in the order it forked them, does not run the driver, and
    returns EXIT_FAILURE. *)
Theorem failed_fork_stops_spawning
    (MIN_FIEMAP_SIZE DEFAULT_FIEMAP_SIZE MAXIMIZED_FILE_SIZE : Z)
    (exit_status : Z -> exit_code) (HAVE_PUNCH_HOLE : bool) (o : oracle)
    (fuel : nat) (cfg : settings) (args : stress_args) (w : world) :
  let r := stress_fiemap MIN_FIEMAP_SIZE DEFAULT_FIEMAP_SIZE
             MAXIMIZED_FILE_SIZE exit_status HAVE_PUNCH_HOLE o fuel cfg
             args w in
  existsb failed_fork (trace_of r) = true ->
  (exists w', r = Ret EXIT_FAILURE w' (trace_of r)) /\
  no_fork_after_failure (trace_of r) /\
  killed_of (trace_of r) = forked_of (trace_of r) /\
  waited_of (trace_of r) = forked_of (trace_of r) /\
  existsb is_driver_call (trace_of r) = false.
Proof.
  intros r Hfail.
  pose proof (stress_fiemap_spawn_fails HAVE_PUNCH_HOLE o MIN_FIEMAP_SIZE
                DEFAULT_FIEMAP_SIZE MAXIMIZED_FILE_SIZE exit_status fuel
                cfg args w) as H.
  unfold wp in H. fold r in H. unfold spawn_X in H.
  destruct (spawn_observe spawn_start (trace_of r))
    as (Hf & Hx & Hk & Hw & Hd).
  simpl in Hf, Hx, Hk, Hw, Hd. rewrite Hfail in Hx.
  destruct r as [rc w' t|rc w' t|why w' t|w' t]; simpl in *;
    try congruence.
  destruct (H Hx) as (-> & Hagain & Hkill & Hwait & Hdrove).
  split; [eauto|]. split.
  - by apply (spawn_obs_sound t spawn_start).
  - split; [congruence|]. split; [congruence|]. congruence.
Qed.

Lemma failed_fork_stops_spawning_witness :
  let r := run_stressor second_fork_fails 5 in
  (exists w', r = Ret EXIT_FAILURE w' (trace_of r)) /\
  no_fork_after_failure (trace_of r) /\
  killed_of (trace_of r) = forked_of (trace_of r) /\
  waited_of (trace_of r) = forked_of (trace_of r) /\
  existsb is_driver_call (trace_of r) = false.
Proof.
  apply (failed_fork_stops_spawning MiB (16 * MiB) (2 ^ 63 - 1)
           sample_exit_status true second_fork_fails 5 default_settings
           one_instance fresh_world).
  vm_compute. reflexivity.
Defined.

(** C2 as stated fails: with one child forked and the second fork
    failing, the run ends in EXIT_FAILURE. *)
Lemma partial_fanout_is_fatal :
  ~ partial_fanout_not_fatal (run_stressor second_fork_fails 5).
Proof.
  intros H.
  destruct (run_stressor second_fork_fails 5) as [rc w t| | |] eqn:E;
    try (vm_compute in E; discriminate).
  specialize (H rc w t eq_refl).
  vm_compute in E. injection E as <- <- <-.
  apply H; reflexivity.
Qed.

(** ** The extent query worker *)

(** C1, as the code has it. In every cycle the populate call asks for
    exactly the number of extents the discovery call of that cycle
    reported, with the mapped count reset to zero.  A cycle fails, with a
    report, when the populate call itself fails; when it succeeds the
    cycle is counted in the worker's slot whatever count the call
    reported. *)
Theorem populate_asks_what_discovery_reported (o : oracle) :
  (forall fuel args slot fd w,
     capacity_matches_discovery
       (trace_of (stress_fiemap_ioctl o fuel args slot fd w))) /\
  (forall args slot fd c w r w' t,
     ioctl_body o args slot fd c w = Ret r w' t -> cycle_outcome slot r t).
Proof.
  split.
  - intros fuel args slot fd w pre fd' req r k post Heq.
    pose proof (stress_fiemap_ioctl_query o fuel args slot fd w
                  (mk_query_obs None true) eq_refl) as H.
    apply (wp_observe query_step query_X (fun s => qo_ok s = true)) in H;
      [|done].
    destruct (query_obs_sound _ _ H _ _ _ _ _ _ Heq) as [Hm Hcases].
    split; [done|]. destruct Hcases as [[_ ?]|?]; [done|done].
  - intros args slot fd c w r w' t Hrun.
    pose proof (ioctl_body_cycle o args slot fd c w) as H.
    unfold wp in H. rewrite Hrun in H.
    destruct (cycle_observe (mk_cycle_obs [] [] [] false) t)
      as (Hp & Hl & Hs & Hf).
    simpl in Hp, Hl, Hs, Hf. rewrite Hp, Hl, Hs, Hf in H. exact H.
Qed.

Lemma populate_asks_what_discovery_reported_witness :
  cycle_outcome 0 (Some 1)
    (trace_of (ioctl_body growing_file one_instance 0 3 0 mapped_world)).
Proof.
  destruct (ioctl_body growing_file one_instance 0 3 0 mapped_world)
    as [r w' t| | |] eqn:E; try (vm_compute in E; discriminate).
  assert (r = Some 1) as <- by (vm_compute in E; congruence).
  exact (proj2 (populate_asks_what_discovery_reported growing_file)
           one_instance 0%nat 3 0 mapped_world r w' t E).
Defined.

(** C1 as stated fails: the file is empty at the discovery call and has
    one extent at the populate call, which therefore reports more extents
    than the zero it was asked for; the cycle is counted all the same. *)
Lemma overcount_is_accepted :
  ~ fails_closed (ioctl_body growing_file one_instance 0 3 0 mapped_world).
Proof.
  intros H.
  destruct (ioctl_body growing_file one_instance 0 3 0 mapped_world)
    as [r w' t| | |] eqn:E; try (vm_compute in E; discriminate).
  vm_compute in E. injection E as <- <- <-.
  destruct (H (mk_fiemap 0 (2 ^ 64 - 1) 0 0 0) (sys_ok 0) 1) as [_ Hf].
  - left. reflexivity.
  - simpl. lia.
  - simpl. lia.
  - discriminate Hf.
Qed.

(** ** The shared counters *)

(** C5, as the code has it. Every store to the counter array is made by
    a query worker, to the slot it was handed: the one whose index is the
    number of workers forked before it.  A worker's cycle that completes
    increments that slot.  The supervisor, which runs the driver, stores
    nothing: [stress_fiemap_count] loads the four slots and publishes
    their sum. *)
Theorem counters_written_by_their_workers
    (MIN_FIEMAP_SIZE DEFAULT_FIEMAP_SIZE MAXIMIZED_FILE_SIZE : Z)
    (exit_status : Z -> exit_code) (HAVE_PUNCH_HOLE : bool) (o : oracle)
    (fuel : nat) :
  (forall cfg args w,
     let r := stress_fiemap MIN_FIEMAP_SIZE DEFAULT_FIEMAP_SIZE
                MAXIMIZED_FILE_SIZE exit_status HAVE_PUNCH_HOLE o fuel
                cfg args w in
     stores_by_owner (trace_of r) /\
     (forall rc w' t, r = Ret rc w' t -> stores_of t = [])) /\
  (forall args slot fd c w r w' t,
     ioctl_body o args slot fd c w = Ret (Some r) w' t ->
     exists v, loads_of t = [(slot, v)] /\
               stores_of t = [(slot, incr64 v)]) /\
  (forall fd fiemap_bytes w,
     stores_of (trace_of (stress_fiemap_writer HAVE_PUNCH_HOLE o fuel fd
                            fiemap_bytes w)) = []) /\
  (forall w b w' t,
     stress_fiemap_count o w = Ret b w' t -> count_outcome t).
Proof.
  split; [|split; [|split]].
  - intros cfg args w r.
    pose proof (stress_fiemap_owner HAVE_PUNCH_HOLE o MIN_FIEMAP_SIZE
                  DEFAULT_FIEMAP_SIZE MAXIMIZED_FILE_SIZE exit_status fuel
                  cfg args w) as H.
    fold r in H. split.
    + assert (ow_ok (observe owner_step (mk_owner_obs 0 false true)
                        (trace_of r)) = true) as Hobs.
      { apply (wp_observe owner_step owner_X (fun s => ow_ok s = true));
          [done|].
        eapply wp_mono; [apply H|]. by intros ??? []. }
      intros pre i v post Heq.
      destruct (owner_obs_sound _ _ Hobs _ _ _ _ Heq) as (? & ? & ?).
      done.
    + intros rc w' t Hr. unfold wp in H. fold r in H. rewrite Hr in H.
      destruct H as [Hc Hok].
      by apply (owner_supervisor_stores t (mk_owner_obs 0 false true)).
  - intros args slot fd c w r w' t Hrun.
    pose proof (ioctl_body_cycle o args slot fd c w) as H.
    unfold wp in H. rewrite Hrun in H.
    destruct (cycle_observe (mk_cycle_obs [] [] [] false) t)
      as (Hp & Hl & Hs & Hf).
    simpl in Hp, Hl, Hs, Hf. rewrite Hp, Hl, Hs, Hf in H.
    destruct H as [(_ & ? & _)|[(? & ? & ? & _ & _ & ? & _)|H]]; try done.
    destruct H as (req & x & k & c' & v & _ & _ & _ & _ & Hl' & Hs').
    by exists v.
  - intros fd fiemap_bytes w.
    apply (no_store_in_class writer_event); [done|].
    apply stress_fiemap_writer_emits.
  - intros w b w' t Hrun.
    pose proof (stress_fiemap_count_tally o w) as H.
    unfold wp in H. rewrite Hrun in H.
    destruct (tally_observe (mk_tally_obs [] []) t) as [Hl Hp].
    simpl in Hl, Hp. rewrite Hl, Hp in H.
    destruct H as (v0 & v1 & v2 & v3 & Hl' & Hp').
    exists v0, v1, v2, v3. repeat split; try done.
    apply (no_store_in_class counting_event); [done|].
    pose proof (stress_fiemap_count_emits o w) as He.
    by rewrite Hrun in He.
Qed.

Lemma counters_written_by_their_workers_witness :
  count_outcome
    (trace_of (stress_fiemap_count (calm 40) mapped_world)).
Proof.
  destruct (stress_fiemap_count (calm 40) mapped_world)
    as [b w' t| | |] eqn:E; try (vm_compute in E; discriminate).
  exact (proj2 (proj2 (proj2
           (counters_written_by_their_workers MiB (16 * MiB) (2 ^ 63 - 1)
              sample_exit_status true (calm 40) 5)))
           mapped_world b w' t E).
Defined.

(** C5 as stated fails for the driver: an iteration of the driver that
    completes has stored to no slot, and the counters are as they were. *)
Lemma driver_iteration_stores_nothing :
  ~ driver_iteration_increments
      (writer_body true (calm 40) 3 (MiB - 1) true mapped_world).
Proof.
  intros H.
  destruct (writer_body true (calm 40) 3 (MiB - 1) true mapped_world)
    as [c w t| | |] eqn:E; try (vm_compute in E; discriminate).
  specialize (H c w t eq_refl).
  vm_compute in E. injection E as <- <- <-.
  by apply H.
Qed.

(** C8. As long as fewer than 2^64 increments have been made, the values
    the driver publishes through [set_counter] never decrease, in every
    run of the stressor, complete or cut short, and however the
    increments of the workers interleave with the loads of the driver. *)
Theorem published_progress_never_decreases
    (MIN_FIEMAP_SIZE DEFAULT_FIEMAP_SIZE MAXIMIZED_FILE_SIZE : Z)
    (exit_status : Z -> exit_code) (HAVE_PUNCH_HOLE : bool) (o : oracle)
    (fuel : nat) (cfg : settings) (args : stress_args) (w : world) :
  let r := stress_fiemap MIN_FIEMAP_SIZE DEFAULT_FIEMAP_SIZE
             MAXIMIZED_FILE_SIZE exit_status HAVE_PUNCH_HOLE o fuel cfg
             args w in
  remote_increments (trace_of r) < 2 ^ 64 ->
  StronglySorted Z.le (published_of (trace_of r)).
Proof.
  intros r Hbound.
  pose proof (stress_fiemap_progress HAVE_PUNCH_HOLE o MIN_FIEMAP_SIZE
                DEFAULT_FIEMAP_SIZE MAXIMIZED_FILE_SIZE exit_status fuel
                cfg args w) as H.
  fold r in H.
  apply (wp_observe progress_step progress_X (fun s => pg_ok s = true)) in H;
    [|done].
  by apply (progress_obs_sound _ (mk_progress_obs 0 0 true)).
Qed.

Lemma published_progress_never_decreases_witness :
  let r := run_stressor busy_workers 5 in
  StronglySorted Z.le (published_of (trace_of r)).
Proof.
  apply (published_progress_never_decreases MiB (16 * MiB) (2 ^ 63 - 1)
           sample_exit_status true busy_workers 5 default_settings
           one_instance fresh_world).
  vm_compute. reflexivity.
Defined.



(** * Further properties *)

(** ** Every call of the driver *)

Lemma land_not64_low_bits m : Z.land m (not64 8191) mod 8192 = 0.
Proof.
  change 8192 with (2 ^ 13). apply Z.bits_inj'. intros n Hn.
  rewrite Z.bits_0.
  destruct (Z.lt_ge_cases n 13) as [Hlt|Hge].
  - rewrite Z.mod_pow2_bits_low by lia. rewrite Z.land_spec.
    replace (not64 8191) with ((2 ^ 51 - 1) * 2 ^ 13) by (by vm_compute).
    rewrite (Z.mul_pow2_bits_low (2 ^ 51 - 1) 13 n) by lia.
    apply andb_false_r.
  - apply Z.mod_pow2_bits_high. lia.
Qed.

Lemma to_off_t_aligned z : z mod 8192 = 0 -> to_off_t z mod 8192 = 0.
Proof.
  unfold to_off_t. intros Hz. destruct (z <? 2 ^ 63); [done|].
  replace (z - 2 ^ 64) with (z + (- 2 ^ 51) * 8192) by lia.
  by rewrite Z.mod_add.
Qed.

Section DriverCalls.
Variable HAVE_PUNCH_HOLE : bool.
Variable o : oracle.
Variable G : event -> Prop.
Variables fd len : Z.
Hypothesis G_seek :
  forall z r, G (EvLseek fd (to_off_t (Z.land z (not64 8191))) r).
Hypothesis G_punch :
  HAVE_PUNCH_HOLE = true ->
  (forall off r, G (EvFallocate fd off 8192 r)) /\ G (EvUsleep 1000).
Hypothesis G_write : forall r, G (EvWrite fd r).
Hypothesis G_other :
  forall e, counting_event e = true \/ e = EvPrFail -> G e.

Lemma count_calls Q w (s : Prop) :
  s -> (forall b w' (s' : Prop), s' -> Q b w' s') ->
  wp (all_step G) all_X (stress_fiemap_count o) Q w s.
Proof.
  intros Hs HQ.
  apply (wp_invariant _ _ counting_event (fun P : Prop => P));
    [apply stress_fiemap_count_emits | | done | done | done].
  intros P e He HP. split; [done|]. apply G_other. by left.
Qed.

Lemma writer_punch_calls ph Q w (s : Prop) :
  (forall off r, G (EvFallocate fd off 8192 r)) -> G (EvUsleep 1000) ->
  s -> (forall c w' (s' : Prop), s' -> Q c w' s') ->
  wp (all_step G) all_X (writer_punch o fd len ph) Q w s.
Proof.
  intros Hp Hu Hs HQ.
  unfold writer_punch. wp_go.
  all: try (apply count_calls;
            [ | intros b w' s' Hs'; wp_go; by apply HQ]).
  all: try apply HQ.
  all: unfold all_step, all_X; try done.
  all: by repeat split.
Qed.

Lemma writer_body_calls ph Q w (s : Prop) :
  s -> (forall c w' (s' : Prop), s' -> Q c w' s') ->
  wp (all_step G) all_X (writer_body HAVE_PUNCH_HOLE o fd len ph) Q w s.
Proof.
  intros Hs HQ.
  assert (G EvPrFail) as Hf by (apply G_other; auto).
  pose proof G_punch as Hp.
  unfold writer_body. wp_go.
  all: try (apply HQ; by split).
  all: try done.
  all: unfold writer_after_seek; wp_go.
  all: apply count_calls; [by split|]; intros b w' s' Hs'.
  all: wp_go; try (by apply HQ).
  all: unfold writer_write; wp_go.
  all: unfold writer_after_write; wp_go.
  all: try (apply HQ; by repeat split).
  all: apply count_calls; [by repeat split|]; intros b' w'' s'' Hs''.
  all: wp_go; try (by apply HQ).
  all: destruct Hp as [Hp Hu]; [done|].
  all: by apply writer_punch_calls.
Qed.

Lemma writer_loop_calls fuel ph Q w (s : Prop) :
  s -> (forall c w' (s' : Prop), s' -> Q c w' s') ->
  wp (all_step G) all_X (writer_loop HAVE_PUNCH_HOLE o fuel fd len ph)
     Q w s.
Proof.
  intros Hs HQ. revert ph w s Hs.
  induction fuel as [|fuel IH]; intros ph w s Hs; simpl.
  - by wp_go.
  - wp_go. apply writer_body_calls; [done|]. intros c w' s' Hs'.
    assert (forall b, G (EvKeepStressing b)) as Hk
      by (intros; apply G_other; by left).
    wp_go; try (by apply HQ).
    all: first [apply IH; by split | apply HQ; by split].
Qed.

End DriverCalls.

Lemma stress_fiemap_writer_calls HAVE_PUNCH_HOLE o (G : event -> Prop)
    fuel fd fiemap_bytes w :
  (forall z r, G (EvLseek fd (to_off_t (Z.land z (not64 8191))) r)) ->
  (HAVE_PUNCH_HOLE = true ->
   (forall off r, G (EvFallocate fd off 8192 r)) /\ G (EvUsleep 1000)) ->
  (forall r, G (EvWrite fd r)) ->
  (forall e, counting_event e = true \/ e = EvPrFail -> G e) ->
  G (EvClose fd) ->
  Forall G (trace_of (stress_fiemap_writer HAVE_PUNCH_HOLE o fuel fd
                        fiemap_bytes w)).
Proof.
  intros H1 H2 H3 H4 H5.
  assert (wp (all_step G) all_X
            (stress_fiemap_writer HAVE_PUNCH_HOLE o fuel fd fiemap_bytes)
            (fun _ _ (s' : Prop) => s') w True) as H.
  { unfold stress_fiemap_writer. wp_go.
    apply writer_loop_calls; done. }
  apply (wp_observe (all_step G) all_X (fun P : Prop => P)) in H; [|done].
  by apply all_observe in H as [_ H].
Qed.

(** X1. Every write probe of the driver lands on the first byte of an
    8 KiB block: each offset handed to [lseek] is a multiple of 8192. *)
Theorem probes_are_block_aligned (HAVE_PUNCH_HOLE : bool) (o : oracle)
    (fuel : nat) (fd fiemap_bytes : Z) (w : world) :
  Forall seek_aligned
    (trace_of (stress_fiemap_writer HAVE_PUNCH_HOLE o fuel fd fiemap_bytes w)).
Proof.
  apply stress_fiemap_writer_calls; try done.
  - intros z r. simpl. apply to_off_t_aligned, land_not64_low_bits.
  - intros e [He| ->]; [by destruct e|done].
Qed.

(** X2. The driver seeks, writes, punches and closes on the descriptor it
    was given and on no other, and every hole it punches is 8192 bytes
    long. *)
Theorem driver_uses_its_descriptor (HAVE_PUNCH_HOLE : bool) (o : oracle)
    (fuel : nat) (fd fiemap_bytes : Z) (w : world) :
  Forall (on_descriptor fd)
    (trace_of (stress_fiemap_writer HAVE_PUNCH_HOLE o fuel fd fiemap_bytes w)).
Proof.
  apply stress_fiemap_writer_calls; try done.
  intros e [He| ->]; [by destruct e|done].
Qed.

(** X3. Built without hole punching, the driver never calls [fallocate] and
    never sleeps: it only counts, seeks, writes, reports a failed write and
    closes. *)
Theorem no_punching_without_support (o : oracle) (fuel : nat)
    (fd fiemap_bytes : Z) (w : world) :
  Forall (fun e => plain_driver_event e = true)
    (trace_of (stress_fiemap_writer false o fuel fd fiemap_bytes w)).
Proof.
  apply stress_fiemap_writer_calls; try done.
  intros e [He| ->]; [by destruct e|done].
Qed.

(** ** Combining summaries *)

Section Combine.
Context {S : Type}.
Variable step : S -> event -> S.

Lemma wp_and {A} X1 X2 (m : M A) (Q1 Q2 : A -> world -> S -> Prop) w s :
  wp step X1 m Q1 w s -> wp step X2 m Q2 w s ->
  wp step (fun ab s' => X1 ab s' /\ X2 ab s') m
     (fun a w' s' => Q1 a w' s' /\ Q2 a w' s') w s.
Proof. unfold wp. by destruct (m w). Qed.

Lemma wp_weaken {A} (X X' : abnormal -> S -> Prop) (m : M A)
    (Q Q' : A -> world -> S -> Prop) w s :
  wp step X m Q w s ->
  (forall ab s', X ab s' -> X' ab s') ->
  (forall a w' s', Q a w' s' -> Q' a w' s') ->
  wp step X' m Q' w s.
Proof. unfold wp. destruct (m w); auto. Qed.

(** A computation that never exits preserves what its events preserve;
    nothing is asked of the summary at an [_exit]. *)
Lemma wp_invariant_returning {A} X (C : event -> bool) (J : S -> Prop)
    (m : M A) Q w s :
  emits_only C m -> never_exits m ->
  (forall s e, C e = true -> J s -> J (step s e)) ->
  J s ->
  (forall ab s', not_exit ab -> J s' -> X ab s') ->
  (forall a w' s', J s' -> Q a w' s') ->
  wp step X m Q w s.
Proof.
  intros Hm Hn Hs HJ HX HQ. specialize (Hm w). specialize (Hn w).
  unfold wp. destruct (m w); simpl in Hm;
    [apply HQ | done | apply HX; [done|] ..];
    by apply (observe_invariant step C).
Qed.
End Combine.

Lemma wp_project {S1 S2 A} (f : S2 -> S1) step1 step2 X (m : M A)
    (Q : A -> world -> S1 -> Prop) w s :
  (forall s e, f (step2 s e) = step1 (f s) e) ->
  wp step1 X m Q w (f s) ->
  wp step2 (fun ab s' => X ab (f s')) m (fun a w' s' => Q a w' (f s')) w s.
Proof.
  intros Hf.
  assert (forall t s, f (observe step2 s t) = observe step1 (f s) t) as Ht.
  { induction t as [|e t IH]; intros s0; [done|].
    unfold observe. simpl. fold (observe step2 (step2 s0 e) t).
    fold (observe step1 (step1 (f s0) e) t). by rewrite IH, Hf. }
  unfold wp. destruct (m w); by rewrite Ht.
Qed.

(** ** Who returns and who exits *)

Lemma never_exits_intro {A} (m : M A) :
  (forall w, wp quiet_step quiet_X m (fun _ _ _ => True) w tt) ->
  never_exits m.
Proof. intros H w. specialize (H w). unfold wp in H. by destruct (m w). Qed.

Lemma quiet_call {A} (m : M A) Q w u :
  never_exits m -> (forall a w' u', Q a w' u') ->
  wp quiet_step quiet_X m Q w u.
Proof.
  intros H HQ. specialize (H w). unfold wp.
  destruct (m w); first [done | apply HQ].
Qed.

Ltac quiet_go :=
  repeat first
    [ wp_step | wp_unfold | done
    | apply quiet_call; [ solve [auto] | intros ] ].

Section Returning.
Variable HAVE_PUNCH_HOLE : bool.
Variable o : oracle.

Lemma count_loop_returns k i c : never_exits (count_loop o k i c).
Proof.
  apply never_exits_intro. revert i c.
  induction k as [|k IH]; intros i c w;
    rewrite ?count_loop_0, ?count_loop_S.
  - by wp_go.
  - wp_go; [apply IH | done].
Qed.

Lemma stress_fiemap_count_returns : never_exits (stress_fiemap_count o).
Proof.
  apply never_exits_intro. intros w. unfold stress_fiemap_count.
  wp_go. apply quiet_call; [apply count_loop_returns|]. intros.
  by wp_go.
Qed.

Local Hint Resolve stress_fiemap_count_returns : core.

Lemma writer_punch_returns fd len ph :
  never_exits (writer_punch o fd len ph).
Proof.
  apply never_exits_intro. intros w. unfold writer_punch. quiet_go.
Qed.

Local Hint Resolve writer_punch_returns : core.

Lemma writer_body_returns fd len ph :
  never_exits (writer_body HAVE_PUNCH_HOLE o fd len ph).
Proof.
  apply never_exits_intro. intros w.
  unfold writer_body, writer_after_seek, writer_write, writer_after_write.
  quiet_go.
Qed.

Local Hint Resolve writer_body_returns : core.

Lemma writer_loop_returns fuel fd len ph :
  never_exits (writer_loop HAVE_PUNCH_HOLE o fuel fd len ph).
Proof.
  apply never_exits_intro. revert ph.
  induction fuel as [|fuel IH]; intros ph w; simpl.
  - by wp_go.
  - quiet_go. apply IH.
Qed.

Local Hint Resolve writer_loop_returns : core.

Lemma stress_fiemap_writer_returns fuel fd fiemap_bytes :
  never_exits (stress_fiemap_writer HAVE_PUNCH_HOLE o fuel fd fiemap_bytes).
Proof.
  apply never_exits_intro. intros w. unfold stress_fiemap_writer. quiet_go.
Qed.

Lemma ioctl_body_returns args slot fd c :
  never_exits (ioctl_body o args slot fd c).
Proof.
  apply never_exits_intro. intros w. unfold ioctl_body. quiet_go.
Qed.

Local Hint Resolve ioctl_body_returns : core.

Lemma ioctl_loop_returns fuel args slot fd c :
  never_exits (ioctl_loop o fuel args slot fd c).
Proof.
  apply never_exits_intro. revert c.
  induction fuel as [|fuel IH]; intros c w; simpl.
  - by wp_go.
  - quiet_go. apply IH.
Qed.

Local Hint Resolve ioctl_loop_returns : core.

Lemma stress_fiemap_ioctl_returns fuel args slot fd :
  never_exits (stress_fiemap_ioctl o fuel args slot fd).
Proof.
  apply never_exits_intro. intros w. unfold stress_fiemap_ioctl. quiet_go.
Qed.

Lemma reap_loop_returns pids : never_exits (reap_loop pids).
Proof.
  apply never_exits_intro.
  induction pids as [|pid pids IH]; intros w; simpl.
  - by wp_go.
  - wp_go. apply IH.
Qed.

Local Hint Resolve reap_loop_returns : core.

Lemma reap_returns n pids fd rc : never_exits (reap n pids fd rc).
Proof.
  apply never_exits_intro. intros w.
  unfold reap, close_clean, dir_clean, clean. quiet_go.
Qed.

End Returning.

Lemma child_observe c t :
  observe child_step c t = c || existsb is_fork_child t.
Proof.
  revert c. induction t as [|e t IH]; intros c; simpl.
  - by rewrite orb_false_r.
  - unfold observe. simpl. fold (observe child_step (child_step c e) t).
    rewrite IH. unfold child_step. by rewrite orb_assoc.
Qed.

Section Children.
Variable HAVE_PUNCH_HOLE : bool.
Variable o : oracle.

Lemma stress_fiemap_spawn_child fuel args slot fd w :
  wp child_step child_X (stress_fiemap_spawn o fuel args slot fd)
     (fun _ _ c => c = false) w false.
Proof.
  unfold stress_fiemap_spawn. wp_go; unfold child_step; simpl.
  - bool_facts. apply Z.eqb_neq. lia.
  - apply (wp_invariant_returning _ _ worker_event (fun c => c = true));
      [ apply stress_fiemap_ioctl_emits
      | apply stress_fiemap_ioctl_returns
      | intros ? ev Hev ->; by destruct ev
      | by rewrite_tests
      | by intros []
      | ].
    intros _ w' s' ->. by wp_go.
  - by rewrite_tests.
Qed.

Lemma spawn_loop_child k fuel args fd n pids rc w :
  wp child_step child_X (spawn_loop o k fuel args fd n pids rc)
     (fun _ _ c => c = false) w false.
Proof.
  revert n pids w. induction k as [|k IH]; intros n pids w;
    rewrite ?spawn_loop_0, ?spawn_loop_S.
  - by wp_go.
  - wp_go; try done.
    eapply wp_mono; [apply stress_fiemap_spawn_child|].
    intros pid w' c ->. wp_go; first [done | apply IH].
Qed.

Variables MIN_FIEMAP_SIZE DEFAULT_FIEMAP_SIZE MAXIMIZED_FILE_SIZE : Z.
Variable exit_status : Z -> exit_code.

Lemma stress_fiemap_child fuel cfg args w :
  wp child_step child_X
     (stress_fiemap MIN_FIEMAP_SIZE DEFAULT_FIEMAP_SIZE MAXIMIZED_FILE_SIZE
        exit_status HAVE_PUNCH_HOLE o fuel cfg args)
     (fun _ _ c => c = false) w false.
Proof.
  unfold stress_fiemap, close_clean, dir_clean, clean.
  wp_go; try done.
  all: eapply wp_mono; [apply spawn_loop_child|].
  all: intros [[n pids] stopped] w' c ->.
  all: wp_go.
  all: try (apply (wp_invariant_returning _ _ writer_event
                     (fun c => c = false));
            [ apply stress_fiemap_writer_emits
            | apply stress_fiemap_writer_returns
            | intros ? ev Hev ->; by destruct ev
            | done | by intros [] | intros rc w'' c' -> ]).
  all: apply (wp_invariant_returning _ _ teardown_event
                (fun c => c = false));
    [ apply reap_emits | apply reap_returns
    | intros ? ev Hev ->; by destruct ev
    | done | by intros [] | done ].
Qed.

End Children.

(** X4. [_exit] is reached only in a process that came out of [fork] as
    the child, and always with [EXIT_SUCCESS], whatever the worker met;
    the supervisor, when it ends, returns and never was a child. *)
Theorem only_children_exit (MIN_FIEMAP_SIZE DEFAULT_FIEMAP_SIZE
    MAXIMIZED_FILE_SIZE : Z) (exit_status : Z -> exit_code)
    (HAVE_PUNCH_HOLE : bool) (o : oracle) (fuel : nat) (cfg : settings)
    (args : stress_args) (w : world) :
  match stress_fiemap MIN_FIEMAP_SIZE DEFAULT_FIEMAP_SIZE MAXIMIZED_FILE_SIZE
          exit_status HAVE_PUNCH_HOLE o fuel cfg args w with
  | Exit rc _ t => rc = EXIT_SUCCESS /\ existsb is_fork_child t = true
  | Ret _ _ t => existsb is_fork_child t = false
  | _ => True
  end.
Proof.
  pose proof (stress_fiemap_child HAVE_PUNCH_HOLE o MIN_FIEMAP_SIZE
                DEFAULT_FIEMAP_SIZE MAXIMIZED_FILE_SIZE exit_status fuel cfg
                args w) as H.
  unfold wp in H. destruct (stress_fiemap _ _ _ _ _ _ _ _ _ _); try done.
  - by rewrite child_observe in H.
  - destruct H as [-> H]. by rewrite child_observe in H.
Qed.

(** ** Resources taken and given back *)

Lemma pair_observe acq rel s t :
  observe (pair_step acq rel) s t =
  ((fst s + tally acq t)%nat, (snd s + tally rel t)%nat).
Proof.
  revert s. induction t as [|e t IH]; intros [a b].
  - unfold observe, tally. simpl. f_equal; lia.
  - unfold observe. simpl.
    fold (observe (pair_step acq rel) (pair_step acq rel (a, b) e) t).
    rewrite IH. unfold tally, pair_step. simpl.
    destruct (acq e), (rel e); simpl; f_equal; lia.
Qed.

Section Balance.
Variable HAVE_PUNCH_HOLE : bool.
Variable o : oracle.
Variables MIN_FIEMAP_SIZE DEFAULT_FIEMAP_SIZE MAXIMIZED_FILE_SIZE : Z.
Variable exit_status : Z -> exit_code.
Variables acq rel : event -> bool.
Hypothesis acq_supervisor : supervisor_only acq.
Hypothesis rel_supervisor : supervisor_only rel.

Lemma pair_step_ignored (C : event -> bool) s e :
  (forall e, C e = true ->
             spawn_event e || writer_event e || reap_event e = true) ->
  C e = true -> pair_step acq rel s e = s.
Proof.
  intros HC He. apply HC in He. unfold pair_step.
  rewrite acq_supervisor, rel_supervisor by done. destruct s. simpl.
  f_equal; lia.
Qed.

Lemma spawn_loop_balance k fuel args fd n pids rc Q w s :
  (forall a w', Q a w' s) ->
  wp (pair_step acq rel) any_X (spawn_loop o k fuel args fd n pids rc)
     Q w s.
Proof.
  intros HQ. apply (wp_frame _ _ spawn_event);
    [ apply spawn_loop_emits | | done | done ].
  intros e. apply pair_step_ignored. intros e' ->. done.
Qed.

Lemma stress_fiemap_writer_balance fuel fd fiemap_bytes Q w s :
  (forall a w', Q a w' s) ->
  wp (pair_step acq rel) any_X
     (stress_fiemap_writer HAVE_PUNCH_HOLE o fuel fd fiemap_bytes) Q w s.
Proof.
  intros HQ. apply (wp_frame _ _ writer_event);
    [ apply stress_fiemap_writer_emits | | done | done ].
  intros e. apply pair_step_ignored. intros e' ->. by rewrite orb_true_r.
Qed.

Lemma reap_loop_balance pids Q w s :
  (forall a w', Q a w' s) ->
  wp (pair_step acq rel) any_X (reap_loop pids) Q w s.
Proof.
  intros HQ. apply (wp_frame _ _ reap_event);
    [ apply reap_loop_emits | | done | done ].
  intros e. apply pair_step_ignored. intros e' ->. by rewrite orb_true_r.
Qed.

End Balance.

Ltac supervisor_only_go :=
  intros ev; destruct ev;
  repeat match goal with x : site |- _ => destruct x end; done.

Ltac balance_done :=
  simpl;
  repeat match goal with
    | H : negb ?b = _ |- _ => destruct b; simpl in H; try discriminate H; clear H
    | H : (?x <? 0) = true |- _ => apply Z.ltb_lt in H
    | H : (?x <? 0) = false |- _ => apply Z.ltb_ge in H
    | |- context [0 <=? ?x] => destruct (Z.leb_spec 0 x)
    end;
  simpl; lia.

Ltac balance_run :=
  unfold stress_fiemap, reap, close_clean, dir_clean, clean;
  wp_go; try done;
  try (apply spawn_loop_balance; [supervisor_only_go ..|];
       intros [[? ?] ?] ?; wp_go);
  try (apply stress_fiemap_writer_balance; [supervisor_only_go ..|];
       intros ? ?; wp_go);
  try (apply reap_loop_balance; [supervisor_only_go ..|];
       intros _ ?; wp_go);
  balance_done.

Section Teardown.
Variable HAVE_PUNCH_HOLE : bool.
Variable o : oracle.
Variables MIN_FIEMAP_SIZE DEFAULT_FIEMAP_SIZE MAXIMIZED_FILE_SIZE : Z.
Variable exit_status : Z -> exit_code.

Lemma mapping_balance fuel cfg args w :
  wp (pair_step is_mmap_ok is_munmap) any_X
     (stress_fiemap MIN_FIEMAP_SIZE DEFAULT_FIEMAP_SIZE MAXIMIZED_FILE_SIZE
        exit_status HAVE_PUNCH_HOLE o fuel cfg args)
     (fun _ _ s => fst s = snd s) w (0%nat, 0%nat).
Proof. balance_run. Qed.

Lemma directory_balance fuel cfg args w :
  wp (pair_step is_mkdir_ok is_rmdir) any_X
     (stress_fiemap MIN_FIEMAP_SIZE DEFAULT_FIEMAP_SIZE MAXIMIZED_FILE_SIZE
        exit_status HAVE_PUNCH_HOLE o fuel cfg args)
     (fun _ _ s => fst s = snd s) w (0%nat, 0%nat).
Proof. balance_run. Qed.

Lemma file_balance fuel cfg args w :
  wp (pair_step is_open_ok is_unlink) any_X
     (stress_fiemap MIN_FIEMAP_SIZE DEFAULT_FIEMAP_SIZE MAXIMIZED_FILE_SIZE
        exit_status HAVE_PUNCH_HOLE o fuel cfg args)
     (fun _ _ s => fst s = snd s) w (0%nat, 0%nat).
Proof. balance_run. Qed.

End Teardown.

Section Reaping.
Variable HAVE_PUNCH_HOLE : bool.
Variable o : oracle.
Variables MIN_FIEMAP_SIZE DEFAULT_FIEMAP_SIZE MAXIMIZED_FILE_SIZE : Z.
Variable exit_status : Z -> exit_code.

Lemma stress_fiemap_reaps fuel cfg args w :
  wp spawn_step spawn_X
     (stress_fiemap MIN_FIEMAP_SIZE DEFAULT_FIEMAP_SIZE MAXIMIZED_FILE_SIZE
        exit_status HAVE_PUNCH_HOLE o fuel cfg args)
     (fun _ _ s' =>
        so_killed s' = so_forked s' /\ so_waited s' = so_forked s')
     w spawn_start.
Proof.
  unfold stress_fiemap, close_clean, dir_clean, clean.
  wp_go; try done.
  all: eapply wp_mono;
    [by apply (spawn_loop_spawn _ _ _ _ _ [])|].
  all: intros [[n pids] stopped] w' s' (Hf & Ha & Hk & Hw & Hd & Hstop).
  all: wp_go.
  all: try (apply (wp_invariant _ _ writer_event
                     (fun s => so_failed s = false /\
                               so_forked s = take n pids /\
                               so_killed s = [] /\ so_waited s = []));
            [ apply stress_fiemap_writer_emits
            | intros ? ev Hev (? & ? & ? & ?); by destruct ev
            | | by intros ? ? (? & _)
            | intros rc w'' s'' (_ & Hf' & Hk' & Hw') ]).
  all: try (repeat split; try done;
            destruct (so_failed s') eqn:E;
            [by specialize (Hstop eq_refl)|done]).
  all: unfold reap, close_clean, dir_clean, clean; wp_go.
  all: apply reap_loop_spawn; wp_go; simpl.
  all: by rewrite ?Hf', ?Hk', ?Hw', ?Hf, ?Hk, ?Hw.
Qed.

End Reaping.

(** X5. A supervisor that returns has given back what it took, whichever
    way it went: the counter mapping is unmapped exactly when [mmap]
    succeeded, the temporary directory removed exactly when it was made,
    the file unlinked exactly when it was opened, and every forked child
    was killed and waited for, in the order of the forks. *)
Theorem teardown_gives_back_what_was_taken
    (MIN_FIEMAP_SIZE DEFAULT_FIEMAP_SIZE MAXIMIZED_FILE_SIZE : Z)
    (exit_status : Z -> exit_code) (HAVE_PUNCH_HOLE : bool) (o : oracle)
    (fuel : nat) (cfg : settings) (args : stress_args) (w : world)
    (rc : exit_code) (w' : world) (t : list event) :
  stress_fiemap MIN_FIEMAP_SIZE DEFAULT_FIEMAP_SIZE MAXIMIZED_FILE_SIZE
    exit_status HAVE_PUNCH_HOLE o fuel cfg args w = Ret rc w' t ->
  tally is_munmap t = tally is_mmap_ok t /\
  tally is_rmdir t = tally is_mkdir_ok t /\
  tally is_unlink t = tally is_open_ok t /\
  killed_of t = forked_of t /\
  waited_of t = forked_of t.
Proof.
  intros E.
  pose proof (mapping_balance HAVE_PUNCH_HOLE o MIN_FIEMAP_SIZE
                DEFAULT_FIEMAP_SIZE MAXIMIZED_FILE_SIZE exit_status fuel cfg
                args w) as H1.
  pose proof (directory_balance HAVE_PUNCH_HOLE o MIN_FIEMAP_SIZE
                DEFAULT_FIEMAP_SIZE MAXIMIZED_FILE_SIZE exit_status fuel cfg
                args w) as H2.
  pose proof (file_balance HAVE_PUNCH_HOLE o MIN_FIEMAP_SIZE
                DEFAULT_FIEMAP_SIZE MAXIMIZED_FILE_SIZE exit_status fuel cfg
                args w) as H3.
  pose proof (stress_fiemap_reaps HAVE_PUNCH_HOLE o MIN_FIEMAP_SIZE
                DEFAULT_FIEMAP_SIZE MAXIMIZED_FILE_SIZE exit_status fuel cfg
                args w) as H4.
  unfold wp in H1, H2, H3, H4. rewrite E in H1, H2, H3, H4.
  rewrite pair_observe in H1, H2, H3. simpl in H1, H2, H3.
  destruct (spawn_observe spawn_start t) as (Hf & _ & Hk & Hw & _).
  destruct H4 as [H4 H5]. rewrite Hf, Hk in H4. rewrite Hf, Hw in H5.
  by repeat split.
Qed.

Lemma teardown_gives_back_what_was_taken_witness :
  let t := trace_of (run_stressor (calm 40) 5) in
  tally is_munmap t = tally is_mmap_ok t /\
  tally is_rmdir t = tally is_mkdir_ok t /\
  tally is_unlink t = tally is_open_ok t /\
  killed_of t = forked_of t /\
  waited_of t = forked_of t.
Proof.
  destruct (run_stressor (calm 40) 5) as [rc w' t| | |] eqn:E;
    try (vm_compute in E; discriminate).
  exact (teardown_gives_back_what_was_taken MiB (16 * MiB) (2 ^ 63 - 1)
           sample_exit_status true (calm 40) 5 default_settings one_instance
           fresh_world rc w' t E).
Defined.

(** ** The workers behind the driver *)

Lemma crew_not_ok_sticky s t :
  cw_ok s = false -> cw_ok (observe crew_step s t) = false.
Proof.
  revert s. induction t as [|e t IH]; intros s Hs; [done|].
  unfold observe. simpl. apply IH. destruct e; simpl; try done.
  all: by rewrite Hs.
Qed.

Lemma crew_observe_forked s t :
  cw_forked (observe crew_step s t) = (cw_forked s + length (forked_of t))%nat.
Proof.
  revert s. induction t as [|e t IH]; intros s.
  - simpl. lia.
  - unfold observe. simpl. fold (observe crew_step (crew_step s e) t).
    rewrite IH. destruct e; simpl; try lia.
    destruct (0 <? pid); simpl; lia.
Qed.

Lemma crew_obs_sound t :
  cw_ok (observe crew_step (mk_crew_obs 0 true) t) = true ->
  driver_after_full_crew t.
Proof.
  intros H pre e post -> He.
  unfold observe in H. rewrite foldl_app in H. simpl in H.
  fold (observe crew_step (mk_crew_obs 0 true) pre) in H.
  set (s1 := observe crew_step (mk_crew_obs 0 true) pre) in *.
  fold (observe crew_step (crew_step s1 e) post) in H.
  destruct (Nat.eqb (cw_forked s1) MAX_FIEMAP_PROCS) eqn:E.
  - apply Nat.eqb_eq in E. unfold s1 in E.
    by rewrite crew_observe_forked in E.
  - rewrite crew_not_ok_sticky in H; [done|].
    destruct e; try done; simpl; by rewrite E, andb_false_r.
Qed.

Section Crew.
Variable HAVE_PUNCH_HOLE : bool.
Variable o : oracle.

Lemma stress_fiemap_spawn_crew fuel args slot fd w s :
  cw_ok s = true ->
  wp crew_step crew_X (stress_fiemap_spawn o fuel args slot fd)
     (fun pid _ s' =>
        cw_ok s' = true /\
        cw_forked s' = if pid <? 0 then cw_forked s else S (cw_forked s))
     w s.
Proof.
  intros Hs. unfold stress_fiemap_spawn. wp_go; simpl.
  - bool_facts. split; [done|].
    destruct (Z.ltb_spec 0 (o_fork o (clock w))); [lia|done].
  - apply (wp_invariant _ _ worker_event (fun s => cw_ok s = true));
      [ apply stress_fiemap_ioctl_emits
      | intros ? ev Hev ?; by destruct ev
      | done | done | ].
    intros _ w' s' Hs'. by wp_go.
  - rewrite Heqb. bool_facts. split; [done|].
    destruct (Z.ltb_spec 0 (o_fork o (clock w))); [done|lia].
Qed.

Lemma spawn_loop_crew k fuel args fd n pids rc w s :
  cw_ok s = true ->
  wp crew_step crew_X (spawn_loop o k fuel args fd n pids rc)
     (fun '(_, _, stopped) _ s' =>
        cw_ok s' = true /\
        (stopped = None -> cw_forked s' = (cw_forked s + k)%nat))
     w s.
Proof.
  revert n pids w s. induction k as [|k IH]; intros n pids w s Hs;
    rewrite ?spawn_loop_0, ?spawn_loop_S.
  - wp_go. split; [done|]. intros _. lia.
  - wp_go; try done.
    eapply wp_mono; [by apply stress_fiemap_spawn_crew|].
    intros pid w' s' [Hok Hn]. simpl in Hn.
    destruct (pid <? 0) eqn:E; wp_go; [done|].
    eapply wp_mono; [by apply IH|].
    intros [[n' pids'] stopped] w'' s'' [Hok' Hn']. split; [done|].
    intros Hnone. rewrite Hn' by done. lia.
Qed.

Variables MIN_FIEMAP_SIZE DEFAULT_FIEMAP_SIZE MAXIMIZED_FILE_SIZE : Z.
Variable exit_status : Z -> exit_code.

Lemma stress_fiemap_crew fuel cfg args w :
  wp crew_step crew_X
     (stress_fiemap MIN_FIEMAP_SIZE DEFAULT_FIEMAP_SIZE MAXIMIZED_FILE_SIZE
        exit_status HAVE_PUNCH_HOLE o fuel cfg args)
     (fun _ _ s' => cw_ok s' = true) w (mk_crew_obs 0 true).
Proof.
  unfold stress_fiemap, close_clean, dir_clean, clean.
  wp_go; try done.
  all: eapply wp_mono; [by apply spawn_loop_crew|].
  all: intros [[n pids] stopped] w' s' [Hok Hn].
  all: wp_go.
  all: try (apply (wp_invariant _ _ writer_event
                     (fun s => cw_ok s = true /\
                               cw_forked s = MAX_FIEMAP_PROCS));
            [ apply stress_fiemap_writer_emits
            | intros ? ev Hev [Ho Hf]; destruct ev; try done; simpl;
              by rewrite Ho, Hf
            | by split; [|apply Hn]
            | by intros ? ? [? _]
            | intros rc' w'' s'' [Hok' _] ]).
  all: apply (wp_invariant _ _ teardown_event (fun s => cw_ok s = true));
    [ apply reap_emits
    | intros ? ev Hev ?; destruct ev; try done;
      repeat match goal with x : proc_state |- _ => destruct x end; done
    | done | done | done ].
Qed.

End Crew.

(** X6. The driver works only behind a full crew: before each of its
    seeks, writes and hole punches, exactly [MAX_FIEMAP_PROCS] children
    have been forked.  When the spawn loop is left early, the driver does
    not run at all. *)
Theorem driver_runs_behind_a_full_crew
    (MIN_FIEMAP_SIZE DEFAULT_FIEMAP_SIZE MAXIMIZED_FILE_SIZE : Z)
    (exit_status : Z -> exit_code) (HAVE_PUNCH_HOLE : bool) (o : oracle)
    (fuel : nat) (cfg : settings) (args : stress_args) (w : world) :
  driver_after_full_crew
    (trace_of (stress_fiemap MIN_FIEMAP_SIZE DEFAULT_FIEMAP_SIZE
                 MAXIMIZED_FILE_SIZE exit_status HAVE_PUNCH_HOLE o fuel cfg
                 args w)).
Proof.
  apply crew_obs_sound.
  apply (wp_observe crew_step crew_X (fun s => cw_ok s = true)); [done|].
  apply stress_fiemap_crew.
Qed.

(** ** The exit status *)

Lemma status_observe s t :
  let s' := observe status_step s t in
  st_run s' = st_run s || existsb is_run_state t /\
  st_failed s' = st_failed s || existsb failed_fork t /\
  st_fatal s' = st_fatal s || existsb is_fatal_write t.
Proof.
  revert s. induction t as [|e t IH]; intros s.
  - simpl. by rewrite !orb_false_r.
  - unfold observe. simpl. fold (observe status_step (status_step s e) t).
    destruct (IH (status_step s e)) as (-> & -> & ->). simpl.
    by rewrite !orb_assoc.
Qed.

Ltac status_frame :=
  intros ? ev Hev (? & ? & ?); destruct ev; try done;
  repeat match goal with x : proc_state |- _ => destruct x end;
  try done; simpl; rewrite ?orb_false_r; done.

Section Status.
Variable HAVE_PUNCH_HOLE : bool.
Variable o : oracle.

Lemma stress_fiemap_writer_status fuel fd fiemap_bytes w s :
  st_fatal s = false ->
  wp status_step any_X
     (stress_fiemap_writer HAVE_PUNCH_HOLE o fuel fd fiemap_bytes)
     (fun rc _ s' =>
        st_run s' = st_run s /\ st_failed s' = st_failed s /\
        rc = if st_fatal s' then EXIT_FAILURE else EXIT_SUCCESS)
     w s.
Proof.
  intros Hs.
  eapply wp_weaken;
    [ apply wp_and;
      [ apply (wp_project st_fatal fatal_step status_step fatal_X);
        [ done | rewrite Hs; apply stress_fiemap_writer_fatal ]
      | apply (wp_invariant _ any_X writer_event
                 (fun s' => st_run s' = st_run s /\
                            st_failed s' = st_failed s));
        [ apply stress_fiemap_writer_emits
        | intros ? ev Hev [? ?]; destruct ev; try done; simpl;
          rewrite ?orb_false_r; done
        | done | done | intros rc w' s' H; exact H ] ]
    | done
    | by intros rc w' s' [-> [-> ->]] ].
Qed.

Lemma stress_fiemap_spawn_status fuel args slot fd w s :
  wp status_step any_X (stress_fiemap_spawn o fuel args slot fd)
     (fun pid _ s' =>
        st_run s' = st_run s /\ st_fatal s' = st_fatal s /\
        st_failed s' = st_failed s || (pid <? 0))
     w s.
Proof.
  unfold stress_fiemap_spawn. wp_go; simpl; rewrite ?orb_false_r.
  - by rewrite Heqb.
  - apply (wp_invariant _ _ worker_event (fun _ => True));
      [ apply stress_fiemap_ioctl_emits | done | done | done | ].
    intros _ w' s' _. by wp_go.
  - by rewrite Heqb.
Qed.

Lemma spawn_loop_status k fuel args fd n pids rc w s :
  st_failed s = false ->
  wp status_step any_X (spawn_loop o k fuel args fd n pids rc)
     (fun '(_, _, stopped) _ s' =>
        st_run s' = st_run s /\ st_fatal s' = st_fatal s /\
        match stopped with
        | None => st_failed s' = false
        | Some rc' => rc' = if st_failed s' then rc else EXIT_SUCCESS
        end)
     w s.
Proof.
  revert n pids w s. induction k as [|k IH]; intros n pids w s Hs;
    rewrite ?spawn_loop_0, ?spawn_loop_S.
  - by wp_go.
  - wp_go; simpl; rewrite ?orb_false_r; try by rewrite Hs.
    eapply wp_mono; [apply stress_fiemap_spawn_status|].
    intros pid w' s' (Hr & Hf & Hx). simpl in Hr, Hf, Hx.
    rewrite !orb_false_r in *. rewrite Hs in Hx. simpl in Hx.
    destruct (pid <? 0) eqn:E; wp_go.
    + by rewrite Hx.
    + eapply wp_mono; [by apply IH|].
      intros [[n' pids'] stopped] w'' s'' (Hr' & Hf' & Hx').
      by rewrite Hr', Hf', Hr, Hf.
Qed.

Variables MIN_FIEMAP_SIZE DEFAULT_FIEMAP_SIZE MAXIMIZED_FILE_SIZE : Z.
Variable exit_status : Z -> exit_code.

Lemma stress_fiemap_status fuel cfg args w :
  wp status_step any_X
     (stress_fiemap MIN_FIEMAP_SIZE DEFAULT_FIEMAP_SIZE MAXIMIZED_FILE_SIZE
        exit_status HAVE_PUNCH_HOLE o fuel cfg args)
     (fun rc _ s' =>
        st_run s' = true ->
        rc = if st_failed s' || st_fatal s'
             then EXIT_FAILURE else EXIT_SUCCESS)
     w status_start.
Proof.
  unfold stress_fiemap, close_clean, dir_clean, clean.
  wp_go; try done.
  all: eapply wp_mono; [by apply spawn_loop_status|].
  all: intros [[n pids] stopped] w' s' (Hr & Hf & Hx).
  all: simpl in Hr, Hf.
  all: wp_go.
  all: try (eapply wp_mono;
            [by apply stress_fiemap_writer_status|];
            intros rc' w'' s'' (Hr' & Hx' & ->)).
  all: unfold reap, close_clean, dir_clean, clean; wp_go.
  all: apply (wp_invariant _ _ reap_event
                (fun s => st_run s = true /\
                          st_failed s = st_failed ltac:(first [exact s'' | exact s']) /\
                          st_fatal s = st_fatal ltac:(first [exact s'' | exact s'])));
    [ apply reap_loop_emits | status_frame | | done | ].
  all: try (intros ? ? ? (_ & Hfl & Hft); wp_go; simpl;
            rewrite ?orb_false_r, ?Hfl, ?Hft; intros _).
  all: try (simpl; rewrite ?orb_false_r; done).
  - by rewrite Hf, orb_false_r.
  - simpl. by rewrite !orb_false_r, Hr'.
  - by rewrite Hx', Hx.
Qed.

End Status.

(** X7. Once the stressor has entered its run state, its exit status is
    decided by two things only: it is [EXIT_FAILURE] when a fork failed
    or the driver met a fatal write error, and [EXIT_SUCCESS] otherwise;
    nothing that happens in a worker, and no failed seek or hole punch,
    changes it. *)
Theorem exit_status_of_a_started_run
    (MIN_FIEMAP_SIZE DEFAULT_FIEMAP_SIZE MAXIMIZED_FILE_SIZE : Z)
    (exit_status : Z -> exit_code) (HAVE_PUNCH_HOLE : bool) (o : oracle)
    (fuel : nat) (cfg : settings) (args : stress_args) (w : world)
    (rc : exit_code) (w' : world) (t : list event) :
  stress_fiemap MIN_FIEMAP_SIZE DEFAULT_FIEMAP_SIZE MAXIMIZED_FILE_SIZE
    exit_status HAVE_PUNCH_HOLE o fuel cfg args w = Ret rc w' t ->
  existsb is_run_state t = true ->
  rc = if existsb failed_fork t || existsb is_fatal_write t
       then EXIT_FAILURE else EXIT_SUCCESS.
Proof.
  intros E Hrun.
  pose proof (stress_fiemap_status HAVE_PUNCH_HOLE o MIN_FIEMAP_SIZE
                DEFAULT_FIEMAP_SIZE MAXIMIZED_FILE_SIZE exit_status fuel cfg
                args w) as H.
  unfold wp in H. rewrite E in H.
  destruct (status_observe status_start t) as (Hr & Hf & Hx).
  rewrite Hr, Hf, Hx in H. simpl in H. by apply H.
Qed.

Lemma exit_status_of_a_started_run_witness :
  match run_stressor io_error 5 with
  | Ret rc _ t =>
    rc = EXIT_FAILURE /\ existsb failed_fork t = false /\
    existsb is_fatal_write t = true
  | _ => False
  end.
Proof.
  destruct (run_stressor io_error 5) as [rc w' t| | |] eqn:E;
    try (vm_compute in E; discriminate).
  assert (existsb is_run_state t = true) as Hrun
    by (vm_compute in E; injection E as <- <- <-; reflexivity).
  pose proof (exit_status_of_a_started_run MiB (16 * MiB) (2 ^ 63 - 1)
                sample_exit_status true io_error 5 default_settings
                one_instance fresh_world rc w' t E Hrun) as H.
  vm_compute in E. injection E as <- <- <-. by vm_compute in H |- *.
Defined.

(** ** The buffer of a worker *)

Lemma heap_not_ok_sticky s t :
  hp_ok s = false -> hp_ok (observe heap_step s t) = false.
Proof.
  revert s. induction t as [|e t IH]; intros s Hs; [done|].
  unfold observe. simpl. apply IH.
  destruct e; simpl; rewrite ?Hs; try done.
  destruct s0; simpl; by rewrite ?Hs.
Qed.

Lemma heap_observe_counts s t :
  hp_allocs (observe heap_step s t) = (hp_allocs s + tally is_calloc_ok t)%nat /\
  hp_frees (observe heap_step s t) = (hp_frees s + tally is_free t)%nat.
Proof.
  revert s. induction t as [|e t IH]; intros s.
  - unfold tally. simpl. lia.
  - unfold observe. simpl. fold (observe heap_step (heap_step s e) t).
    destruct (IH (heap_step s e)) as [-> ->]. unfold tally.
    destruct e; simpl; try lia.
    + destruct s0; simpl; lia.
    + destruct ok; simpl; lia.
Qed.

Lemma heap_obs_sound t :
  hp_ok (observe heap_step heap_start t) = true -> buffer_discipline t.
Proof.
  intros H pre e post ->.
  unfold observe in H. rewrite foldl_app in H. simpl in H.
  fold (observe heap_step heap_start pre) in H.
  destruct (heap_observe_counts heap_start pre) as [Ha Hf].
  set (s1 := observe heap_step heap_start pre) in *.
  fold (observe heap_step (heap_step s1 e) post) in H.
  simpl in Ha, Hf. rewrite <- Ha, <- Hf.
  destruct (hp_ok (heap_step s1 e)) eqn:E;
    [|by rewrite heap_not_ok_sticky in H].
  split; intros He; destruct e; try done.
  all: repeat match goal with x : site |- _ => destruct x end; try done.
  all: simpl in E; apply andb_true_iff in E as [_ E]; by apply Nat.eqb_eq.
Qed.

Section Heap.
Variable o : oracle.

Lemma ioctl_body_heap args slot fd c w s :
  hp_ok s = true -> hp_allocs s = hp_frees s ->
  wp heap_step heap_X (ioctl_body o args slot fd c)
     (fun _ _ s' => hp_ok s' = true /\ hp_allocs s' = hp_frees s') w s.
Proof.
  intros Hs Hb. unfold ioctl_body.
  wp_go.
  all: rewrite ?observe_fmap_ignored by done.
  all: cbn [heap_step observe foldl hp_ok hp_allocs hp_frees heap_X
            is_calloc is_calloc_ok is_free uses_buffer Nat.b2n].
  all: destruct (o_calloc o (clock w)); try discriminate.
  all: rewrite ?Hs, ?Hb; cbn [Nat.b2n].
  all: repeat first [apply conj | apply andb_true_intro].
  all: rewrite ?Nat.eqb_eq; first [done | lia].
Qed.

Lemma ioctl_loop_heap fuel args slot fd c w s :
  hp_ok s = true -> hp_allocs s = hp_frees s ->
  wp heap_step heap_X (ioctl_loop o fuel args slot fd c)
     (fun _ _ s' => hp_ok s' = true /\ hp_allocs s' = hp_frees s') w s.
Proof.
  revert c w s. induction fuel as [|fuel IH]; intros c w s Hs Hb; simpl.
  - by wp_go.
  - wp_go. eapply wp_mono; [by apply ioctl_body_heap|].
    intros r w' s' [Hs' Hb'].
    destruct r; wp_go;
      cbn [heap_step hp_ok hp_allocs hp_frees uses_buffer];
      first [done | by apply IH].
Qed.

Lemma stress_fiemap_ioctl_heap fuel args slot fd w :
  wp heap_step heap_X (stress_fiemap_ioctl o fuel args slot fd)
     (fun _ _ s' => hp_ok s' = true /\ hp_allocs s' = hp_frees s')
     w heap_start.
Proof.
  unfold stress_fiemap_ioctl. wp_go. by apply ioctl_loop_heap.
Qed.

End Heap.

(** X8. A worker asks for a buffer only when it holds none, hands it to
    [ioctl], [realloc], [memset] and [free] only while it holds exactly
    one, and holds none when a cycle is over: whichever way a cycle or the
    worker ends, every buffer that was allocated has been freed once. *)
Theorem worker_buffer_is_freed_once (o : oracle) (fuel : nat)
    (args : stress_args) (slot : nat) (fd : Z) (w : world) :
  let t := trace_of (stress_fiemap_ioctl o fuel args slot fd w) in
  buffer_discipline t /\ tally is_free t = tally is_calloc_ok t.
Proof.
  intros t.
  pose proof (stress_fiemap_ioctl_heap o fuel args slot fd w) as H.
  apply (wp_observe heap_step heap_X
           (fun s => hp_ok s = true /\ hp_allocs s = hp_frees s)) in H;
    [|done].
  destruct H as [Hok Hb]. fold t in Hok, Hb. split.
  - by apply heap_obs_sound.
  - destruct (heap_observe_counts heap_start t) as [Ha Hf].
    rewrite Ha, Hf in Hb. simpl in Hb. lia.
Qed.

(** ** Flushing the file *)

Lemma flush_not_ok_sticky s t :
  fl_ok s = false -> fl_ok (observe flush_step s t) = false.
Proof.
  revert s. induction t as [|e t IH]; intros s Hs; [done|].
  unfold observe. simpl. apply IH. destruct e; simpl; by rewrite ?Hs.
Qed.

Lemma flush_observe_segment s t :
  existsb is_fdatasync t = false ->
  observe flush_step s t =
  mk_flush_obs (fl_seen s) (fl_stores s + length (stores_of t)) (fl_ok s).
Proof.
  revert s. induction t as [|e t IH]; intros s Ht.
  - simpl. destruct s. simpl. f_equal. lia.
  - simpl in Ht. apply orb_false_iff in Ht as [He Ht].
    unfold observe. simpl. fold (observe flush_step (flush_step s e) t).
    rewrite IH by done. destruct e; try done; simpl; f_equal; lia.
Qed.

Lemma flush_obs_sound t :
  fl_ok (observe flush_step flush_start t) = true -> flush_cadence t.
Proof.
  intros H. split.
  - intros pre fd post -> Hpre.
    unfold observe in H. rewrite foldl_app in H. cbn [foldl] in H.
    fold (observe flush_step flush_start pre) in H.
    rewrite flush_observe_segment in H by done.
    cbn [flush_step flush_start fl_seen fl_stores fl_ok Nat.add] in H.
    match type of H with
    | fl_ok (foldl _ ?s1 _) = _ =>
      fold (observe flush_step s1 post) in H;
      destruct (fl_ok s1) eqn:E; [|by rewrite flush_not_ok_sticky in H]
    end.
    cbn [fl_ok andb] in E. apply andb_true_iff in E as [E1 E2].
    apply Nat.leb_le in E1, E2. lia.
  - intros pre fd mid fd' post -> Hmid.
    unfold observe in H. rewrite foldl_app in H. cbn [foldl] in H.
    rewrite foldl_app in H. cbn [foldl] in H.
    match type of H with
    | context [foldl flush_step ?s0 mid] =>
      fold (observe flush_step s0 mid) in H;
      rewrite (flush_observe_segment s0 mid) in H by done
    end.
    cbn [flush_step fl_seen fl_stores fl_ok Nat.add] in H.
    match type of H with
    | fl_ok (foldl _ ?s1 _) = _ =>
      fold (observe flush_step s1 post) in H;
      destruct (fl_ok s1) eqn:E; [|by rewrite flush_not_ok_sticky in H]
    end.
    cbn [fl_ok] in E. apply andb_true_iff in E as [_ E].
    by apply Nat.eqb_eq in E.
Qed.

Lemma FLUSH_PERIOD_eq : FLUSH_PERIOD = 130%nat.
Proof. reflexivity. Qed.

Section Flush.
Variable o : oracle.

Lemma ioctl_body_flush args slot fd c w s :
  flush_inv c s ->
  wp flush_step flush_X (ioctl_body o args slot fd c)
     (fun r _ s' =>
        match r with
        | Some c' => flush_inv c' s'
        | None => fl_ok s' = true
        end) w s.
Proof.
  intros (Hok & Hc & Hmax & Hseen). unfold ioctl_body.
  wp_go.
  all: rewrite ?observe_fmap_ignored by done.
  all: cbn [flush_step observe foldl fl_ok fl_seen fl_stores flush_X];
    try done.
  all: unfold flush_inv; cbn [fl_ok fl_seen fl_stores]; bool_facts.
  all: unfold COUNT_MAX in *.
  - rewrite Hok, FLUSH_PERIOD_eq. split; [|lia].
    destruct (fl_seen s); cbn [andb].
    + apply Nat.eqb_eq. specialize (Hseen eq_refl). lia.
    + apply andb_true_intro. split; apply Nat.leb_le; lia.
  - split; [done|]. split; [lia|]. split; [lia|].
    intros Hs. specialize (Hseen Hs). lia.
Qed.

Lemma ioctl_loop_flush fuel args slot fd c w s :
  flush_inv c s ->
  wp flush_step flush_X (ioctl_loop o fuel args slot fd c)
     (fun _ _ s' => fl_ok s' = true) w s.
Proof.
  revert c w s. induction fuel as [|fuel IH]; intros c w s Hs; simpl.
  - wp_go. apply Hs.
  - wp_go. eapply wp_mono; [by apply ioctl_body_flush|].
    intros r w' s' Hs'.
    destruct r; wp_go; first [done | by apply IH | apply Hs'].
Qed.

Lemma stress_fiemap_ioctl_flush fuel args slot fd w :
  wp flush_step flush_X (stress_fiemap_ioctl o fuel args slot fd)
     (fun _ _ s' => fl_ok s' = true) w flush_start.
Proof.
  unfold stress_fiemap_ioctl. wp_go. apply ioctl_loop_flush.
  pose proof (Z.mod_pos_bound (wrap32 (o_mwc32 o (clock w))) COUNT_MAX
                eq_refl) as Hc.
  unfold COUNT_MAX in *. unfold flush_inv. simpl.
  repeat split; try done; lia.
Qed.

End Flush.

(** ** A flush that is due *)

Lemma recent_stores_burst (l : list nat) h :
  recent_stores (rev (EvRemoteIncr <$> l) ++ h) = recent_stores h.
Proof.
  revert h. induction l as [|x l IH]; intros h; [done|].
  rewrite fmap_cons. simpl. rewrite <- app_assoc. simpl. by rewrite IH.
Qed.

Lemma flush_not_due h e :
  (recent_stores h < FLUSH_PERIOD)%nat -> flush_due_rule h e = true.
Proof.
  intros H. unfold flush_due_rule.
  destruct (Nat.eqb_spec (recent_stores h) FLUSH_PERIOD); [lia|done].
Qed.

Lemma due_observe_fmap (l : list nat) h :
  (recent_stores h < FLUSH_PERIOD)%nat ->
  observe (hist_step flush_due_rule) (h, true) (EvRemoteIncr <$> l)
  = (rev (EvRemoteIncr <$> l) ++ h, true).
Proof.
  intros H. revert h H. induction l as [|x l IH]; intros h H; [done|].
  rewrite fmap_cons. unfold observe. cbn [foldl].
  rewrite hist_step_eq, flush_not_due by done. cbn [andb].
  fold (observe (hist_step flush_due_rule) (EvRemoteIncr x :: h, true)
          (EvRemoteIncr <$> l)).
  rewrite IH by done. simpl. by rewrite <- app_assoc.
Qed.

Section Due.
Variable o : oracle.

Lemma ioctl_body_due args slot fd c w h :
  Z.of_nat (recent_stores h) <= c <= 129 ->
  wp (hist_step flush_due_rule) due_X (ioctl_body o args slot fd c)
     (fun r _ s' =>
        match r with
        | Some c' => due_inv c' s'
        | None => due_X AFuel s'
        end) w (h, true).
Proof.
  intros Hc.
  assert (recent_stores h < FLUSH_PERIOD)%nat as Hlt
    by (rewrite FLUSH_PERIOD_eq; lia).
  unfold ioctl_body. wp_go.
  all: repeat
         (first [ rewrite hist_step_eq
                | rewrite due_observe_fmap
                    by (cbn [recent_stores]; done) ];
          rewrite ?flush_not_due
            by (cbn [recent_stores]; rewrite ?recent_stores_burst;
                cbn [recent_stores]; done);
          cbn [andb]).
  all: unfold flush_due_rule; cbn [is_fdatasync];
    rewrite ?orb_true_r; cbn [andb].
  all: unfold due_X, due_inv; cbn [fst snd recent_stores];
    rewrite ?recent_stores_burst; cbn [recent_stores].
  all: rewrite FLUSH_PERIOD_eq in *; bool_facts; unfold COUNT_MAX in *.
  all: split; [done|lia].
Qed.

Lemma ioctl_loop_due fuel args slot fd c w h :
  Z.of_nat (recent_stores h) <= c <= 129 ->
  wp (hist_step flush_due_rule) due_X (ioctl_loop o fuel args slot fd c)
     (fun _ _ s' => due_X AFuel s') w (h, true).
Proof.
  revert c w h. induction fuel as [|fuel IH]; intros c w h Hc; simpl.
  - wp_go. split; [done|]. cbn [fst]. rewrite FLUSH_PERIOD_eq. lia.
  - wp_go. eapply wp_mono; [by apply ioctl_body_due|].
    intros r w' [h' ok'] Hr.
    destruct r as [c'|]; wp_go; [| |done].
    all: destruct Hr as [Hok Hc']; cbn [fst snd] in *; subst ok'.
    all: rewrite hist_step_eq, flush_not_due
           by (rewrite FLUSH_PERIOD_eq; lia); cbn [andb].
    + by apply IH.
    + split; [done|]. cbn [fst recent_stores]. rewrite FLUSH_PERIOD_eq.
      lia.
Qed.

End Due.

(** X9. A worker flushes the file with [fdatasync] at a fixed pace.
    The first flush comes after 3 to 130 completed cycles, depending on
    the random start of the countdown; between two flushes there are
    exactly 130 completed cycles, [COUNT_MAX] + 2, each cycle being marked
    by the store of its counter.  And the flush is not left out: when 130
    cycles have completed since the last flush, the next thing the worker
    does is the flush, and no run of the worker ends with a flush due. *)
Theorem worker_flushes_every_130_cycles (o : oracle) (fuel : nat)
    (args : stress_args) (slot : nat) (fd : Z) (w : world) :
  let t := trace_of (stress_fiemap_ioctl o fuel args slot fd w) in
  FLUSH_PERIOD = 130%nat /\
  flush_cadence t /\
  obeys flush_due_rule t /\
  (recent_stores (rev t) < FLUSH_PERIOD)%nat.
Proof.
  intros t. split; [apply FLUSH_PERIOD_eq|]. split.
  - apply flush_obs_sound.
    apply (wp_observe flush_step flush_X (fun s => fl_ok s = true)); [done|].
    apply stress_fiemap_ioctl_flush.
  - assert (due_X AFuel (observe (hist_step flush_due_rule) ([], true) t))
      as [Hok Hend].
    { apply (wp_observe (hist_step flush_due_rule) due_X (due_X AFuel));
        [done|].
      unfold stress_fiemap_ioctl. wp_go. apply ioctl_loop_due.
      pose proof (Z.mod_pos_bound (wrap32 (o_mwc32 o (clock w))) COUNT_MAX
                    eq_refl) as Hc.
      unfold COUNT_MAX in *. simpl. lia. }
    split; [by apply hist_obs_sound|].
    by rewrite hist_observe_history, app_nil_r in Hend.
Qed.

(** ** The size of the buffer *)

Lemma size_not_ok_sticky s t :
  sz_ok s = false -> sz_ok (observe size_step s t) = false.
Proof.
  revert s. induction t as [|e t IH]; intros s Hs; [done|].
  unfold observe. simpl. apply IH.
  destruct e; repeat match goal with x : site |- _ => destruct x end;
    simpl; by rewrite ?Hs.
Qed.

Lemma size_observe_reported s t :
  sz_reported (observe size_step s t) = foldl note_discovery (sz_reported s) t.
Proof.
  revert s. induction t as [|e t IH]; intros s; [done|].
  unfold observe. simpl. fold (observe size_step (size_step s e) t).
  rewrite IH.
  by destruct e; repeat match goal with x : site |- _ => destruct x end.
Qed.

Lemma size_obs_sound t :
  sz_ok (observe size_step (mk_size_obs None true) t) = true ->
  sized_by_discovery t.
Proof.
  intros H pre e post ->.
  unfold observe in H. rewrite foldl_app in H. cbn [foldl] in H.
  fold (observe size_step (mk_size_obs None true) pre) in H.
  pose proof (size_observe_reported (mk_size_obs None true) pre) as Hr.
  set (s1 := observe size_step (mk_size_obs None true) pre) in *.
  fold (observe size_step (size_step s1 e) post) in H.
  destruct (sz_ok (size_step s1 e)) eqn:E;
    [|by rewrite size_not_ok_sticky in H].
  unfold last_reported. simpl in Hr. rewrite <- Hr.
  destruct e; try done; simpl in E; apply andb_true_iff in E as [_ E];
    destruct (sz_reported s1) as [k|]; try done; exists k; bool_facts.
  - split; [done|]. split; lia.
  - done.
Qed.

Lemma realloc_size_exact k :
  0 <= k < 2 ^ 32 ->
  wrap64 (SIZEOF_FIEMAP + wrap64 (SIZEOF_FIEMAP_EXTENT * k))
  = SIZEOF_FIEMAP + SIZEOF_FIEMAP_EXTENT * k /\
  wrap64 (SIZEOF_FIEMAP_EXTENT * k) = SIZEOF_FIEMAP_EXTENT * k.
Proof.
  intros Hk. unfold wrap64, SIZEOF_FIEMAP, SIZEOF_FIEMAP_EXTENT.
  rewrite (Z.mod_small (56 * k)) by lia.
  split; [apply Z.mod_small; lia | done].
Qed.

Section Size.
Variable o : oracle.

Lemma ioctl_body_size args slot fd c w s :
  sz_ok s = true ->
  wp size_step size_X (ioctl_body o args slot fd c)
     (fun _ _ s' => sz_ok s' = true) w s.
Proof.
  intros Hs. unfold ioctl_body.
  wp_go.
  all: rewrite ?observe_fmap_ignored by done.
  all: cbn [size_step note_discovery observe foldl sz_ok sz_reported rv
            fst snd fm_extent_count fm_mapped_extents size_X].
  all: rewrite_tests; rewrite ?Hs; try done.
  all: cbn [andb].
  all: match goal with
       | |- context [wrap32 ?x] =>
         pose proof (Z.mod_pos_bound x (2 ^ 32) eq_refl) as Hk;
         fold (wrap32 x) in Hk;
         destruct (realloc_size_exact (wrap32 x) Hk) as [E1 E2];
         rewrite ?E1, ?E2, ?Z.eqb_refl
       end.
  all: repeat match goal with
         | |- context [0 <=? ?x] => destruct (Z.leb_spec 0 x); [|lia]
         | |- context [?x <? 2 ^ 32] =>
           destruct (Z.ltb_spec x (2 ^ 32)); [|lia]
         end.
  all: done.
Qed.

Lemma ioctl_loop_size fuel args slot fd c w s :
  sz_ok s = true ->
  wp size_step size_X (ioctl_loop o fuel args slot fd c)
     (fun _ _ s' => sz_ok s' = true) w s.
Proof.
  revert c w s. induction fuel as [|fuel IH]; intros c w s Hs; simpl.
  - by wp_go.
  - wp_go. eapply wp_mono; [by apply ioctl_body_size|].
    intros r w' s' Hs'. destruct r; wp_go; first [done | by apply IH].
Qed.

End Size.



(** ** What follows a failure *)

Lemma after_observe_some p e0 l t :
  observe (after_step p) (Some (e0, l)) t = Some (e0, l ++ t).
Proof.
  revert l. induction t as [|e t IH]; intros l.
  - by rewrite app_nil_r.
  - unfold observe. simpl. fold (observe (after_step p) (Some (e0, l ++ [e])) t).
    rewrite IH. by rewrite <- app_assoc.
Qed.

Lemma after_observe p t : observe (after_step p) None t = after_first p t.
Proof.
  induction t as [|e t IH]; [done|].
  unfold observe. simpl. destruct (p e); [|done].
  fold (observe (after_step p) (Some (e, [])) t).
  by rewrite after_observe_some.
Qed.

Lemma after_step_miss p e : p e = false -> after_step p None e = None.
Proof. intros H. unfold after_step. by rewrite H. Qed.

Lemma after_step_hit p e : p e = true -> after_step p None e = Some (e, []).
Proof. intros H. unfold after_step. by rewrite H. Qed.

Lemma after_step_more p e0 l e :
  after_step p (Some (e0, l)) e = Some (e0, l ++ [e]).
Proof. done. Qed.

Lemma after_observe_fmap_miss {B} p (f : B -> event) (l : list B) :
  (forall x, p (f x) = false) ->
  observe (after_step p) None (f <$> l) = None.
Proof.
  intros Hf. induction l as [|x l IH]; [done|].
  unfold observe. simpl. by rewrite Hf.
Qed.

Ltac after_side :=
  cbn [worker_failure failed_discovery failed_lseek stop_signal negb rv fst
       snd];
  first [done | assumption | by rewrite_tests].

Ltac after_go :=
  repeat first
    [ rewrite after_step_more
    | rewrite after_step_miss by after_side
    | rewrite after_step_hit by after_side
    | rewrite after_observe_fmap_miss by done ];
  cbn [app].

Section Failures.
Variable o : oracle.

Lemma ioctl_body_failure args slot fd c w :
  wp (after_step worker_failure) after_X (ioctl_body o args slot fd c)
     (fun r _ s' =>
        match r with
        | Some _ => s' = None
        | None => exists e l, s' = Some (e, l) /\
                              Forall (fun e => winds_down e = true) l
        end) w None.
Proof.
  unfold ioctl_body.
  wp_go.
  all: repeat match goal with
         | H : negb ?b = _ |- _ =>
           destruct b eqn:?; cbn [negb] in H; try discriminate H; clear H
         end.
  all: unfold after_X; after_go.
  all: try done.
  all: eexists _, _; split; [done|]; by repeat constructor.
Qed.

Lemma ioctl_loop_failure fuel args slot fd c w :
  wp (after_step worker_failure) after_X (ioctl_loop o fuel args slot fd c)
     (fun _ _ s' => exists e l, s' = Some (e, l) /\
                                Forall (fun e => winds_down e = true) l)
     w None.
Proof.
  revert c w. induction fuel as [|fuel IH]; intros c w; simpl.
  - by wp_go.
  - wp_go. eapply wp_mono; [by apply ioctl_body_failure|].
    intros r w' s' Hs'. destruct r; [subst s'|]; wp_go.
    all: repeat match goal with
           | H : ?b = true |- context [EvKeepStressing ?b] => rewrite H
           | H : ?b = false |- context [EvKeepStressing ?b] => rewrite H
           end.
    all: after_go; first [done | apply IH | by eexists _, _].
Qed.

End Failures.

(** X11. A worker keeps cycling until a call fails or the harness tells
    it to stop, and then it stops for good: after the first failed
    [calloc], [ioctl] or [realloc], or the first refusal of
    [keep_stressing], it only reports and frees its buffer, and returns;
    it makes no other call, stores no counter and does not flush. *)
Theorem worker_stops_at_first_failure (o : oracle) (fuel : nat)
    (args : stress_args) (slot : nat) (fd : Z) (w : world)
    (e : event) (rest : list event) :
  let r := stress_fiemap_ioctl o fuel args slot fd w in
  after_first worker_failure (trace_of r) = Some (e, rest) ->
  Forall (fun e => winds_down e = true) rest /\
  exists w', r = Ret tt w' (trace_of r).
Proof.
  intros r Hfirst.
  assert (wp (after_step worker_failure) after_X
            (stress_fiemap_ioctl o fuel args slot fd)
            (fun _ _ s' => exists e l, s' = Some (e, l) /\
                                       Forall (fun e => winds_down e = true) l)
            w None) as H
    by (unfold stress_fiemap_ioctl; wp_go; apply ioctl_loop_failure).
  unfold wp in H. fold r in H, Hfirst.
  destruct r as [[] w' t|rc w' t|why w' t|w' t]; simpl in Hfirst;
    rewrite after_observe, Hfirst in H; [|done..].
  destruct H as (e' & l & [= <- <-] & Hl). split; [done|]. by exists w'.
Qed.

Lemma worker_stops_at_first_failure_witness :
  let r := stress_fiemap_ioctl no_fiemap 5 one_instance 0 3 mapped_world in
  Forall (fun e => winds_down e = true) [EvPrInfSkip; EvFree] /\
  exists w', r = Ret tt w' (trace_of r).
Proof.
  eapply (worker_stops_at_first_failure no_fiemap 5 one_instance 0 3
            mapped_world).
  vm_compute. reflexivity.
Defined.

Section DiscoveryFailure.
Variable o : oracle.

Lemma ioctl_body_report args slot fd c w :
  wp (after_step failed_discovery) after_X (ioctl_body o args slot fd c)
     (fun r _ s' =>
        s' = None \/
        r = None /\
        exists fd' req x k,
          s' = Some (EvIoctl Discovery fd' req x k,
                     discovery_failure_report args x ++ [EvFree]))
     w None.
Proof.
  unfold ioctl_body.
  wp_go.
  all: unfold after_X; after_go.
  all: try done.
  all: try (by left).
  all: right; split; [done|].
  all: eexists _, _, _, _.
  all: apply f_equal; apply (f_equal2 pair); [reflexivity|].
  all: unfold discovery_failure_report; by rewrite_tests.
Qed.

Lemma ioctl_loop_report fuel args slot fd c w :
  wp (after_step failed_discovery) after_X
     (ioctl_loop o fuel args slot fd c)
     (fun _ _ s' =>
        s' = None \/
        exists fd' req x k,
          s' = Some (EvIoctl Discovery fd' req x k,
                     discovery_failure_report args x ++ [EvFree]))
     w None.
Proof.
  revert c w. induction fuel as [|fuel IH]; intros c w; simpl.
  - by wp_go.
  - wp_go. eapply wp_mono; [by apply ioctl_body_report|].
    intros r w' s' [->|[-> Hs']]; [|simpl; wp_go; by right].
    destruct r; wp_go.
    all: repeat match goal with
           | H : ?b = true |- context [EvKeepStressing ?b] => rewrite H
           | H : ?b = false |- context [EvKeepStressing ?b] => rewrite H
           end.
    all: after_go; first [done | apply IH | by left].
Qed.

End DiscoveryFailure.

(** X12. When the discovery call of a worker fails, the worker reports
    it according to the error and the instance, frees the buffer, and
    does nothing more: for "operation not supported" instance 0 prints
    the skip notice and the other instances print nothing; for any other
    error the failure is reported with [pr_fail]. *)
Theorem failed_discovery_is_reported_once (o : oracle) (fuel : nat)
    (args : stress_args) (slot : nat) (fd : Z) (w : world)
    (e : event) (rest : list event) :
  after_first failed_discovery
    (trace_of (stress_fiemap_ioctl o fuel args slot fd w)) = Some (e, rest) ->
  exists fd' req x k,
    e = EvIoctl Discovery fd' req x k /\
    rest = discovery_failure_report args x ++ [EvFree].
Proof.
  intros Hfirst.
  assert (wp (after_step failed_discovery) after_X
            (stress_fiemap_ioctl o fuel args slot fd)
            (fun _ _ s' =>
               s' = None \/
               exists fd' req x k,
                 s' = Some (EvIoctl Discovery fd' req x k,
                            discovery_failure_report args x ++ [EvFree]))
            w None) as H
    by (unfold stress_fiemap_ioctl; wp_go; apply ioctl_loop_report).
  unfold wp in H.
  destruct (stress_fiemap_ioctl o fuel args slot fd w)
    as [[] w' t|rc w' t|why w' t|w' t]; simpl in Hfirst;
    rewrite after_observe, Hfirst in H; [|done..].
  destruct H as [H|(fd' & req & x & k & [= -> ->])]; [done|].
  by eexists _, _, _, _.
Qed.

Lemma failed_discovery_is_reported_once_witness :
  exists fd' req x k,
    EvIoctl Discovery 3 (mk_fiemap 0 (not64 0) 0 0 0) (sys_fail EOPNOTSUPP) 0
      = EvIoctl Discovery fd' req x k /\
    [EvPrInfSkip; EvFree] = discovery_failure_report one_instance x ++ [EvFree].
Proof.
  apply (failed_discovery_is_reported_once no_fiemap 5 one_instance 0 3
           mapped_world).
  vm_compute. reflexivity.
Defined.

Section SeekFailure.
Variable HAVE_PUNCH_HOLE : bool.
Variable o : oracle.

Lemma count_seek Q w :
  (forall b w', Q b w' None) ->
  wp (after_step failed_lseek) after_X (stress_fiemap_count o) Q w None.
Proof.
  intros HQ. apply (wp_frame _ _ counting_event);
    [apply stress_fiemap_count_emits | by intros [] | done | done].
Qed.

Lemma writer_punch_seek fd len ph w :
  wp (after_step failed_lseek) after_X (writer_punch o fd len ph)
     (fun _ _ s' => s' = None) w None.
Proof.
  unfold writer_punch. wp_go; unfold after_X; after_go; try done.
  all: apply count_seek; intros b w'; by wp_go.
Qed.

Lemma writer_body_seek fd len ph w :
  wp (after_step failed_lseek) after_X
     (writer_body HAVE_PUNCH_HOLE o fd len ph)
     (fun c _ s' =>
        s' = None \/
        c = CBreak /\ exists off x, s' = Some (EvLseek fd off x, []))
     w None.
Proof.
  unfold writer_body. wp_go; unfold after_X; after_go; try done.
  - right. split; [done|]. by eexists _, _.
  - unfold writer_after_seek, writer_write, writer_after_write.
    wp_go. apply count_seek. intros b w'.
    wp_go; unfold after_X; after_go; try (by left).
    all: apply count_seek; intros b' w''; wp_go; try (by left).
    all: eapply wp_mono; [apply writer_punch_seek|].
    all: intros ? ? ? ->; by left.
Qed.

Lemma writer_loop_seek fuel fd len ph w :
  wp (after_step failed_lseek) after_X
     (writer_loop HAVE_PUNCH_HOLE o fuel fd len ph)
     (fun fell_through _ s' =>
        s' = None \/
        fell_through = true /\
        exists off x, s' = Some (EvLseek fd off x, []))
     w None.
Proof.
  revert ph w. induction fuel as [|fuel IH]; intros ph w; simpl.
  - by wp_go.
  - wp_go. eapply wp_mono; [apply writer_body_seek|].
    intros c w' s' [->|[-> Hs']]; [|simpl; wp_go; by right].
    destruct c; wp_go; after_go; first [by left | apply IH].
Qed.

End SeekFailure.

(** X13. A seek that fails ends the driver at once and without a word:
    nothing is written, punched or reported after it, the descriptor is
    closed, and the driver returns [EXIT_SUCCESS]. *)
Theorem failed_seek_ends_the_driver_quietly (HAVE_PUNCH_HOLE : bool)
    (o : oracle) (fuel : nat) (fd fiemap_bytes : Z) (w : world)
    (e : event) (rest : list event) :
  let r := stress_fiemap_writer HAVE_PUNCH_HOLE o fuel fd fiemap_bytes w in
  after_first failed_lseek (trace_of r) = Some (e, rest) ->
  rest = [EvClose fd] /\ exists w', r = Ret EXIT_SUCCESS w' (trace_of r).
Proof.
  intros r Hfirst.
  assert (wp (after_step failed_lseek) after_X
            (stress_fiemap_writer HAVE_PUNCH_HOLE o fuel fd fiemap_bytes)
            (fun rc _ s' =>
               s' = None \/
               rc = EXIT_SUCCESS /\
               exists off x, s' = Some (EvLseek fd off x, [EvClose fd]))
            w None) as H.
  { unfold stress_fiemap_writer. wp_go.
    eapply wp_mono; [apply writer_loop_seek|].
    intros b w' s' [->|[-> (off & x & ->)]]; wp_go; after_go.
    - by left.
    - right. split; [done|]. by eexists _, _. }
  unfold wp in H. fold r in H, Hfirst.
  destruct r as [rc w' t|rc w' t|why w' t|w' t]; simpl in Hfirst;
    rewrite after_observe, Hfirst in H; [|done..].
  destruct H as [H|[-> (off & x & [= -> ->])]]; [done|].
  split; [done|]. by exists w'.
Qed.

Lemma failed_seek_ends_the_driver_quietly_witness :
  let r := stress_fiemap_writer true seek_error 5 3 MiB mapped_world in
  [EvClose 3] = [EvClose 3] /\
  exists w', r = Ret EXIT_SUCCESS w' (trace_of r).
Proof.
  eapply (failed_seek_ends_the_driver_quietly true seek_error 5 3 MiB
            mapped_world).
  vm_compute. reflexivity.
Defined.

(** ** The file has no name *)





Section Order.
Variable HAVE_PUNCH_HOLE : bool.
Variable o : oracle.
Variables MIN_FIEMAP_SIZE DEFAULT_FIEMAP_SIZE MAXIMIZED_FILE_SIZE : Z.
Variable exit_status : Z -> exit_code.


End Order.


(** ** Being told to stop *)

Section Stop.
Variable HAVE_PUNCH_HOLE : bool.
Variable o : oracle.

Lemma count_loop_stop k i c w :
  wp (after_step stop_signal) after_X (count_loop o k i c)
     (fun _ _ s' => s' = None) w None.
Proof.
  revert i c w. induction k as [|k IH]; intros i c w;
    rewrite ?count_loop_0, ?count_loop_S.
  - by wp_go.
  - wp_go; unfold after_X; after_go; [apply IH | done].
Qed.

Lemma count_stop w :
  wp (after_step stop_signal) after_X (stress_fiemap_count o)
     (fun b _ s' =>
        if b then s' = None
        else s' = Some (EvKeepStressing false, []))
     w None.
Proof.
  unfold stress_fiemap_count. wp_go.
  eapply wp_mono; [apply count_loop_stop|].
  intros a w' s' ->. wp_go.
  destruct (o_keep_stressing o (clock w')) eqn:E; by after_go.
Qed.

Lemma writer_punch_stop fd len ph w :
  wp (after_step stop_signal) after_X (writer_punch o fd len ph)
     (fun c _ s' => stopped_or_not c s') w None.
Proof.
  unfold writer_punch, stopped_or_not.
  wp_go; unfold after_X; after_go; try done; try (by left).
  all: eapply wp_mono; [apply count_stop|].
  all: intros [] w' s' ->; cbn [negb]; wp_go; first [by left | by right].
Qed.

Lemma writer_body_stop fd len ph w :
  wp (after_step stop_signal) after_X
     (writer_body HAVE_PUNCH_HOLE o fd len ph)
     (fun c _ s' => stopped_or_not c s') w None.
Proof.
  unfold writer_body, stopped_or_not.
  wp_go; unfold after_X; after_go; try done; try (by left).
  unfold writer_after_seek, writer_write, writer_after_write.
  wp_go. eapply wp_mono; [apply count_stop|].
  intros [] w' s' ->; cbn [negb]; wp_go; unfold after_X; after_go;
    try (by left); try (by right).
  all: eapply wp_mono; [apply count_stop|].
  all: intros [] w'' s'' ->; cbn [negb]; wp_go;
    try (by left); try (by right).
  all: apply writer_punch_stop.
Qed.

Lemma writer_loop_stop fuel fd len ph w :
  wp (after_step stop_signal) after_X
     (writer_loop HAVE_PUNCH_HOLE o fuel fd len ph)
     (fun fell_through _ s' =>
        s' = None \/
        fell_through = true /\ s' = Some (EvKeepStressing false, []))
     w None.
Proof.
  revert ph w. induction fuel as [|fuel IH]; intros ph w; simpl.
  - by wp_go.
  - wp_go. eapply wp_mono; [apply writer_body_stop|].
    intros c w' s' [->|[-> ->]]; [|simpl; wp_go; by right].
    destruct c; wp_go.
    all: repeat match goal with
           | H : ?b = true |- context [EvKeepStressing ?b] => rewrite H
           | H : ?b = false |- context [EvKeepStressing ?b] => rewrite H
           end.
    all: after_go; first [by left | by right | apply IH].
Qed.

End Stop.

(** X15. The driver obeys the harness at once: after the first time
    [keep_stressing] answers no, whether asked by the counting helper or
    by the loop condition, the driver makes no other call than closing
    the descriptor, and returns [EXIT_SUCCESS]. *)
Theorem driver_stops_when_told (HAVE_PUNCH_HOLE : bool) (o : oracle)
    (fuel : nat) (fd fiemap_bytes : Z) (w : world)
    (e : event) (rest : list event) :
  let r := stress_fiemap_writer HAVE_PUNCH_HOLE o fuel fd fiemap_bytes w in
  after_first stop_signal (trace_of r) = Some (e, rest) ->
  rest = [EvClose fd] /\ exists w', r = Ret EXIT_SUCCESS w' (trace_of r).
Proof.
  intros r Hfirst.
  assert (wp (after_step stop_signal) after_X
            (stress_fiemap_writer HAVE_PUNCH_HOLE o fuel fd fiemap_bytes)
            (fun rc _ s' =>
               s' = None \/
               rc = EXIT_SUCCESS /\
               s' = Some (EvKeepStressing false, [EvClose fd]))
            w None) as H.
  { unfold stress_fiemap_writer. wp_go.
    eapply wp_mono; [apply writer_loop_stop|].
    intros b w' s' [->|[-> ->]]; wp_go; after_go; [by left | by right]. }
  unfold wp in H. fold r in H, Hfirst.
  destruct r as [rc w' t|rc w' t|why w' t|w' t]; simpl in Hfirst;
    rewrite after_observe, Hfirst in H; [|done..].
  destruct H as [H|[-> [= -> ->]]]; [done|].
  split; [done|]. by exists w'.
Qed.

Lemma driver_stops_when_told_witness :
  let r := stress_fiemap_writer true (calm 3) 5 3 MiB mapped_world in
  [EvClose 3] = [EvClose 3] /\
  exists w', r = Ret EXIT_SUCCESS w' (trace_of r).
Proof.
  eapply (driver_stops_when_told true (calm 3) 5 3 MiB mapped_world).
  vm_compute. reflexivity.
Defined.

(** ** The working length *)

(** X16. With no explicit size, the minimise flag wins: the working
    length is [MIN_FIEMAP_SIZE], whether or not the maximise flag is set
    too and however many instances share the run. *)
Theorem minimize_flag_wins
    (MIN_FIEMAP_SIZE DEFAULT_FIEMAP_SIZE MAXIMIZED_FILE_SIZE : Z)
    (cfg : settings) (args : stress_args) :
  fiemap_bytes_setting cfg = None ->
  opt_flags_minimize cfg = true ->
  0 <= MIN_FIEMAP_SIZE ->
  1 <= num_instances args ->
  working_length MIN_FIEMAP_SIZE DEFAULT_FIEMAP_SIZE MAXIMIZED_FILE_SIZE
    cfg args = Some MIN_FIEMAP_SIZE.
Proof.
  intros Hset Hmin Hpos Hn.
  unfold working_length, initial_fiemap_bytes. rewrite Hset, Hmin.
  destruct (Z.eqb_spec (num_instances args) 0) as [E|_]; [lia|].
  f_equal.
  destruct (Z.ltb_spec (MIN_FIEMAP_SIZE / num_instances args)
              MIN_FIEMAP_SIZE) as [|Hge]; [done|].
  assert (MIN_FIEMAP_SIZE / num_instances args <= MIN_FIEMAP_SIZE)
    by (apply Z.div_le_upper_bound; nia).
  lia.
Qed.

Lemma minimize_flag_wins_witness :
  working_length MiB (16 * MiB) (2 ^ 63 - 1)
    (mk_settings None true true) (mk_args 0 8) = Some MiB.
Proof.
  apply (minimize_flag_wins MiB (16 * MiB) (2 ^ 63 - 1)
           (mk_settings None true true) (mk_args 0 8));
    [reflexivity | reflexivity | unfold MiB; lia | simpl; lia].
Defined.

(** ** The exit status of a run that never started *)

Lemma setup_observe s t :
  let s' := observe setup_step s t in
  su_run s' = su_run s || existsb is_run_state t /\
  su_nomap s' = su_nomap s || existsb is_mmap_failed t /\
  su_mkdir s' = keep_first (su_mkdir s) (first_some mkdir_failure t) /\
  su_open s' = keep_first (su_open s) (first_some open_failure t).
Proof.
  revert s. induction t as [|e t IH]; intros s.
  - simpl. rewrite !orb_false_r. by destruct (su_mkdir s), (su_open s).
  - unfold observe. simpl. fold (observe setup_step (setup_step s e) t).
    destruct (IH (setup_step s e)) as (-> & -> & -> & ->). simpl.
    rewrite !orb_assoc. repeat split.
    + by destruct (su_mkdir s), (mkdir_failure e).
    + by destruct (su_open s), (open_failure e).
Qed.

Section Setup.
Variable HAVE_PUNCH_HOLE : bool.
Variable o : oracle.
Variables MIN_FIEMAP_SIZE DEFAULT_FIEMAP_SIZE MAXIMIZED_FILE_SIZE : Z.
Variable exit_status : Z -> exit_code.

Lemma stress_fiemap_setup fuel cfg args w :
  wp setup_step any_X
     (stress_fiemap MIN_FIEMAP_SIZE DEFAULT_FIEMAP_SIZE MAXIMIZED_FILE_SIZE
        exit_status HAVE_PUNCH_HOLE o fuel cfg args)
     (fun rc _ s' =>
        su_run s' = false -> rc = setup_status_of exit_status s')
     w setup_start.
Proof.
  unfold stress_fiemap, close_clean, dir_clean, clean.
  wp_go; try done.
  all: try (intros _; unfold setup_status_of; simpl;
            repeat match goal with
              | H : negb ?b = _ |- _ =>
                destruct b eqn:?; cbn [negb] in H; try discriminate H;
                clear H
              end;
            rewrite_tests; simpl; rewrite_tests; done).
  all: apply (wp_invariant _ _ spawn_event (fun s => su_run s = true));
    [ apply spawn_loop_emits
    | intros ? ev Hev Hr; simpl; by rewrite Hr
    | simpl; by rewrite ?orb_true_r
    | done
    | intros [[n pids] stopped] w' s' Hs' ].
  all: wp_go.
  all: try (apply (wp_invariant _ _ writer_event
                     (fun s => su_run s = true));
            [ apply stress_fiemap_writer_emits
            | intros ? ev Hev Hr; simpl; by rewrite Hr
            | done | done | intros rc' w'' s'' Hs'' ]).
  all: apply (wp_invariant _ _ teardown_event (fun s => su_run s = true));
    [ apply reap_emits
    | intros ? ev Hev Hr; simpl; by rewrite Hr
    | done | done | intros ? ? ? Hr; by rewrite Hr ].
Qed.

End Setup.

(** X17. A run that ends before it enters its run state returns the
    status of what stopped it: [EXIT_NO_RESOURCE] when the counters could
    not be mapped, the harness's status for the error of
    [stress_temp_dir_mk_args] or of [open] when the directory or the file
    could not be made, and [EXIT_NOT_IMPLEMENTED] when the probe was
    refused. *)
Theorem unstarted_run_status
    (MIN_FIEMAP_SIZE DEFAULT_FIEMAP_SIZE MAXIMIZED_FILE_SIZE : Z)
    (exit_status : Z -> exit_code) (HAVE_PUNCH_HOLE : bool) (o : oracle)
    (fuel : nat) (cfg : settings) (args : stress_args) (w : world)
    (rc : exit_code) (w' : world) (t : list event) :
  stress_fiemap MIN_FIEMAP_SIZE DEFAULT_FIEMAP_SIZE MAXIMIZED_FILE_SIZE
    exit_status HAVE_PUNCH_HOLE o fuel cfg args w = Ret rc w' t ->
  existsb is_run_state t = false ->
  rc = setup_status exit_status t.
Proof.
  intros E Hrun.
  pose proof (stress_fiemap_setup HAVE_PUNCH_HOLE o MIN_FIEMAP_SIZE
                DEFAULT_FIEMAP_SIZE MAXIMIZED_FILE_SIZE exit_status fuel cfg
                args w) as H.
  unfold wp in H. rewrite E in H.
  destruct (setup_observe setup_start t) as (Hr & Hn & Hm & Ho).
  unfold setup_status_of in H. rewrite Hr, Hn, Hm, Ho in H. simpl in H.
  by apply H.
Qed.

Lemma unstarted_run_status_witness :
  match run_stressor no_space 5 with
  | Ret rc _ t => rc = EXIT_NO_RESOURCE /\ existsb is_munmap t = true
  | _ => False
  end.
Proof.
  destruct (run_stressor no_space 5) as [rc w' t| | |] eqn:E;
    try (vm_compute in E; discriminate).
  assert (existsb is_run_state t = false) as Hrun
    by (vm_compute in E; injection E as <- <- <-; reflexivity).
  pose proof (unstarted_run_status MiB (16 * MiB) (2 ^ 63 - 1)
                sample_exit_status true no_space 5 default_settings
                one_instance fresh_world rc w' t E Hrun) as H.
  vm_compute in E. injection E as <- <- <-. by vm_compute in H |- *.
Defined.

(** ** The skip notice *)

Section SkipNotice.
Variable HAVE_PUNCH_HOLE : bool.
Variable o : oracle.
Variable args : stress_args.
Hypothesis other_instance : instance args <> 0.

Lemma ioctl_body_silent slot fd c :
  emits_only no_skip_notice (ioctl_body o args slot fd c).
Proof.
  apply emits_only_wp. intros w. unfold ioctl_body.
  class_go. bool_facts. lia.
Qed.

Lemma ioctl_loop_silent fuel slot fd c :
  emits_only no_skip_notice (ioctl_loop o fuel args slot fd c).
Proof.
  apply emits_only_wp. revert c.
  induction fuel as [|fuel IH]; intros c w; simpl.
  - by class_go.
  - wp_go. apply (class_call no_skip_notice);
      [apply ioctl_body_silent | done | intros r w'].
    class_go; apply IH.
Qed.

Lemma stress_fiemap_spawn_silent fuel slot fd :
  emits_only no_skip_notice (stress_fiemap_spawn o fuel args slot fd).
Proof.
  apply emits_only_wp. intros w.
  unfold stress_fiemap_spawn, stress_fiemap_ioctl.
  class_go.
  apply (class_call no_skip_notice);
    [apply ioctl_loop_silent | done | intros r w'].
  by class_go.
Qed.

Lemma spawn_loop_silent k fuel fd n pids rc :
  emits_only no_skip_notice (spawn_loop o k fuel args fd n pids rc).
Proof.
  apply emits_only_wp. revert n pids.
  induction k as [|k IH]; intros n pids w;
    rewrite ?spawn_loop_0, ?spawn_loop_S.
  - by class_go.
  - class_go.
    apply (class_call no_skip_notice);
      [apply stress_fiemap_spawn_silent | done | intros pid w'].
    class_go; apply IH.
Qed.

Variables MIN_FIEMAP_SIZE DEFAULT_FIEMAP_SIZE MAXIMIZED_FILE_SIZE : Z.
Variable exit_status : Z -> exit_code.

Lemma stress_fiemap_silent fuel cfg :
  emits_only no_skip_notice
    (stress_fiemap MIN_FIEMAP_SIZE DEFAULT_FIEMAP_SIZE MAXIMIZED_FILE_SIZE
       exit_status HAVE_PUNCH_HOLE o fuel cfg args).
Proof.
  apply emits_only_wp. intros w.
  unfold stress_fiemap, close_clean, dir_clean, clean.
  class_go.
  all: try (bool_facts; lia).
  all: apply (class_call no_skip_notice);
    [apply spawn_loop_silent | done | intros [[n pids] stopped] w'].
  all: class_go.
  all: try (apply (class_call writer_event);
            [apply stress_fiemap_writer_emits | by intros []
            | intros rc' w'']).
  all: apply (class_call teardown_event);
    [apply reap_emits | | done].
  all: intros ev; destruct ev; try done.
Qed.

End SkipNotice.

(** X18. The notice that the file system has no FIEMAP support is left
    to instance 0: in an instance with another number neither the
    supervisor nor any of its workers prints it. *)
Theorem skip_notice_only_from_instance_0
    (MIN_FIEMAP_SIZE DEFAULT_FIEMAP_SIZE MAXIMIZED_FILE_SIZE : Z)
    (exit_status : Z -> exit_code) (HAVE_PUNCH_HOLE : bool) (o : oracle)
    (fuel : nat) (cfg : settings) (args : stress_args) (w : world) :
  instance args <> 0 ->
  Forall (fun e => is_inf_skip e = false)
    (trace_of (stress_fiemap MIN_FIEMAP_SIZE DEFAULT_FIEMAP_SIZE
                 MAXIMIZED_FILE_SIZE exit_status HAVE_PUNCH_HOLE o fuel cfg
                 args w)).
Proof.
  intros Hi.
  pose proof (stress_fiemap_silent HAVE_PUNCH_HOLE o args Hi MIN_FIEMAP_SIZE
                DEFAULT_FIEMAP_SIZE MAXIMIZED_FILE_SIZE exit_status fuel cfg
                w) as H.
  eapply Forall_impl; [exact H|].
  intros e He. unfold no_skip_notice in He. by destruct (is_inf_skip e).
Qed.

Lemma skip_notice_only_from_instance_0_witness :
  Forall (fun e => is_inf_skip e = false)
    (trace_of (stress_fiemap MiB (16 * MiB) (2 ^ 63 - 1) sample_exit_status
                 true no_fiemap 5 default_settings (mk_args 1 2)
                 fresh_world)).
Proof.
  apply (skip_notice_only_from_instance_0 MiB (16 * MiB) (2 ^ 63 - 1)
           sample_exit_status true no_fiemap 5 default_settings
           (mk_args 1 2) fresh_world).
  simpl. lia.
Defined.

(** ** Undefined behaviour *)

Lemma interfere_length burst m : length (interfere burst m) = length m.
Proof.
  revert m. induction burst as [|i burst IH]; intros m; [done|].
  simpl. by rewrite IH, length_alter.
Qed.

Lemma umod64_zero r len : umod64 r len = None -> len = 0.
Proof.
  unfold umod64. destruct (Z.eqb_spec len 0); [done|discriminate].
Qed.

Ltac bounds_done :=
  unfold undef_X, mapped in *; cbn [counters] in *;
  first
    [ done
    | by rewrite ?length_insert, ?interfere_length
    | exfalso;
      repeat match goal with
        | H : _ !! _ = None |- _ =>
          apply lookup_ge_None_1 in H;
          rewrite ?length_insert, ?interfere_length in H
        end;
      unfold MAX_FIEMAP_PROCS in *; lia
    | match goal with
      | Hd : _ = true \/ _ <> 0, H : umod64 _ _ = None |- _ =>
        destruct Hd as [Hd|Hd]; [exact Hd | by apply umod64_zero in H]
      end ].

Section Defined.
Variable HAVE_PUNCH_HOLE : bool.
Variable o : oracle.
Variable allow_div : bool.

Lemma count_loop_bounds k i c w u :
  mapped w -> (i + k = MAX_FIEMAP_PROCS)%nat ->
  wp quiet_step (undef_X allow_div) (count_loop o k i c)
     (fun _ w' _ => mapped w') w u.
Proof.
  revert i c w. induction k as [|k IH]; intros i c w Hw Hi;
    rewrite ?count_loop_0, ?count_loop_S.
  - by wp_go.
  - wp_go.
    + apply IH; [bounds_done | lia].
    + bounds_done.
Qed.

Lemma count_bounds w u :
  mapped w ->
  wp quiet_step (undef_X allow_div) (stress_fiemap_count o)
     (fun _ w' _ => mapped w') w u.
Proof.
  intros Hw. unfold stress_fiemap_count. wp_go.
  eapply wp_mono; [by apply count_loop_bounds|].
  intros a w' s' Hw'. by wp_go.
Qed.

Lemma writer_punch_bounds fd len ph w u :
  mapped w -> allow_div = true \/ len <> 0 ->
  wp quiet_step (undef_X allow_div) (writer_punch o fd len ph)
     (fun _ w' _ => mapped w') w u.
Proof.
  intros Hw Hd. unfold writer_punch. wp_go; try bounds_done.
  all: eapply wp_mono; [apply count_bounds; bounds_done|].
  all: intros b w' s' Hw'; by wp_go.
Qed.

Lemma writer_body_bounds fd len ph w u :
  mapped w -> allow_div = true \/ len <> 0 ->
  wp quiet_step (undef_X allow_div)
     (writer_body HAVE_PUNCH_HOLE o fd len ph)
     (fun _ w' _ => mapped w') w u.
Proof.
  intros Hw Hd.
  unfold writer_body, writer_after_seek, writer_write, writer_after_write.
  wp_go; try bounds_done.
  all: eapply wp_mono; [apply count_bounds; bounds_done|].
  all: intros b w' s' Hw'; wp_go; try bounds_done.
  all: eapply wp_mono; [apply count_bounds; bounds_done|].
  all: intros b' w'' s'' Hw''; wp_go; try bounds_done.
  all: apply writer_punch_bounds; bounds_done.
Qed.

Lemma writer_loop_bounds fuel fd len ph w u :
  mapped w -> allow_div = true \/ len <> 0 ->
  wp quiet_step (undef_X allow_div)
     (writer_loop HAVE_PUNCH_HOLE o fuel fd len ph)
     (fun _ w' _ => mapped w') w u.
Proof.
  revert ph w u. induction fuel as [|fuel IH]; intros ph w u Hw Hd; simpl.
  - by wp_go.
  - wp_go. eapply wp_mono; [by apply writer_body_bounds|].
    intros c w' s' Hw'. destruct c; wp_go;
      first [bounds_done | apply IH; bounds_done].
Qed.

Lemma ioctl_body_bounds args slot fd c w u :
  mapped w -> (slot < MAX_FIEMAP_PROCS)%nat ->
  wp quiet_step (undef_X allow_div) (ioctl_body o args slot fd c)
     (fun _ w' _ => mapped w') w u.
Proof.
  intros Hw Hs. unfold ioctl_body. wp_go; bounds_done.
Qed.

Lemma ioctl_loop_bounds fuel args slot fd c w u :
  mapped w -> (slot < MAX_FIEMAP_PROCS)%nat ->
  wp quiet_step (undef_X allow_div) (ioctl_loop o fuel args slot fd c)
     (fun _ w' _ => mapped w') w u.
Proof.
  revert c w u. induction fuel as [|fuel IH]; intros c w u Hw Hs; simpl.
  - by wp_go.
  - wp_go. eapply wp_mono; [by apply ioctl_body_bounds|].
    intros r w' s' Hw'. destruct r; wp_go;
      first [bounds_done | apply IH; bounds_done].
Qed.

Lemma stress_fiemap_spawn_bounds fuel args slot fd w u :
  mapped w -> (slot < MAX_FIEMAP_PROCS)%nat ->
  wp quiet_step (undef_X allow_div)
     (stress_fiemap_spawn o fuel args slot fd)
     (fun _ w' _ => mapped w') w u.
Proof.
  intros Hw Hs. unfold stress_fiemap_spawn, stress_fiemap_ioctl.
  wp_go; try bounds_done.
  eapply wp_mono; [apply ioctl_loop_bounds; bounds_done|].
  intros r w' s' Hw'. wp_go. bounds_done.
Qed.

Lemma spawn_loop_bounds k fuel args fd n pids rc w u :
  mapped w -> (n + k = MAX_FIEMAP_PROCS)%nat ->
  wp quiet_step (undef_X allow_div)
     (spawn_loop o k fuel args fd n pids rc)
     (fun _ w' _ => mapped w') w u.
Proof.
  revert n pids w u. induction k as [|k IH]; intros n pids w u Hw Hn;
    rewrite ?spawn_loop_0, ?spawn_loop_S.
  - by wp_go.
  - wp_go; try bounds_done.
    eapply wp_mono; [apply stress_fiemap_spawn_bounds; [bounds_done|lia]|].
    intros pid w' s' Hw'. wp_go; [bounds_done|].
    apply IH; [bounds_done|lia].
Qed.

Lemma reap_loop_bounds pids (Q : unit -> world -> unit -> Prop) w u :
  Q tt w u -> wp quiet_step (undef_X allow_div) (reap_loop pids) Q w u.
Proof.
  revert u. induction pids as [|pid pids IH]; intros u HQ; simpl.
  - by wp_go.
  - wp_go. by apply IH.
Qed.

Variables MIN_FIEMAP_SIZE DEFAULT_FIEMAP_SIZE MAXIMIZED_FILE_SIZE : Z.
Variable exit_status : Z -> exit_code.

Lemma stress_fiemap_bounds fuel cfg args w :
  allow_div = true \/
  (1 < MIN_FIEMAP_SIZE < 2 ^ 64 /\ 1 <= num_instances args /\
   initial_fiemap_bytes MIN_FIEMAP_SIZE DEFAULT_FIEMAP_SIZE
     MAXIMIZED_FILE_SIZE cfg < 2 ^ 64) ->
  wp quiet_step (undef_X allow_div)
     (stress_fiemap MIN_FIEMAP_SIZE DEFAULT_FIEMAP_SIZE MAXIMIZED_FILE_SIZE
        exit_status HAVE_PUNCH_HOLE o fuel cfg args)
     (fun _ _ _ => True) w tt.
Proof.
  intros Hd.
  assert (forall len,
            working_length MIN_FIEMAP_SIZE DEFAULT_FIEMAP_SIZE
              MAXIMIZED_FILE_SIZE cfg args = Some len ->
            allow_div = true \/ wrap64 (len - 1) <> 0) as Hlen.
  { intros len Hl. destruct Hd as [Hd|(Hmin & Hn & Hi)]; [by left|right].
    unfold working_length in Hl.
    destruct (num_instances args =? 0); [done|]. injection Hl as <-.
    assert (initial_fiemap_bytes MIN_FIEMAP_SIZE DEFAULT_FIEMAP_SIZE
              MAXIMIZED_FILE_SIZE cfg / num_instances args < 2 ^ 64).
    { apply Z.div_lt_upper_bound; [lia|]. nia. }
    unfold wrap64.
    destruct (_ <? _) eqn:E; bool_facts; rewrite Z.mod_small; lia. }
  assert (working_length MIN_FIEMAP_SIZE DEFAULT_FIEMAP_SIZE
            MAXIMIZED_FILE_SIZE cfg args = None ->
          allow_div = true) as Hnone.
  { intros Hl. destruct Hd as [Hd|(Hmin & Hn & Hi)]; [done|].
    unfold working_length in Hl.
    destruct (Z.eqb_spec (num_instances args) 0); [lia|done]. }
  unfold stress_fiemap, close_clean, dir_clean, clean.
  wp_go; try done.
  all: try (by apply Hnone).
  all: eapply wp_mono; [by apply spawn_loop_bounds|].
  all: intros [[n pids] stopped] w' s' Hw'.
  all: wp_go.
  all: try (unfold stress_fiemap_writer; wp_go;
            eapply wp_mono;
            [apply writer_loop_bounds; [done | by apply Hlen]|];
            intros b w'' s'' Hw''; wp_go).
  all: unfold reap, close_clean, dir_clean, clean; wp_go.
  all: apply reap_loop_bounds; by wp_go.
Qed.

End Defined.

(** X19. The counter array is never accessed out of bounds: no run of
    the stressor, in the supervisor or in a child, ends in an access to a
    counter slot that does not exist. *)
Theorem counters_accessed_within_bounds
    (MIN_FIEMAP_SIZE DEFAULT_FIEMAP_SIZE MAXIMIZED_FILE_SIZE : Z)
    (exit_status : Z -> exit_code) (HAVE_PUNCH_HOLE : bool) (o : oracle)
    (fuel : nat) (cfg : settings) (args : stress_args) (w : world) :
  in_bounds
    (stress_fiemap MIN_FIEMAP_SIZE DEFAULT_FIEMAP_SIZE MAXIMIZED_FILE_SIZE
       exit_status HAVE_PUNCH_HOLE o fuel cfg args w).
Proof.
  pose proof (stress_fiemap_bounds HAVE_PUNCH_HOLE o true MIN_FIEMAP_SIZE
                DEFAULT_FIEMAP_SIZE MAXIMIZED_FILE_SIZE exit_status fuel cfg
                args w (or_introl eq_refl)) as H.
  unfold wp, in_bounds in *.
  destruct (stress_fiemap _ _ _ _ _ _ _ _ _ _) as [| |[]|]; try done.
Qed.

(** X20. With a minimum size above one byte, at least one instance, and
    sizes that fit [uint64_t], a run of the stressor has no undefined
    behaviour: it divides by zero neither when it splits the size among
    the instances nor when it draws an offset, and it stays within the
    counter array. *)
Theorem run_has_no_undefined_behaviour
    (MIN_FIEMAP_SIZE DEFAULT_FIEMAP_SIZE MAXIMIZED_FILE_SIZE : Z)
    (exit_status : Z -> exit_code) (HAVE_PUNCH_HOLE : bool) (o : oracle)
    (fuel : nat) (cfg : settings) (args : stress_args) (w : world) :
  1 < MIN_FIEMAP_SIZE < 2 ^ 64 ->
  1 <= num_instances args ->
  initial_fiemap_bytes MIN_FIEMAP_SIZE DEFAULT_FIEMAP_SIZE
    MAXIMIZED_FILE_SIZE cfg < 2 ^ 64 ->
  well_defined
    (stress_fiemap MIN_FIEMAP_SIZE DEFAULT_FIEMAP_SIZE MAXIMIZED_FILE_SIZE
       exit_status HAVE_PUNCH_HOLE o fuel cfg args w).
Proof.
  intros Hmin Hn Hi.
  pose proof (stress_fiemap_bounds HAVE_PUNCH_HOLE o false MIN_FIEMAP_SIZE
                DEFAULT_FIEMAP_SIZE MAXIMIZED_FILE_SIZE exit_status fuel cfg
                args w (or_intror (conj Hmin (conj Hn Hi)))) as H.
  unfold wp, well_defined in *.
  destruct (stress_fiemap _ _ _ _ _ _ _ _ _ _) as [| |[]|]; try done.
Qed.

Lemma run_has_no_undefined_behaviour_witness :
  well_defined (run_stressor (calm 40) 5).
Proof.
  apply (run_has_no_undefined_behaviour MiB (16 * MiB) (2 ^ 63 - 1)
           sample_exit_status true (calm 40) 5 default_settings
           one_instance fresh_world);
    [unfold MiB; lia | simpl; lia | vm_compute; reflexivity].
Defined.

(** ** The steps of a worker's cycle *)

Lemma idle_rule h e : idle h = true -> size_rule h e = true.
Proof.
  destruct h as [|e0 h]; [done|]. destruct e0; try done.
  - destruct b; [|done]. destruct h as [|[] ?]; try done.
    by destruct s.
  - by destruct ok.
Qed.

Lemma size_rule_after_burst (l : list nat) h e :
  idle h = true -> size_rule (rev (EvRemoteIncr <$> l) ++ h) e = true.
Proof.
  intros Hi. destruct (rev_fmap_head EvRemoteIncr l h) as [->|(y & h' & ->)];
    [by apply idle_rule|done].
Qed.

Lemma idle_after_burst (l : list nat) h :
  idle h = true -> idle (rev (EvRemoteIncr <$> l) ++ h) = true.
Proof.
  intros Hi. by destruct (rev_fmap_head EvRemoteIncr l h)
    as [->|(y & h' & ->)].
Qed.

Section Steps.
Variable o : oracle.

Lemma ioctl_body_steps args slot fd c w h :
  idle h = true ->
  wp (hist_step size_rule) steps_X (ioctl_body o args slot fd c)
     (fun r _ s' =>
        snd s' = true /\ idle (fst s') = true /\
        match r with
        | Some _ => between_cycles (fst s')
        | None => True
        end) w (h, true).
Proof.
  intros Hi. unfold ioctl_body. wp_go.
  all: repeat match goal with
         | H : negb ?b = _ |- _ =>
           destruct b eqn:?; cbn [negb] in H; try discriminate H; clear H
         end.
  all: try match goal with
       | |- context [wrap32 ?x] =>
         pose proof (Z.mod_pos_bound x (2 ^ 32) eq_refl) as Hk;
         fold (wrap32 x) in Hk;
         destruct (realloc_size_exact (wrap32 x) Hk) as [E1 E2]
       end.
  all: repeat
         (first [ rewrite hist_step_eq
                | rewrite hist_observe_fmap by (intros; done) ];
          cbn [size_rule fm_extent_count fm_mapped_extents];
          rewrite ?(idle_rule h), ?size_rule_after_burst by done;
          rewrite ?E1, ?E2;
          repeat match goal with
            | |- context [?a =? ?b] =>
              replace (a =? b) with true
                by (symmetry; apply Z.eqb_eq; lia)
            end;
          cbn [andb]).
  all: cbn [fst snd]; unfold steps_X, between_cycles; cbn [fst snd idle].
  all: rewrite ?idle_after_burst by done.
  all: repeat split; try done; by intros [].
Qed.

Lemma ioctl_loop_steps fuel args slot fd c w h :
  idle h = true /\ (forall b, idle (EvKeepStressing b :: h) = true) \/
  h = [] ->
  wp (hist_step size_rule) steps_X (ioctl_loop o fuel args slot fd c)
     (fun _ _ s' => snd s' = true /\ idle (fst s') = true) w (h, true).
Proof.
  revert c w h. induction fuel as [|fuel IH]; intros c w h Hi.
  - simpl. wp_go. split; [done|]. by destruct Hi as [[? _]| ->].
  - simpl. wp_go. eapply wp_mono;
      [apply ioctl_body_steps; by destruct Hi as [[? _]| ->]|].
    intros r w' [h' ok'] (Hok & Hi' & Hr); cbn [fst snd] in *. subst ok'.
    destruct r as [c'|]; wp_go; [| |done].
    all: destruct Hr as [_ Hk].
    all: rewrite hist_step_eq, (idle_rule h') by done; cbn [andb].
    + pose proof (Hk true) as Hk1. apply IH. left. split; [done|].
      intros b. by destruct b.
    + split; [done|]. apply Hk.
Qed.

End Steps.

(** X10. In every cycle of a worker that gets that far, the buffer is
    resized to exactly the 32 bytes of the header plus 56 bytes for each
    extent the discovery call just reported, then exactly that many
    extent records are cleared, then the populate call is made with room
    for them: the [realloc] is the first call after the go-ahead that
    follows a discovery, the [memset] follows a successful [realloc] at
    once, the populate call follows the [memset] at once, and no run of
    the worker ends between these steps.  The reported count is below
    2^32, so neither size wraps around. *)
Theorem buffer_sized_by_reported_count (o : oracle) (fuel : nat)
    (args : stress_args) (slot : nat) (fd : Z) (w : world) :
  let t := trace_of (stress_fiemap_ioctl o fuel args slot fd w) in
  sized_by_discovery t /\ obeys size_rule t /\ idle (rev t) = true.
Proof.
  intros t. split.
  - apply size_obs_sound.
    apply (wp_observe size_step size_X (fun s => sz_ok s = true)); [done|].
    unfold stress_fiemap_ioctl. wp_go. by apply ioctl_loop_size.
  - assert (let s := observe (hist_step size_rule) ([], true) t in
            snd s = true /\ idle (fst s) = true) as [Hok Hidle].
    { apply (wp_observe (hist_step size_rule) steps_X
               (fun s => snd s = true /\ idle (fst s) = true)); [done|].
      unfold stress_fiemap_ioctl. wp_go. apply ioctl_loop_steps. by right. }
    split; [by apply hist_obs_sound|].
    by rewrite hist_observe_history, app_nil_r in Hidle.
Qed.

